(** * Decoder of the CLP IR stream ([ffi::ir_stream], decoding_methods.cpp)

    A shallow embedding of the decoding functions of
    [src/components/core/src/ffi/ir_stream/decoding_methods.cpp] and the
    properties of the integer codec, the field parsers, the message
    assembler and the message renderer. *)

From Stdlib Require Import ZArith List Lia Bool Arith.
From coqutil Require Import Byte Word.LittleEndianList Z.bitblast.
From Equations Require Import Equations.
Import ListNotations.

Local Open Scope Z_scope.

(** ** Integer types *)

(** The fixed-width integer types [decode_int] is instantiated with. *)
Inductive integer_t : Type :=
| int8_t | uint8_t | int16_t | uint16_t
| int32_t | uint32_t | int64_t | uint64_t.

Definition sizeof (t : integer_t) : nat :=
  match t with
  | int8_t | uint8_t => 1
  | int16_t | uint16_t => 2
  | int32_t | uint32_t => 4
  | int64_t | uint64_t => 8
  end.

Definition is_signed (t : integer_t) : bool :=
  match t with
  | int8_t | int16_t | int32_t | int64_t => true
  | _ => false
  end.

Definition bits (t : integer_t) : Z := 8 * Z.of_nat (sizeof t).

(** Conversion of an integer to an unsigned type of [n] bits. *)
Definition to_unsigned (n : Z) (z : Z) : Z := z mod 2 ^ n.

(** Conversion of an integer to a signed type of [n] bits
    (two's complement). *)
Definition to_signed (n : Z) (z : Z) : Z :=
  (z + 2 ^ (n - 1)) mod 2 ^ n - 2 ^ (n - 1).

(** Integral conversion to the type [t]. *)
Definition convert (t : integer_t) (z : Z) : Z :=
  if is_signed t then to_signed (bits t) z else to_unsigned (bits t) z.

(** [size_t], on a 64-bit platform. *)
Definition size_t_bits : Z := 64.
Definition to_size_t (z : Z) : Z := to_unsigned size_t_bits z.

(** ** Byte swapping *)

(** Byte [i] of [x], counted from the least significant one. *)
Definition byte_at (x : Z) (i : Z) : Z := Z.land (Z.shiftr x (8 * i)) 255.

(** Modelled from the spec: [bswap_16], [bswap_32] and [bswap_64] come from
    byteswap.hpp, which is not among the sources.  The integers on the wire
    are big-endian and the host is little-endian, so they reverse the bytes
    of an unsigned 16-, 32- and 64-bit value; they are written in the
    shift-and-mask form. *)
Definition bswap_16 (x : Z) : Z :=
  Z.lor (Z.shiftl (byte_at x 0) 8) (byte_at x 1).

Definition bswap_32 (x : Z) : Z :=
  Z.lor (Z.shiftl (byte_at x 0) 24)
    (Z.lor (Z.shiftl (byte_at x 1) 16)
       (Z.lor (Z.shiftl (byte_at x 2) 8) (byte_at x 3))).

Definition bswap_64 (x : Z) : Z :=
  Z.lor (Z.shiftl (byte_at x 0) 56)
    (Z.lor (Z.shiftl (byte_at x 1) 48)
       (Z.lor (Z.shiftl (byte_at x 2) 40)
          (Z.lor (Z.shiftl (byte_at x 3) 32)
             (Z.lor (Z.shiftl (byte_at x 4) 24)
                (Z.lor (Z.shiftl (byte_at x 5) 16)
                   (Z.lor (Z.shiftl (byte_at x 6) 8) (byte_at x 7))))))).

(** ** The reader *)

(** Modelled from the spec: [ReaderInterface] is declared outside the
    sources.  By the byte reader contract it is a sequential source whose
    reads either deliver exactly the requested bytes or fail.  A reader is
    the list of the bytes not read yet. *)
Definition Reader : Type := list byte.

(** Modelled from the spec: [try_read_exact_length(buf, n)] of
    [ReaderInterface], with [n] a [size_t]: exactly [n] bytes or a failure.
    The contract does not say where a failed read leaves the reader; the
    model leaves it in place. *)
Definition try_read_exact_length (n : Z) (r : Reader)
  : option (list byte) * Reader :=
  if Z.of_nat (length r) <? n then (None, r)
  else (Some (firstn (Z.to_nat n) r), skipn (Z.to_nat n) r).

(** Modelled from the spec: [try_read_string(n, str)] of [ReaderInterface],
    an exact read of [n] bytes into a string. *)
Definition try_read_string (n : Z) (r : Reader)
  : option (list byte) * Reader :=
  try_read_exact_length n r.

(** Modelled from the spec: [try_read_numeric_value(value)] of
    [ReaderInterface] reads the raw bytes of a fixed-width integer, that is
    [sizeof(value)] bytes copied into the object representation of [value].
    The host is little-endian (the source names the result
    [value_little_endian]). *)
Definition try_read_numeric_value (t : integer_t) (r : Reader)
  : option Z * Reader :=
  match try_read_exact_length (Z.of_nat (sizeof t)) r with
  | (Some bs, r') => (Some (convert t (le_combine bs)), r')
  | (None, r') => (None, r')
  end.

(** ** Integer codec *)

(** [decode_int<integer_t>(reader, value)]: [None] is the [false] return,
    [Some v] the [true] return with [value = v]. *)
Definition decode_int (t : integer_t) (r : Reader) : option Z * Reader :=
  match try_read_numeric_value t r with
  | (None, r') => (None, r')
  | (Some value_little_endian, r') =>
      let value :=
        match sizeof t with
        | 1%nat => value_little_endian
        | 2%nat => convert t (bswap_16 (to_unsigned 16 value_little_endian))
        | 4%nat => convert t (bswap_32 (to_unsigned 32 value_little_endian))
        | _ => convert t (bswap_64 (to_unsigned 64 value_little_endian))
        end in
      (Some value, r')
  end.

(** The big-endian value of a byte pattern:
    the sum of [byte[i] * 256^(W-1-i)]. *)
Fixpoint be_sum_from (W : nat) (i : nat) (bs : list byte) : Z :=
  match bs with
  | [] => 0
  | b :: bs' =>
      byte.unsigned b * 256 ^ (Z.of_nat (W - 1 - i)) + be_sum_from W (S i) bs'
  end.

Definition big_endian_value (bs : list byte) : Z :=
  be_sum_from (length bs) 0 bs.

(** The value of type [t] a [W]-byte big-endian pattern denotes: the sum
    itself for the unsigned types, its two's-complement reading for the
    signed ones. *)
Definition interpret (t : integer_t) (x : Z) : Z :=
  if is_signed t then (if x <? 2 ^ (bits t - 1) then x else x - 2 ^ bits t)
  else x.

(** ** Protocol constants

    protocol_constants.hpp is not among the sources: the tags, the magic
    numbers and the placeholder characters are taken as parameters.  Tags
    are [int8_t] values, the characters of a logtype are bytes. *)

(** The constants of [cProtocol::Payload]. *)
Record Payload_t : Type := {
  VarFourByteEncoding : Z;
  VarEightByteEncoding : Z;
  VarStrLenUByte : Z;
  VarStrLenUShort : Z;
  VarStrLenInt : Z;
  LogtypeStrLenUByte : Z;
  LogtypeStrLenUShort : Z;
  LogtypeStrLenInt : Z;
  TimestampVal : Z;
  TimestampDeltaByte : Z;
  TimestampDeltaShort : Z;
  TimestampDeltaInt : Z
}.

(** The constants of [cProtocol]. *)
Record cProtocol_t : Type := {
  Payload : Payload_t;
  FourByteEncodingMagicNumber : list byte;
  EightByteEncodingMagicNumber : list byte;
  MagicNumberLength : nat;
  Eof : Z
}.

(** The values of [enum class VariablePlaceholder] and the escape
    character. *)
Record VariablePlaceholder_t : Type := {
  Float : byte;
  Integer : byte;
  Dictionary : byte;
  cVariablePlaceholderEscapeCharacter : byte
}.

(** The two instantiations of the template parameter
    [encoded_variable_t]. *)
Inductive encoded_variable_t : Type :=
| eight_byte_encoded_variable_t
| four_byte_encoded_variable_t.

(** Modelled from the spec: the type definitions are not among the
    sources.  An encoded variable is a signed integer of 8 bytes in the
    eight-byte variant and of 4 bytes in the four-byte variant. *)
Definition encoded_variable_int (v : encoded_variable_t) : integer_t :=
  match v with
  | eight_byte_encoded_variable_t => int64_t
  | four_byte_encoded_variable_t => int32_t
  end.

(** Modelled from the spec: a timestamp is a signed 64-bit count of
    milliseconds (the eight-byte variant reads it as an 8-byte signed
    integer). *)
Definition epoch_time_ms_t : integer_t := int64_t.

(** Modelled from the spec: a tag is a single byte; the source compares it
    with the [int8_t] constants of the protocol. *)
Definition encoded_tag_t : integer_t := int8_t.

(** ** Error codes and the decoding monad *)

Inductive IRErrorCode : Type :=
| IRErrorCode_Success
| IRErrorCode_Decode_Error
| IRErrorCode_Eof
| IRErrorCode_Corrupted_IR
| IRErrorCode_Incomplete_IR.

(** What a call hands back: on [IRErrorCode_Success] the values written
    through its reference parameters, otherwise the error code alone. *)
Inductive Result (A : Type) : Type :=
| Success (a : A)
| Failure (e : IRErrorCode).
Arguments Success {A} a.
Arguments Failure {A} e.

Definition error_code {A : Type} (x : Result A) : IRErrorCode :=
  match x with
  | Success _ => IRErrorCode_Success
  | Failure e => e
  end.

(** A decoding function runs on the reader and leaves it advanced. *)
Definition Decoder (A : Type) : Type := Reader -> Result A * Reader.

Definition ret {A : Type} (a : A) : Decoder A := fun r => (Success a, r).

Definition fail {A : Type} (e : IRErrorCode) : Decoder A :=
  fun r => (Failure e, r).

Definition bind {A B : Type} (m : Decoder A) (k : A -> Decoder B) : Decoder B :=
  fun r =>
    match m r with
    | (Success a, r') => k a r'
    | (Failure e, r') => (Failure e, r')
    end.

Notation "x <- m ;; k" := (bind m (fun x => k))
  (at level 61, m at next level, right associativity).
Notation "' p <- m ;; k" := (bind m (fun x => match x with p => k end))
  (at level 61, p pattern, m at next level, right associativity).

(** A reader call whose failure the caller answers with
    [IRErrorCode_Incomplete_IR]. *)
Definition or_incomplete {A : Type} (read : Reader -> option A * Reader)
  : Decoder A :=
  fun r =>
    match read r with
    | (Some a, r') => (Success a, r')
    | (None, r') => (Failure IRErrorCode_Incomplete_IR, r')
    end.

(** The decoder never gives bytes back to the reader. *)
Definition shrinks {A : Type} (m : Decoder A) : Prop :=
  forall r x r', m r = (x, r') -> (length r' <= length r)%nat.

(** The decoder never fails with [IRErrorCode_Decode_Error]. *)
Definition no_decode_error {A : Type} (m : Decoder A) : Prop :=
  forall r e r', m r = (Failure e, r') -> e <> IRErrorCode_Decode_Error.

(** [memcmp(a, b, n)]; both arrays hold at least [n] bytes. *)
Fixpoint memcmp (a b : list byte) (n : nat) : Z :=
  match n, a, b with
  | S n', x :: a', y :: b' =>
      if Byte.eqb x y then memcmp a' b' n'
      else byte.unsigned x - byte.unsigned y
  | _, _, _ => 0
  end.

(** [message.append(str, pos, len)] appends [str.substr(pos, len)]. *)
Definition substr (s : list byte) (pos len : nat) : list byte :=
  firstn len (skipn pos s).

(** The variables of the loop of [decode_message].  The positions are
    [size_t] values bounded by [logtype.length()], so they never wrap and
    are kept as natural numbers. *)
Record loop_state : Type := {
  cur_pos : nat;
  next_static_text_begin_pos : nat;
  dictionary_vars_ix : nat;
  encoded_vars_ix : nat;
  message : list byte
}.

(** ** A protocol instance

    Concrete tag values, magic numbers and placeholder characters, used to
    run the decoder on sample streams. *)

Definition sample_protocol : cProtocol_t :=
  {| Payload :=
       {| VarFourByteEncoding := 0x18;
          VarEightByteEncoding := 0x19;
          VarStrLenUByte := 0x11;
          VarStrLenUShort := 0x12;
          VarStrLenInt := 0x13;
          LogtypeStrLenUByte := 0x21;
          LogtypeStrLenUShort := 0x22;
          LogtypeStrLenInt := 0x23;
          TimestampVal := 0x30;
          TimestampDeltaByte := 0x31;
          TimestampDeltaShort := 0x32;
          TimestampDeltaInt := 0x33 |};
     FourByteEncodingMagicNumber := [Byte.xfd; Byte.x2f; Byte.xb5; Byte.x29];
     EightByteEncodingMagicNumber := [Byte.xfd; Byte.x2f; Byte.xb5; Byte.x30];
     MagicNumberLength := 4;
     Eof := 0x0 |}.

Definition sample_placeholders : VariablePlaceholder_t :=
  {| Float := Byte.x11;
     Integer := Byte.x12;
     Dictionary := Byte.x13;
     cVariablePlaceholderEscapeCharacter := Byte.x5c |}.

(** Stand-ins for the formatters: a variable renders as one byte. *)
Definition sample_float_var (_ : encoded_variable_t) (x : Z)
  : option (list byte) := Some [byte.of_Z x].
Definition sample_integer_var (_ : encoded_variable_t) (x : Z)
  : option (list byte) := Some [byte.of_Z x].

(** Case analysis that keeps the equation, for the recursive calls of the
    loops. *)
Definition inspect {A : Type} (a : A) : {b : A | a = b} := exist _ a eq_refl.

(** * Tags, field parsers and the magic number *)

Section FieldParsers.

Variable cProtocol : cProtocol_t.

(** [is_variable_tag<encoded_variable_t>(tag, is_encoded_var)]: [None] is
    the [false] return, [Some b] the [true] return with
    [is_encoded_var = b]. *)
Definition is_variable_tag (v : encoded_variable_t) (tag : Z) : option bool :=
  if (tag =? VarStrLenUByte (Payload cProtocol))
     || (tag =? VarStrLenUShort (Payload cProtocol))
     || (tag =? VarStrLenInt (Payload cProtocol))
  then Some false
  else
    match v with
    | eight_byte_encoded_variable_t =>
        if tag =? VarEightByteEncoding (Payload cProtocol) then Some true
        else None
    | four_byte_encoded_variable_t =>
        if tag =? VarFourByteEncoding (Payload cProtocol) then Some true
        else None
    end.

(** ** Field parsers *)

Definition parse_logtype (encoded_tag : Z) : Decoder (list byte) :=
  logtype_length <-
    (if encoded_tag =? LogtypeStrLenUByte (Payload cProtocol) then
       length <- or_incomplete (decode_int uint8_t) ;;
       ret (to_size_t length)
     else if encoded_tag =? LogtypeStrLenUShort (Payload cProtocol) then
       length <- or_incomplete (decode_int uint16_t) ;;
       ret (to_size_t length)
     else if encoded_tag =? LogtypeStrLenInt (Payload cProtocol) then
       length <- or_incomplete (decode_int int32_t) ;;
       ret (to_size_t length)
     else fail IRErrorCode_Corrupted_IR) ;;
  or_incomplete (try_read_string logtype_length).

Definition parse_dictionary_var (encoded_tag : Z) : Decoder (list byte) :=
  var_length <-
    (if VarStrLenUByte (Payload cProtocol) =? encoded_tag then
       length <- or_incomplete (decode_int uint8_t) ;;
       ret (to_size_t length)
     else if VarStrLenUShort (Payload cProtocol) =? encoded_tag then
       length <- or_incomplete (decode_int uint16_t) ;;
       ret (to_size_t length)
     else if VarStrLenInt (Payload cProtocol) =? encoded_tag then
       length <- or_incomplete (decode_int int32_t) ;;
       ret (to_size_t length)
     else fail IRErrorCode_Corrupted_IR) ;;
  or_incomplete (try_read_string var_length).

Definition parse_timestamp (v : encoded_variable_t) (encoded_tag : Z)
  : Decoder Z :=
  match v with
  | eight_byte_encoded_variable_t =>
      if negb (TimestampVal (Payload cProtocol) =? encoded_tag) then
        fail IRErrorCode_Corrupted_IR
      else or_incomplete (decode_int epoch_time_ms_t)
  | four_byte_encoded_variable_t =>
      if TimestampDeltaByte (Payload cProtocol) =? encoded_tag then
        ts_delta <- or_incomplete (decode_int int8_t) ;;
        ret (convert epoch_time_ms_t ts_delta)
      else if TimestampDeltaShort (Payload cProtocol) =? encoded_tag then
        ts_delta <- or_incomplete (decode_int int16_t) ;;
        ret (convert epoch_time_ms_t ts_delta)
      else if TimestampDeltaInt (Payload cProtocol) =? encoded_tag then
        ts_delta <- or_incomplete (decode_int int32_t) ;;
        ret (convert epoch_time_ms_t ts_delta)
      else fail IRErrorCode_Corrupted_IR
  end.

(** ** Preamble: magic number *)

(** [get_encoding_type(reader, is_four_bytes_encoding)]. *)
Definition get_encoding_type : Decoder bool :=
  fun r =>
    match try_read_exact_length (Z.of_nat (MagicNumberLength cProtocol)) r with
    | (None, r') => (Failure IRErrorCode_Incomplete_IR, r')
    | (Some buffer, r') =>
        if 0 =? memcmp buffer (FourByteEncodingMagicNumber cProtocol)
                  (MagicNumberLength cProtocol)
        then (Success true, r')
        else if 0 =? memcmp buffer (EightByteEncodingMagicNumber cProtocol)
                       (MagicNumberLength cProtocol)
        then (Success false, r')
        else (Failure IRErrorCode_Corrupted_IR, r')
    end.

(** Reads one tag: [reader.try_read_numeric_value(encoded_tag)]. *)
Definition read_tag : Decoder Z :=
  or_incomplete (try_read_numeric_value encoded_tag_t).

(** ** Variable records and framing *)

(** The body of the [while] loop that collects the variables, for a tag
    that [is_variable_tag] accepted. *)
Definition variable_record (v : encoded_variable_t) (encoded_tag : Z)
    (is_encoded_var : bool) (encoded_vars : list Z)
    (dict_vars : list (list byte))
  : Decoder (Z * list Z * list (list byte)) :=
  '(encoded_vars', dict_vars') <-
    (if is_encoded_var then
       encoded_variable <-
         or_incomplete (decode_int (encoded_variable_int v)) ;;
       ret (encoded_vars ++ [encoded_variable], dict_vars)
     else
       var_str <- parse_dictionary_var encoded_tag ;;
       ret (encoded_vars, dict_vars ++ [var_str])) ;;
  encoded_tag' <- read_tag ;;
  ret (encoded_tag', encoded_vars', dict_vars').

(** Reads never give bytes back to the reader, and reading a tag takes a
    byte: the loop over the variable records terminates. *)
Lemma try_read_exact_length_shrinks n r x r' :
  try_read_exact_length n r = (x, r') -> (length r' <= length r)%nat.
Proof.
  unfold try_read_exact_length.
  destruct (Z.of_nat (length r) <? n); intros H; injection H as <- <-.
  - lia.
  - rewrite length_skipn. lia.
Qed.

Lemma decode_int_shrinks t r x r' :
  decode_int t r = (x, r') -> (length r' <= length r)%nat.
Proof.
  unfold decode_int, try_read_numeric_value.
  destruct (try_read_exact_length (Z.of_nat (sizeof t)) r) as [[bs|] r0] eqn:E;
    intros H; injection H as <- <-;
    eapply try_read_exact_length_shrinks; eassumption.
Qed.

Lemma read_tag_shrinks r tag r' :
  read_tag r = (Success tag, r') -> (length r' < length r)%nat.
Proof.
  unfold read_tag, or_incomplete, try_read_numeric_value, try_read_exact_length.
  destruct (Z.ltb_spec (Z.of_nat (length r)) (Z.of_nat (sizeof encoded_tag_t)));
    intros Hread; [discriminate|].
  injection Hread as _ <-.
  change (sizeof encoded_tag_t) with 1%nat in *.
  destruct r; simpl in *; lia.
Qed.

Lemma shrinks_ret {A : Type} (a : A) : shrinks (ret a).
Proof. intros r x r' H. injection H as _ <-. lia. Qed.

Lemma shrinks_fail {A : Type} (e : IRErrorCode) : shrinks (@fail A e).
Proof. intros r x r' H. injection H as _ <-. lia. Qed.

Lemma shrinks_bind {A B : Type} (m : Decoder A) (k : A -> Decoder B) :
  shrinks m -> (forall a, shrinks (k a)) -> shrinks (bind m k).
Proof.
  intros Hm Hk r x r' H. unfold bind in H.
  destruct (m r) as [[a|e] r0] eqn:E.
  - apply Hm in E. apply Hk in H. lia.
  - apply Hm in E. injection H as _ <-. lia.
Qed.

Lemma shrinks_or_incomplete {A : Type} (read : Reader -> option A * Reader) :
  (forall r x r', read r = (x, r') -> (length r' <= length r)%nat) ->
  shrinks (or_incomplete read).
Proof.
  intros Hread r x r' H. unfold or_incomplete in H.
  destruct (read r) as [[a|] r0] eqn:E; apply Hread in E;
    injection H as _ <-; lia.
Qed.

Lemma shrinks_read_length (t : integer_t) :
  shrinks (length <- or_incomplete (decode_int t) ;; ret (to_size_t length)).
Proof.
  apply shrinks_bind.
  - apply shrinks_or_incomplete. intros r x r'. apply decode_int_shrinks.
  - intros a. apply shrinks_ret.
Qed.

Lemma shrinks_read_string (n : Z) : shrinks (or_incomplete (try_read_string n)).
Proof.
  apply shrinks_or_incomplete. intros r x r'.
  apply try_read_exact_length_shrinks.
Qed.

Lemma parse_dictionary_var_shrinks encoded_tag :
  shrinks (parse_dictionary_var encoded_tag).
Proof.
  unfold parse_dictionary_var. apply shrinks_bind.
  - repeat match goal with
           | |- shrinks (if ?b then _ else _) => destruct b
           end;
      first [apply shrinks_read_length | apply shrinks_fail].
  - intros n. apply shrinks_read_string.
Qed.

Lemma variable_record_shrinks v encoded_tag is_encoded_var
    encoded_vars dict_vars r x r' :
  variable_record v encoded_tag is_encoded_var encoded_vars dict_vars r
  = (Success x, r') ->
  (length r' < length r)%nat.
Proof.
  unfold variable_record, bind, ret. intros H.
  destruct is_encoded_var.
  - unfold or_incomplete at 1 in H.
    destruct (decode_int (encoded_variable_int v) r) as [[a|] r0] eqn:E;
      [|discriminate].
    apply decode_int_shrinks in E.
    destruct (read_tag r0) as [[t|e] r1] eqn:E1; [|discriminate].
    apply read_tag_shrinks in E1. injection H as _ <-. lia.
  - destruct (parse_dictionary_var encoded_tag r) as [[a|e] r0] eqn:E;
      [|discriminate].
    apply parse_dictionary_var_shrinks in E.
    destruct (read_tag r0) as [[t|e] r1] eqn:E1; [|discriminate].
    apply read_tag_shrinks in E1. injection H as _ <-. lia.
Qed.

(** The [while (is_variable_tag(encoded_tag, is_encoded_var))] loop: it
    returns the tag that ended it and the variables collected. *)
Equations? handle_variables (v : encoded_variable_t) (encoded_tag : Z)
    (encoded_vars : list Z) (dict_vars : list (list byte)) (r : Reader)
  : Result (Z * list Z * list (list byte)) * Reader
    by wf (length r) lt :=
  handle_variables v encoded_tag encoded_vars dict_vars r
    with inspect (is_variable_tag v encoded_tag) := {
    | exist _ None _ => (Success (encoded_tag, encoded_vars, dict_vars), r)
    | exist _ (Some is_encoded_var) _
        with inspect (variable_record v encoded_tag is_encoded_var
                        encoded_vars dict_vars r) := {
        | exist _ (Failure e, r') _ => (Failure e, r')
        | exist _ (Success (encoded_tag', encoded_vars', dict_vars'), r') Hrec =>
            handle_variables v encoded_tag' encoded_vars' dict_vars' r' } }.
Proof.
  eapply variable_record_shrinks; eassumption.
Qed.

(** The framing of [generic_decode_next_message]: everything before the
    [try] block.  It returns the logtype, the variables and the
    timestamp. *)
Definition parse_frame (v : encoded_variable_t)
  : Decoder (list byte * list Z * list (list byte) * Z) :=
  encoded_tag <- read_tag ;;
  if Eof cProtocol =? encoded_tag then fail IRErrorCode_Eof
  else
    '(encoded_tag, encoded_vars, dict_vars) <-
      handle_variables v encoded_tag [] [] ;;
    logtype <- parse_logtype encoded_tag ;;
    encoded_tag <- read_tag ;;
    timestamp <- parse_timestamp v encoded_tag ;;
    ret (logtype, encoded_vars, dict_vars, timestamp).

End FieldParsers.

(** * Message renderer *)

Section Renderer.

Variable VariablePlaceholder : VariablePlaceholder_t.

(** The formatters of encoded variables are defined with the encoder;
    [None] stands for an [EncodingException] thrown by the formatter. *)
Variable decode_float_var : encoded_variable_t -> Z -> option (list byte).
Variable decode_integer_var : encoded_variable_t -> Z -> option (list byte).

(** The static text pending at a placeholder or escape:
    [message.append(logtype, next_static_text_begin_pos,
                    cur_pos - next_static_text_begin_pos)]. *)
Definition append_static_text (logtype : list byte) (st : loop_state)
  : list byte :=
  message st
  ++ substr logtype (next_static_text_begin_pos st)
       (cur_pos st - next_static_text_begin_pos st).

(** The [switch (c)] of the loop body at [cur_pos < logtype.length()];
    [None] is a thrown [EncodingException]. *)
Definition switch_case (v : encoded_variable_t) (logtype : list byte)
    (encoded_vars : list Z) (dictionary_vars : list (list byte))
    (st : loop_state) : option loop_state :=
  let c := nth (cur_pos st) logtype Byte.x00 in
  if Byte.eqb c (Float VariablePlaceholder) then
    if (length encoded_vars <=? encoded_vars_ix st)%nat then None
    else
      match decode_float_var v (nth (encoded_vars_ix st) encoded_vars 0) with
      | None => None
      | Some text =>
          Some {| cur_pos := cur_pos st;
                  next_static_text_begin_pos := cur_pos st + 1;
                  dictionary_vars_ix := dictionary_vars_ix st;
                  encoded_vars_ix := encoded_vars_ix st + 1;
                  message := append_static_text logtype st ++ text |}
      end
  else if Byte.eqb c (Integer VariablePlaceholder) then
    if (length encoded_vars <=? encoded_vars_ix st)%nat then None
    else
      match decode_integer_var v (nth (encoded_vars_ix st) encoded_vars 0) with
      | None => None
      | Some text =>
          Some {| cur_pos := cur_pos st;
                  next_static_text_begin_pos := cur_pos st + 1;
                  dictionary_vars_ix := dictionary_vars_ix st;
                  encoded_vars_ix := encoded_vars_ix st + 1;
                  message := append_static_text logtype st ++ text |}
      end
  else if Byte.eqb c (Dictionary VariablePlaceholder) then
    if (length dictionary_vars <=? dictionary_vars_ix st)%nat then None
    else
      Some {| cur_pos := cur_pos st;
              next_static_text_begin_pos := cur_pos st + 1;
              dictionary_vars_ix := dictionary_vars_ix st + 1;
              encoded_vars_ix := encoded_vars_ix st;
              message := append_static_text logtype st
                         ++ nth (dictionary_vars_ix st) dictionary_vars [] |}
  else if Byte.eqb c (cVariablePlaceholderEscapeCharacter VariablePlaceholder)
  then
    if (cur_pos st =? length logtype - 1)%nat then None
    else
      Some {| cur_pos := cur_pos st + 1;
              next_static_text_begin_pos := cur_pos st + 1;
              dictionary_vars_ix := dictionary_vars_ix st;
              encoded_vars_ix := encoded_vars_ix st;
              message := append_static_text logtype st |}
  else Some st.

(** The [++cur_pos] of the [for] statement. *)
Definition next_pos (st : loop_state) : loop_state :=
  {| cur_pos := cur_pos st + 1;
     next_static_text_begin_pos := next_static_text_begin_pos st;
     dictionary_vars_ix := dictionary_vars_ix st;
     encoded_vars_ix := encoded_vars_ix st;
     message := message st |}.

Lemma switch_case_cur_pos v logtype encoded_vars dictionary_vars st st' :
  switch_case v logtype encoded_vars dictionary_vars st = Some st' ->
  (cur_pos st <= cur_pos st')%nat.
Proof.
  unfold switch_case. intros H.
  repeat match type of H with
         | (if ?b then _ else _) = _ => destruct b
         | match ?o with Some _ => _ | None => _ end = _ => destruct o
         end;
    try discriminate; injection H as <-; simpl; lia.
Qed.

(** The [for] loop of [decode_message], from the state [st] on. *)
Equations? decode_message_loop (v : encoded_variable_t) (logtype : list byte)
    (encoded_vars : list Z) (dictionary_vars : list (list byte))
    (st : loop_state) : option loop_state
    by wf (length logtype - cur_pos st)%nat lt :=
  decode_message_loop v logtype encoded_vars dictionary_vars st
    with inspect (cur_pos st <? length logtype)%nat := {
    | exist _ false _ => Some st
    | exist _ true Hlt
        with inspect (switch_case v logtype encoded_vars dictionary_vars st) := {
        | exist _ None _ => None
        | exist _ (Some st') Hcase =>
            decode_message_loop v logtype encoded_vars dictionary_vars
              (next_pos st') } }.
Proof.
  apply switch_case_cur_pos in Hcase.
  apply Nat.ltb_lt in Hlt. simpl. lia.
Qed.

Definition initial_state : loop_state :=
  {| cur_pos := 0;
     next_static_text_begin_pos := 0;
     dictionary_vars_ix := 0;
     encoded_vars_ix := 0;
     message := [] |}.

(** [decode_message<encoded_variable_t>(logtype, encoded_vars,
    dictionary_vars)]; [None] is a thrown [EncodingException]. *)
Definition decode_message (v : encoded_variable_t) (logtype : list byte)
    (encoded_vars : list Z) (dictionary_vars : list (list byte))
  : option (list byte) :=
  match decode_message_loop v logtype encoded_vars dictionary_vars
          initial_state with
  | None => None
  | Some st =>
      if (next_static_text_begin_pos st <? length logtype)%nat then
        Some (message st ++ skipn (next_static_text_begin_pos st) logtype)
      else Some (message st)
  end.

End Renderer.

(** * Message assembler *)

Section Assembler.

Variable cProtocol : cProtocol_t.
Variable VariablePlaceholder : VariablePlaceholder_t.
Variable decode_float_var : encoded_variable_t -> Z -> option (list byte).
Variable decode_integer_var : encoded_variable_t -> Z -> option (list byte).

(** [generic_decode_next_message<encoded_variable_t>(reader, message,
    timestamp)]. *)
Definition generic_decode_next_message (v : encoded_variable_t)
  : Decoder (list byte * Z) :=
  '(logtype, encoded_vars, dict_vars, timestamp) <- parse_frame cProtocol v ;;
  match decode_message VariablePlaceholder decode_float_var decode_integer_var
          v logtype encoded_vars dict_vars with
  | None => fail IRErrorCode_Decode_Error
  | Some message => ret (message, timestamp)
  end.

End Assembler.

(** The entry points of the two encodings. *)
Module four_byte_encoding.
Definition decode_next_message (cProtocol : cProtocol_t)
    (VariablePlaceholder : VariablePlaceholder_t)
    (decode_float_var decode_integer_var
       : encoded_variable_t -> Z -> option (list byte))
  : Decoder (list byte * Z) :=
  generic_decode_next_message cProtocol VariablePlaceholder
    decode_float_var decode_integer_var four_byte_encoded_variable_t.
End four_byte_encoding.

Module eight_byte_encoding.
Definition decode_next_message (cProtocol : cProtocol_t)
    (VariablePlaceholder : VariablePlaceholder_t)
    (decode_float_var decode_integer_var
       : encoded_variable_t -> Z -> option (list byte))
  : Decoder (list byte * Z) :=
  generic_decode_next_message cProtocol VariablePlaceholder
    decode_float_var decode_integer_var eight_byte_encoded_variable_t.
End eight_byte_encoding.

(** The decoder of the sample protocol. *)
Definition sample_decode_next_message (v : encoded_variable_t)
  : Decoder (list byte * Z) :=
  generic_decode_next_message sample_protocol sample_placeholders
    sample_float_var sample_integer_var v.

(** * Tags by role *)

(** The tag a byte of the stream carries. *)
Definition tag_of_byte (b : byte) : Z := interpret encoded_tag_t (byte.unsigned b).

Definition is_logtype_tag (cProtocol : cProtocol_t) (tag : Z) : bool :=
  (tag =? LogtypeStrLenUByte (Payload cProtocol))
  || (tag =? LogtypeStrLenUShort (Payload cProtocol))
  || (tag =? LogtypeStrLenInt (Payload cProtocol)).

Definition is_timestamp_tag (cProtocol : cProtocol_t) (v : encoded_variable_t)
    (tag : Z) : bool :=
  match v with
  | eight_byte_encoded_variable_t => tag =? TimestampVal (Payload cProtocol)
  | four_byte_encoded_variable_t =>
      (tag =? TimestampDeltaByte (Payload cProtocol))
      || (tag =? TimestampDeltaShort (Payload cProtocol))
      || (tag =? TimestampDeltaInt (Payload cProtocol))
  end.

(** * Reference renderer

    The renderer once more, by recursion on the logtype itself rather than
    on positions in it: what the message is made of, how many variables it
    takes, and where it fails.  The theorems relate [decode_message] to
    it. *)

(** The cases of the [switch] on a character of the logtype. *)
Inductive char_kind : Type :=
| KFloat | KInteger | KDictionary | KEscape | KStatic.

Definition classify (VariablePlaceholder : VariablePlaceholder_t) (c : byte)
  : char_kind :=
  if Byte.eqb c (Float VariablePlaceholder) then KFloat
  else if Byte.eqb c (Integer VariablePlaceholder) then KInteger
  else if Byte.eqb c (Dictionary VariablePlaceholder) then KDictionary
  else if Byte.eqb c (cVariablePlaceholderEscapeCharacter VariablePlaceholder)
  then KEscape
  else KStatic.

(** The case labels of a [switch] are pairwise different. *)
Definition distinct_case_labels (VariablePlaceholder : VariablePlaceholder_t)
  : Prop :=
  NoDup [Float VariablePlaceholder; Integer VariablePlaceholder;
         Dictionary VariablePlaceholder;
         cVariablePlaceholderEscapeCharacter VariablePlaceholder].

Section ReferenceRenderer.

Variable VariablePlaceholder : VariablePlaceholder_t.
Variable decode_float_var : encoded_variable_t -> Z -> option (list byte).
Variable decode_integer_var : encoded_variable_t -> Z -> option (list byte).

(** The text a logtype renders to, with the number of encoded and of
    dictionary variables it takes from the front of the two lists. *)
Fixpoint render (v : encoded_variable_t) (logtype : list byte)
    (encoded_vars : list Z) (dictionary_vars : list (list byte))
  : option (list byte * nat * nat) :=
  match logtype with
  | [] => Some ([], 0%nat, 0%nat)
  | c :: rest =>
      match classify VariablePlaceholder c with
      | KFloat =>
          match encoded_vars with
          | [] => None
          | x :: encoded_vars' =>
              match decode_float_var v x with
              | None => None
              | Some text =>
                  match render v rest encoded_vars' dictionary_vars with
                  | None => None
                  | Some (out, ne, nd) => Some (text ++ out, S ne, nd)
                  end
              end
          end
      | KInteger =>
          match encoded_vars with
          | [] => None
          | x :: encoded_vars' =>
              match decode_integer_var v x with
              | None => None
              | Some text =>
                  match render v rest encoded_vars' dictionary_vars with
                  | None => None
                  | Some (out, ne, nd) => Some (text ++ out, S ne, nd)
                  end
              end
          end
      | KDictionary =>
          match dictionary_vars with
          | [] => None
          | s :: dictionary_vars' =>
              match render v rest encoded_vars dictionary_vars' with
              | None => None
              | Some (out, ne, nd) => Some (s ++ out, ne, S nd)
              end
          end
      | KEscape =>
          match rest with
          | [] => None
          | x :: rest' =>
              match render v rest' encoded_vars dictionary_vars with
              | None => None
              | Some (out, ne, nd) => Some (x :: out, ne, nd)
              end
          end
      | KStatic =>
          match render v rest encoded_vars dictionary_vars with
          | None => None
          | Some (out, ne, nd) => Some (c :: out, ne, nd)
          end
      end
  end.

(** The Float and Integer placeholders of a logtype that are processed as
    placeholders (not escaped). *)
Fixpoint count_encoded_placeholders (logtype : list byte) : nat :=
  match logtype with
  | [] => 0
  | c :: rest =>
      match classify VariablePlaceholder c with
      | KFloat | KInteger => S (count_encoded_placeholders rest)
      | KEscape =>
          match rest with
          | [] => 0
          | _ :: rest' => count_encoded_placeholders rest'
          end
      | _ => count_encoded_placeholders rest
      end
  end.

(** The Dictionary placeholders that are processed as placeholders. *)
Fixpoint count_dictionary_placeholders (logtype : list byte) : nat :=
  match logtype with
  | [] => 0
  | c :: rest =>
      match classify VariablePlaceholder c with
      | KDictionary => S (count_dictionary_placeholders rest)
      | KEscape =>
          match rest with
          | [] => 0
          | _ :: rest' => count_dictionary_placeholders rest'
          end
      | _ => count_dictionary_placeholders rest
      end
  end.

(** The last character of the logtype is an escape character that is
    processed as one (it is not itself escaped). *)
Fixpoint escape_at_end (logtype : list byte) : bool :=
  match logtype with
  | [] => false
  | c :: rest =>
      match classify VariablePlaceholder c with
      | KEscape =>
          match rest with
          | [] => true
          | _ :: rest' => escape_at_end rest'
          end
      | _ => escape_at_end rest
      end
  end.

(** The states the loop of [decode_message] passes through at the head of
    an iteration. *)
Inductive loop_reaches (v : encoded_variable_t) (logtype : list byte)
    (encoded_vars : list Z) (dictionary_vars : list (list byte))
  : loop_state -> Prop :=
| reaches_initial :
    loop_reaches v logtype encoded_vars dictionary_vars initial_state
| reaches_next st st' :
    loop_reaches v logtype encoded_vars dictionary_vars st ->
    (cur_pos st < length logtype)%nat ->
    switch_case VariablePlaceholder decode_float_var decode_integer_var
      v logtype encoded_vars dictionary_vars st = Some st' ->
    loop_reaches v logtype encoded_vars dictionary_vars (next_pos st').

(** The three [throw] statements of [decode_message], at the state [st]
    of an iteration. *)
Definition too_few_encoded_vars_at (logtype : list byte)
    (encoded_vars : list Z) (st : loop_state) : Prop :=
  (cur_pos st < length logtype)%nat
  /\ (classify VariablePlaceholder (nth (cur_pos st) logtype Byte.x00) = KFloat
      \/ classify VariablePlaceholder (nth (cur_pos st) logtype Byte.x00)
         = KInteger)
  /\ (length encoded_vars <= encoded_vars_ix st)%nat.

Definition too_few_dictionary_vars_at (logtype : list byte)
    (dictionary_vars : list (list byte)) (st : loop_state) : Prop :=
  (cur_pos st < length logtype)%nat
  /\ classify VariablePlaceholder (nth (cur_pos st) logtype Byte.x00)
     = KDictionary
  /\ (length dictionary_vars <= dictionary_vars_ix st)%nat.

Definition unexpected_escape_at (logtype : list byte) (st : loop_state)
  : Prop :=
  (cur_pos st < length logtype)%nat
  /\ classify VariablePlaceholder (nth (cur_pos st) logtype Byte.x00) = KEscape
  /\ cur_pos st = (length logtype - 1)%nat.

(** The formatters do not throw. *)
Definition formatters_total : Prop :=
  forall v x, decode_float_var v x <> None /\ decode_integer_var v x <> None.

(** The units of a fully escaped logtype: an ordinary character, or the
    escape character followed by the character it escapes. *)
Inductive logtype_unit : Type :=
| Ordinary (c : byte)
| Escaped (c : byte).

Definition unit_bytes (u : logtype_unit) : list byte :=
  match u with
  | Ordinary c => [c]
  | Escaped c => [cVariablePlaceholderEscapeCharacter VariablePlaceholder; c]
  end.

Definition unit_text (u : logtype_unit) : byte :=
  match u with
  | Ordinary c => c
  | Escaped c => c
  end.

(** An ordinary character is neither a placeholder nor the escape
    character; an escaped character is one of these. *)
Definition unit_ok (u : logtype_unit) : Prop :=
  match u with
  | Ordinary c => classify VariablePlaceholder c = KStatic
  | Escaped c => classify VariablePlaceholder c <> KStatic
  end.

End ReferenceRenderer.

(** Puts [text] and the counts [a], [b] in front of a rendering. *)
Definition extend (text : list byte) (a b : nat)
    (ref : option (list byte * nat * nat)) : option (list byte * nat * nat) :=
  match ref with
  | None => None
  | Some (out, ne, nd) => Some (text ++ out, (a + ne)%nat, (b + nd)%nat)
  end.

(** What the loop started in [st0] gives, against the rendering of the
    logtype from [cur_pos st0] on. *)
Definition agrees (logtype : list byte) (st0 : loop_state)
    (res : option loop_state) (ref : option (list byte * nat * nat)) : Prop :=
  match res, ref with
  | None, None => True
  | Some st, Some (out, ne, nd) =>
      cur_pos st = length logtype
      /\ (next_static_text_begin_pos st <= length logtype)%nat
      /\ encoded_vars_ix st = (encoded_vars_ix st0 + ne)%nat
      /\ dictionary_vars_ix st = (dictionary_vars_ix st0 + nd)%nat
      /\ message st ++ skipn (next_static_text_begin_pos st) logtype
         = append_static_text logtype st0 ++ out
  | _, _ => False
  end.


(** * Preamble: metadata *)

(** The constants of [cProtocol::Metadata]; protocol_constants.hpp is not
    among the sources, so they are parameters like the other tags. *)
Record Metadata_t : Type := {
  LengthUByte : Z;
  LengthUShort : Z
}.

Definition sample_metadata : Metadata_t :=
  {| LengthUByte := 0x11; LengthUShort := 0x12 |}.

(** Modelled from the spec: the seekable side of [ReaderInterface], which is
    declared outside the sources.  A seekable reader is a buffer and an
    absolute position in it; the bytes not read yet are those from the
    position on. *)
Record SeekableReader : Type := {
  buffer : list byte;
  position : nat
}.

Definition unread (sr : SeekableReader) : Reader :=
  skipn (position sr) (buffer sr).

(** Modelled from the spec: [get_pos()] of [ReaderInterface], the absolute
    offset. *)
Definition get_pos (sr : SeekableReader) : Z := Z.of_nat (position sr).

(** Modelled from the spec: [try_seek_from_begin(offset)] of
    [ReaderInterface]; it fails when the offset cannot be reached, that is
    when it lies past the end of the buffer. *)
Definition try_seek_from_begin (offset : Z) (sr : SeekableReader)
  : option SeekableReader :=
  if offset <=? Z.of_nat (length (buffer sr)) then
    Some {| buffer := buffer sr; position := Z.to_nat offset |}
  else None.

(** A decoding function run on a seekable reader: the position advances by
    the bytes the function consumes. *)
Definition run_seekable {A : Type} (m : Decoder A) (sr : SeekableReader)
  : Result A * SeekableReader :=
  match m (unread sr) with
  | (x, r') =>
      (x, {| buffer := buffer sr;
             position := length (buffer sr) - length r' |})
  end.

Section Preamble.

Variable Metadata : Metadata_t.

(** [read_metadata_info(reader, metadata_type, metadata_size)];
    [metadata_size] is a [uint16_t]. *)
Definition read_metadata_info : Decoder (Z * Z) :=
  metadata_type <- or_incomplete (try_read_numeric_value encoded_tag_t) ;;
  encoded_tag <- or_incomplete (try_read_numeric_value encoded_tag_t) ;;
  if encoded_tag =? LengthUByte Metadata then
    ubyte_res <- or_incomplete (decode_int uint8_t) ;;
    ret (metadata_type, convert uint16_t ubyte_res)
  else if encoded_tag =? LengthUShort Metadata then
    ushort_res <- or_incomplete (decode_int uint16_t) ;;
    ret (metadata_type, convert uint16_t ushort_res)
  else fail IRErrorCode_Corrupted_IR.

(** [decode_preamble(reader, metadata_type, metadata)], the overload that
    copies the metadata into a vector.  The vector holds the bytes read
    (the source reads into it through a [char] pointer). *)
Definition decode_preamble_copy : Decoder (Z * list byte) :=
  '(metadata_type, metadata_size) <- read_metadata_info ;;
  metadata <- or_incomplete (try_read_exact_length metadata_size) ;;
  ret (metadata_type, metadata).

(** [decode_preamble(reader, metadata_type, metadata_pos, metadata_size)],
    the overload that returns the position of the metadata and seeks past
    it.  [metadata_pos + metadata_size] is a [size_t] sum. *)
Definition decode_preamble_seek (sr : SeekableReader)
  : Result (Z * Z * Z) * SeekableReader :=
  match run_seekable read_metadata_info sr with
  | (Failure e, sr') => (Failure e, sr')
  | (Success (metadata_type, metadata_size), sr') =>
      let metadata_pos := get_pos sr' in
      match try_seek_from_begin (to_size_t (metadata_pos + metadata_size)) sr'
      with
      | None => (Failure IRErrorCode_Incomplete_IR, sr')
      | Some sr'' =>
          (Success (metadata_type, metadata_pos, metadata_size), sr'')
      end
  end.

End Preamble.

(** * The wire format

    What a writer of the stream puts on the wire, record by record; the
    round-trip theorems decode it back. *)

(** The [W] bytes of [x], most significant first. *)
Definition big_endian_bytes (W : nat) (x : Z) : list byte :=
  rev (le_split W x).

(** [x] is a value of the type [t]. *)
Definition in_range (t : integer_t) (x : Z) : Prop :=
  if is_signed t then - 2 ^ (bits t - 1) <= x < 2 ^ (bits t - 1)
  else 0 <= x < 2 ^ bits t.

(** The byte that carries a tag. *)
Definition tag_byte (tag : Z) : byte := byte.of_Z tag.

(** The three forms of a length prefix. *)
Inductive length_form : Type :=
| LenUByte | LenUShort | LenInt.

Definition length_type (f : length_form) : integer_t :=
  match f with
  | LenUByte => uint8_t
  | LenUShort => uint16_t
  | LenInt => int32_t
  end.

Definition logtype_length_tag (cProtocol : cProtocol_t) (f : length_form) : Z :=
  match f with
  | LenUByte => LogtypeStrLenUByte (Payload cProtocol)
  | LenUShort => LogtypeStrLenUShort (Payload cProtocol)
  | LenInt => LogtypeStrLenInt (Payload cProtocol)
  end.

Definition dictionary_length_tag (cProtocol : cProtocol_t) (f : length_form)
  : Z :=
  match f with
  | LenUByte => VarStrLenUByte (Payload cProtocol)
  | LenUShort => VarStrLenUShort (Payload cProtocol)
  | LenInt => VarStrLenInt (Payload cProtocol)
  end.

(** A string behind its length in the form [f]. *)
Definition length_prefixed (f : length_form) (s : list byte) : list byte :=
  big_endian_bytes (sizeof (length_type f)) (Z.of_nat (length s)) ++ s.

(** The length of [s] is a value of the length type of the form [f]. *)
Definition fits (f : length_form) (s : list byte) : Prop :=
  in_range (length_type f) (Z.of_nat (length s)).

(** A variable of a message, as it goes on the wire. *)
Inductive variable : Type :=
| EncodedVariable (x : Z)
| DictionaryVariable (f : length_form) (s : list byte).

Definition encoded_variable_tag (cProtocol : cProtocol_t)
    (v : encoded_variable_t) : Z :=
  match v with
  | eight_byte_encoded_variable_t => VarEightByteEncoding (Payload cProtocol)
  | four_byte_encoded_variable_t => VarFourByteEncoding (Payload cProtocol)
  end.

Definition variable_bytes (cProtocol : cProtocol_t) (v : encoded_variable_t)
    (x : variable) : list byte :=
  match x with
  | EncodedVariable n =>
      tag_byte (encoded_variable_tag cProtocol v)
      :: big_endian_bytes (sizeof (encoded_variable_int v)) n
  | DictionaryVariable f s =>
      tag_byte (dictionary_length_tag cProtocol f) :: length_prefixed f s
  end.

Definition variable_ok (v : encoded_variable_t) (x : variable) : Prop :=
  match x with
  | EncodedVariable n => in_range (encoded_variable_int v) n
  | DictionaryVariable f s => fits f s
  end.

(** The encoded variables of a message, in wire order. *)
Fixpoint encoded_values (xs : list variable) : list Z :=
  match xs with
  | [] => []
  | EncodedVariable n :: xs' => n :: encoded_values xs'
  | DictionaryVariable _ _ :: xs' => encoded_values xs'
  end.

(** The dictionary variables of a message, in wire order. *)
Fixpoint dictionary_values (xs : list variable) : list (list byte) :=
  match xs with
  | [] => []
  | EncodedVariable _ :: xs' => dictionary_values xs'
  | DictionaryVariable _ s :: xs' => s :: dictionary_values xs'
  end.

(** The integer type of a timestamp record and its tag: the absolute
    timestamp of the eight-byte variant, a delta of 1, 2 or 4 bytes in the
    four-byte variant. *)
Definition timestamp_type_ok (v : encoded_variable_t) (t : integer_t) : Prop :=
  match v with
  | eight_byte_encoded_variable_t => t = int64_t
  | four_byte_encoded_variable_t => t = int8_t \/ t = int16_t \/ t = int32_t
  end.

Definition timestamp_tag (cProtocol : cProtocol_t) (t : integer_t) : Z :=
  match t with
  | int8_t => TimestampDeltaByte (Payload cProtocol)
  | int16_t => TimestampDeltaShort (Payload cProtocol)
  | int32_t => TimestampDeltaInt (Payload cProtocol)
  | _ => TimestampVal (Payload cProtocol)
  end.

(** A message frame: the variable records, the logtype record and the
    timestamp record. *)
Definition frame_bytes (cProtocol : cProtocol_t) (v : encoded_variable_t)
    (xs : list variable) (f : length_form) (logtype : list byte)
    (t : integer_t) (timestamp : Z) : list byte :=
  concat (map (variable_bytes cProtocol v) xs)
  ++ tag_byte (logtype_length_tag cProtocol f) :: length_prefixed f logtype
  ++ tag_byte (timestamp_tag cProtocol t)
     :: big_endian_bytes (sizeof t) timestamp.

(** The tags of the protocol. *)
Definition protocol_tags (cProtocol : cProtocol_t) : list Z :=
  [Eof cProtocol;
   VarFourByteEncoding (Payload cProtocol);
   VarEightByteEncoding (Payload cProtocol);
   VarStrLenUByte (Payload cProtocol);
   VarStrLenUShort (Payload cProtocol);
   VarStrLenInt (Payload cProtocol);
   LogtypeStrLenUByte (Payload cProtocol);
   LogtypeStrLenUShort (Payload cProtocol);
   LogtypeStrLenInt (Payload cProtocol);
   TimestampVal (Payload cProtocol);
   TimestampDeltaByte (Payload cProtocol);
   TimestampDeltaShort (Payload cProtocol);
   TimestampDeltaInt (Payload cProtocol)].

(** The tags are pairwise different [int8_t] values. *)
Definition tags_ok (cProtocol : cProtocol_t) : Prop :=
  NoDup (protocol_tags cProtocol)
  /\ Forall (in_range encoded_tag_t) (protocol_tags cProtocol).

(** The two forms of the metadata length. *)
Inductive metadata_form : Type :=
| MetadataUByte | MetadataUShort.

Definition metadata_length_type (f : metadata_form) : integer_t :=
  match f with
  | MetadataUByte => uint8_t
  | MetadataUShort => uint16_t
  end.

Definition metadata_length_tag (Metadata : Metadata_t) (f : metadata_form) : Z :=
  match f with
  | MetadataUByte => LengthUByte Metadata
  | MetadataUShort => LengthUShort Metadata
  end.

(** The metadata of a preamble on the wire: the metadata type, the length
    tag, the length, the metadata. *)
Definition preamble_bytes (Metadata : Metadata_t) (metadata_type : byte)
    (f : metadata_form) (metadata : list byte) : list byte :=
  metadata_type
  :: tag_byte (metadata_length_tag Metadata f)
  :: big_endian_bytes (sizeof (metadata_length_type f))
       (Z.of_nat (length metadata))
  ++ metadata.

(** The outcome of the seek form of [decode_preamble] against that of the
    copy form on the same bytes: the same error code, or the same metadata
    type, with the metadata copied being the bytes of the buffer at the
    position and of the size the seek form returns, and the reader left at
    the same bytes. *)
Definition preambles_agree (sr : SeekableReader)
    (seek : Result (Z * Z * Z) * SeekableReader)
    (copy : Result (Z * list byte) * Reader) : Prop :=
  match seek, copy with
  | (Success (metadata_type, metadata_pos, metadata_size), sr'),
    (Success (metadata_type', metadata), r') =>
      metadata_type = metadata_type'
      /\ metadata_size = Z.of_nat (length metadata)
      /\ metadata
         = substr (buffer sr) (Z.to_nat metadata_pos) (Z.to_nat metadata_size)
      /\ unread sr' = r'
  | (Failure e, _), (Failure e', _) => e = e'
  | _, _ => False
  end.


(** The least number of bytes of a timestamp payload, and of a frame: the
    tag and length of the logtype record, the tag and payload of the
    timestamp record. *)
Definition timestamp_min_bytes (v : encoded_variable_t) : nat :=
  match v with
  | eight_byte_encoded_variable_t => 8
  | four_byte_encoded_variable_t => 1
  end.

Definition frame_min_bytes (v : encoded_variable_t) : nat :=
  3 + timestamp_min_bytes v.

(** * Decoders as sequences of exact reads *)

(** At the reader [r], a success of [m] consumes a prefix of at least [n]
    bytes, depends on that prefix alone, and turns into Incomplete when the
    prefix is cut short. *)
Definition exact_at {A : Type} (n : nat) (m : Decoder A) (r : Reader) : Prop :=
  forall a r',
    m r = (Success a, r') ->
    exists consumed,
      r = consumed ++ r'
      /\ (n <= length consumed)%nat
      /\ (forall rest, m (consumed ++ rest) = (Success a, rest))
      /\ (forall p q,
             consumed = p ++ q -> q <> [] ->
             fst (m p) = Failure IRErrorCode_Incomplete_IR).

(** The decoder is a sequence of exact reads wherever it runs. *)
Definition exact {A : Type} (n : nat) (m : Decoder A) : Prop :=
  forall r, exact_at n m r.

(** The decoder fails with the codes of [allowed] only. *)
Definition only_fails {A : Type} (allowed : list IRErrorCode) (m : Decoder A)
  : Prop :=
  forall r e r', m r = (Failure e, r') -> In e allowed.


(** Every value the decoder returns satisfies [P]. *)
Definition returns {A : Type} (P : A -> Prop) (m : Decoder A) : Prop :=
  forall r a r', m r = (Success a, r') -> P a.


(** * Messages in sequence *)

(** [text] in front of a message. *)
Definition prepend (text : list byte) (rendered : option (list byte))
  : option (list byte) :=
  match rendered with
  | Some message => Some (text ++ message)
  | None => None
  end.

(** * Throwing formatters *)

(** The fourth way out of the loop of [decode_message]: at a Float or
    Integer placeholder with an encoded variable in range, the formatter
    called on that variable throws. *)
Definition formatter_throws_at (VariablePlaceholder : VariablePlaceholder_t)
    (decode_float_var decode_integer_var
       : encoded_variable_t -> Z -> option (list byte))
    (v : encoded_variable_t) (logtype : list byte) (encoded_vars : list Z)
    (st : loop_state) : Prop :=
  (cur_pos st < length logtype)%nat
  /\ (encoded_vars_ix st < length encoded_vars)%nat
  /\ ((classify VariablePlaceholder (nth (cur_pos st) logtype Byte.x00)
       = KFloat
       /\ decode_float_var v (nth (encoded_vars_ix st) encoded_vars 0) = None)
      \/ (classify VariablePlaceholder (nth (cur_pos st) logtype Byte.x00)
          = KInteger
          /\ decode_integer_var v (nth (encoded_vars_ix st) encoded_vars 0)
             = None)).

(** A stand-in for a float formatter that throws on the value 0. *)
Definition sample_partial_float_var (_ : encoded_variable_t) (x : Z)
  : option (list byte) :=
  if x =? 0 then None else Some [byte.of_Z x].

(** * Properties *)

(** ** Properties of the integer codec *)

Lemma try_read_exact_length_app (bs rest : list byte) :
  try_read_exact_length (Z.of_nat (length bs)) (bs ++ rest) = (Some bs, rest).
Proof.
  unfold try_read_exact_length.
  rewrite length_app, Nat2Z.id.
  destruct (Z.ltb_spec (Z.of_nat (length bs + length rest)) (Z.of_nat (length bs)));
    [lia|].
  rewrite firstn_app, skipn_app, Nat.sub_diag, firstn_all, skipn_all.
  simpl. rewrite app_nil_r. reflexivity.
Qed.

Lemma try_read_exact_length_fails (n : Z) (r : Reader) :
  fst (try_read_exact_length n r) = None <-> Z.of_nat (length r) < n.
Proof.
  unfold try_read_exact_length.
  destruct (Z.ltb_spec (Z.of_nat (length r)) n); simpl; split;
    intros; try lia; try congruence.
Qed.

Lemma try_read_exact_length_fails_reader (n : Z) (r : Reader) :
  Z.of_nat (length r) < n -> try_read_exact_length n r = (None, r).
Proof.
  intros H. unfold try_read_exact_length.
  destruct (Z.ltb_spec (Z.of_nat (length r)) n); [reflexivity | lia].
Qed.

Lemma byte_at_le_combine (bs : list byte) (i : nat) :
  (i < length bs)%nat ->
  byte_at (le_combine bs) (Z.of_nat i) = byte.unsigned (nth i bs Byte.x00).
Proof.
  intros Hi.
  pose proof (nth_error_le_split i (length bs) (le_combine bs) Hi) as H.
  rewrite split_le_combine in H.
  rewrite (nth_error_nth' bs Byte.x00 Hi) in H.
  injection H as H. rewrite H, byte.unsigned_of_Z.
  unfold byte_at, byte.wrap.
  change 255 with (Z.ones 8). rewrite Z.land_ones by lia. reflexivity.
Qed.

Lemma byte_at_le_combine_Z (bs : list byte) (i : Z) :
  0 <= i < Z.of_nat (length bs) ->
  byte_at (le_combine bs) i = byte.unsigned (nth (Z.to_nat i) bs Byte.x00).
Proof.
  intros Hi. rewrite <- (byte_at_le_combine bs (Z.to_nat i)) by lia.
  rewrite Z2Nat.id by lia. reflexivity.
Qed.

Lemma lor_shiftl_add (hi lo k : Z) :
  0 <= k -> 0 <= lo < 2 ^ k ->
  Z.lor (Z.shiftl hi k) lo = hi * 2 ^ k + lo.
Proof.
  intros Hk Hlo.
  rewrite Z.or_to_plus; [rewrite Z.shiftl_mul_pow2 by lia; reflexivity|].
  apply Z.bits_inj'. intros n Hn.
  rewrite Z.land_spec, Z.bits_0.
  destruct (Z.ltb_spec n k).
  - rewrite Z.shiftl_spec_low by lia. reflexivity.
  - destruct (Z.eq_dec lo 0) as [->|Hne].
    + rewrite Z.bits_0. apply andb_false_r.
    + rewrite (Z.bits_above_log2 lo n); [apply andb_false_r | lia |].
      apply Z.log2_lt_pow2; [lia|].
      eapply Z.lt_le_trans; [apply Hlo|].
      apply Z.pow_le_mono_r; lia.
Qed.

Lemma le_combine_cons (b : byte) (bs : list byte) :
  le_combine (b :: bs) = byte.unsigned b + 256 * le_combine bs.
Proof.
  change (le_combine (b :: bs))
    with (Z.lor (byte.unsigned b) (Z.shiftl (le_combine bs) 8)).
  rewrite Z.lor_comm, lor_shiftl_add; [lia | lia |].
  apply byte.unsigned_range.
Qed.

(** Unfolds the widths of the integer types down to numerals. *)
Ltac width_consts :=
  change (bits int8_t) with 8; change (bits uint8_t) with 8;
  change (bits int16_t) with 16; change (bits uint16_t) with 16;
  change (bits int32_t) with 32; change (bits uint32_t) with 32;
  change (bits int64_t) with 64; change (bits uint64_t) with 64;
  change (2 ^ 8) with 256; change (2 ^ (8 - 1)) with 128;
  change (2 ^ 16) with 65536; change (2 ^ (16 - 1)) with 32768;
  change (2 ^ 32) with 4294967296;
  change (2 ^ (32 - 1)) with 2147483648;
  change (2 ^ 64) with 18446744073709551616;
  change (2 ^ (64 - 1)) with 9223372036854775808.

Lemma convert_interpret (t : integer_t) (x : Z) :
  0 <= x < 2 ^ bits t -> convert t x = interpret t x.
Proof.
  unfold convert, interpret, to_signed, to_unsigned.
  destruct t; cbn [is_signed]; width_consts; intros H;
    repeat match goal with
      | |- context [Z.ltb ?a ?b] => destruct (Z.ltb_spec a b)
      end;
    Z.div_mod_to_equations; lia.
Qed.

Lemma to_unsigned_convert (t : integer_t) (x : Z) :
  0 <= x < 2 ^ bits t -> to_unsigned (bits t) (convert t x) = x.
Proof.
  unfold convert, to_signed, to_unsigned.
  destruct t; cbn [is_signed]; width_consts; intros H;
    Z.div_mod_to_equations; lia.
Qed.

Lemma le_combine_range (bs : list byte) :
  0 <= le_combine bs < 2 ^ (8 * Z.of_nat (length bs)).
Proof. apply le_combine_bound. Qed.

Ltac byte_ranges :=
  repeat match goal with
    | |- context [byte.unsigned ?b] =>
        lazymatch goal with
        | _ : 0 <= byte.unsigned b < 2 ^ 8 |- _ => fail
        | _ => pose proof (byte.unsigned_range b)
        end
    end.

Lemma bswap_16_le (a b : byte) :
  bswap_16 (le_combine [a; b]) = big_endian_value [a; b].
Proof.
  unfold bswap_16.
  rewrite !byte_at_le_combine_Z by (simpl; lia).
  simpl nth. byte_ranges.
  rewrite (lor_shiftl_add _ _ 8) by lia.
  unfold big_endian_value; cbn [be_sum_from length Nat.sub Z.of_nat].
  change (Z.pos (Pos.of_succ_nat 0)) with 1. lia.
Qed.

Lemma bswap_32_le (a b c d : byte) :
  bswap_32 (le_combine [a; b; c; d]) = big_endian_value [a; b; c; d].
Proof.
  unfold bswap_32.
  rewrite !byte_at_le_combine_Z by (simpl; lia).
  simpl nth. byte_ranges.
  rewrite (lor_shiftl_add _ (byte.unsigned d) 8) by lia.
  rewrite (lor_shiftl_add _ _ 16) by lia.
  rewrite (lor_shiftl_add _ _ 24) by lia.
  unfold big_endian_value; cbn [be_sum_from length Nat.sub].
  change (Z.of_nat 3) with 3. change (Z.of_nat 2) with 2.
  change (Z.of_nat 1) with 1. change (Z.of_nat 0) with 0. lia.
Qed.

Lemma bswap_64_le (a b c d e f g h : byte) :
  bswap_64 (le_combine [a; b; c; d; e; f; g; h])
  = big_endian_value [a; b; c; d; e; f; g; h].
Proof.
  unfold bswap_64.
  rewrite !byte_at_le_combine_Z by (simpl; lia).
  simpl nth. byte_ranges.
  rewrite (lor_shiftl_add _ (byte.unsigned h) 8) by lia.
  rewrite (lor_shiftl_add _ _ 16) by lia.
  rewrite (lor_shiftl_add _ _ 24) by lia.
  rewrite (lor_shiftl_add _ _ 32) by lia.
  rewrite (lor_shiftl_add _ _ 40) by lia.
  rewrite (lor_shiftl_add _ _ 48) by lia.
  rewrite (lor_shiftl_add _ _ 56) by lia.
  unfold big_endian_value; cbn [be_sum_from length Nat.sub].
  change (Z.of_nat 7) with 7. change (Z.of_nat 6) with 6.
  change (Z.of_nat 5) with 5. change (Z.of_nat 4) with 4.
  change (Z.of_nat 3) with 3. change (Z.of_nat 2) with 2.
  change (Z.of_nat 1) with 1. change (Z.of_nat 0) with 0. lia.
Qed.

Lemma big_endian_value_range (bs : list byte) :
  0 <= big_endian_value bs < 2 ^ (8 * Z.of_nat (length bs)).
Proof.
  unfold big_endian_value.
  assert (G : forall l W i, (i + length l = W)%nat ->
            0 <= be_sum_from W i l < 2 ^ (8 * Z.of_nat (length l))).
  { induction l as [|b l IH]; intros W i HW; cbn [be_sum_from length].
    - simpl. lia.
    - cbn [length] in HW.
      specialize (IH W (S i) ltac:(lia)).
      pose proof (byte.unsigned_range b).
      replace (W - 1 - i)%nat with (length l) by lia.
      replace (8 * Z.of_nat (S (length l))) with (8 * Z.of_nat (length l) + 8)
        by lia.
      rewrite Z.pow_add_r by lia.
      replace (256 ^ Z.of_nat (length l)) with (2 ^ (8 * Z.of_nat (length l))).
      + change (2 ^ 8) with 256 in *. nia.
      + rewrite Z.pow_mul_r by lia. reflexivity. }
  apply G. lia.
Qed.

Lemma decode_int_reads (t : integer_t) (bs rest : list byte) :
  length bs = sizeof t ->
  decode_int t (bs ++ rest) = (Some (interpret t (big_endian_value bs)), rest).
Proof.
  intros Hlen. unfold decode_int, try_read_numeric_value.
  rewrite <- Hlen, try_read_exact_length_app, Hlen.
  pose proof (le_combine_range bs) as Hle.
  pose proof (big_endian_value_range bs) as Hbe.
  rewrite Hlen in Hle, Hbe. fold (bits t) in Hle, Hbe.
  f_equal. f_equal.
  destruct t; cbn [sizeof] in *;
    repeat (destruct bs as [|? bs]; try discriminate Hlen); clear Hlen.
  1,2: rewrite convert_interpret by assumption; f_equal;
       rewrite le_combine_cons; unfold big_endian_value; simpl; lia.
  all: match goal with
       | |- convert ?t (?f (to_unsigned ?n (convert ?t ?x))) = _ =>
           change n with (bits t);
           rewrite (to_unsigned_convert t x) by assumption
       end.
  1,2: rewrite bswap_16_le; apply convert_interpret; assumption.
  1,2: rewrite bswap_32_le; apply convert_interpret; assumption.
  1,2: rewrite bswap_64_le; apply convert_interpret; assumption.
Qed.

Lemma decode_int_fails (t : integer_t) (r : Reader) :
  fst (decode_int t r) = None <-> (length r < sizeof t)%nat.
Proof.
  unfold decode_int, try_read_numeric_value.
  pose proof (try_read_exact_length_fails (Z.of_nat (sizeof t)) r) as [H1 H2].
  destruct (try_read_exact_length (Z.of_nat (sizeof t)) r) as [[bs|] r'];
    simpl in *; split; intros H.
  - discriminate.
  - assert (Some bs = None) by (apply H2; lia). discriminate.
  - specialize (H1 eq_refl). lia.
  - reflexivity.
Qed.

Lemma decode_int_fails_reader (t : integer_t) (r : Reader) :
  (length r < sizeof t)%nat -> decode_int t r = (None, r).
Proof.
  intros H. unfold decode_int, try_read_numeric_value.
  rewrite try_read_exact_length_fails_reader by lia. reflexivity.
Qed.

(** C5: for each of the integer types (widths 1, 2, 4 and 8), [decode_int]
    on a reader that supplies the bytes [bs] of that width returns the
    big-endian value, the sum of [byte[i] * 256^(W-1-i)], read as two's
    complement for the signed types, and leaves the reader after [bs]; it
    returns [false] exactly when the reader holds fewer than [W] bytes. *)
Theorem decode_int_big_endian (t : integer_t) :
  In (sizeof t) [1%nat; 2%nat; 4%nat; 8%nat]
  /\ (forall bs rest,
         length bs = sizeof t ->
         decode_int t (bs ++ rest)
         = (Some (interpret t (big_endian_value bs)), rest))
  /\ (forall r, fst (decode_int t r) = None <-> (length r < sizeof t)%nat).
Proof.
  split; [destruct t; simpl; tauto|].
  split; [apply decode_int_reads | apply decode_int_fails].
Qed.

(** ** Properties of the tags, the field parsers and the magic number *)

Lemma big_endian_value_single (b : byte) :
  big_endian_value [b] = byte.unsigned b.
Proof. unfold big_endian_value. simpl. lia. Qed.

Lemma read_int (t : integer_t) (bs rest : list byte) :
  length bs = sizeof t ->
  or_incomplete (decode_int t) (bs ++ rest)
  = (Success (interpret t (big_endian_value bs)), rest).
Proof.
  intros H. unfold or_incomplete. rewrite decode_int_reads by assumption.
  reflexivity.
Qed.

Lemma read_int_incomplete (t : integer_t) (r : Reader) :
  (length r < sizeof t)%nat ->
  or_incomplete (decode_int t) r = (Failure IRErrorCode_Incomplete_IR, r).
Proof.
  intros H. unfold or_incomplete. rewrite decode_int_fails_reader by assumption.
  reflexivity.
Qed.

Lemma read_tag_cons (b : byte) (rest : list byte) :
  read_tag (b :: rest) = (Success (tag_of_byte b), rest).
Proof.
  unfold read_tag, or_incomplete, try_read_numeric_value.
  change (b :: rest) with ([b] ++ rest).
  change (sizeof encoded_tag_t) with (length [b]).
  rewrite try_read_exact_length_app.
  rewrite convert_interpret by apply (le_combine_range [b]).
  unfold tag_of_byte. rewrite le_combine_cons.
  change (le_combine []) with 0. do 3 f_equal. lia.
Qed.

Lemma read_tag_nil : read_tag [] = (Failure IRErrorCode_Incomplete_IR, []).
Proof. reflexivity. Qed.

Lemma interpret_range (t : integer_t) (x : Z) :
  0 <= x < 2 ^ bits t ->
  (if is_signed t then - 2 ^ (bits t - 1) <= interpret t x < 2 ^ (bits t - 1)
   else 0 <= interpret t x < 2 ^ bits t).
Proof.
  unfold interpret. destruct t; cbn [is_signed]; width_consts; intros H;
    repeat match goal with
      | |- context [Z.ltb ?a ?b] => destruct (Z.ltb_spec a b)
      end; lia.
Qed.

Lemma interpret_value_range (t : integer_t) (bs : list byte) :
  length bs = sizeof t ->
  (if is_signed t
   then - 2 ^ (bits t - 1) <= interpret t (big_endian_value bs) < 2 ^ (bits t - 1)
   else 0 <= interpret t (big_endian_value bs) < 2 ^ bits t).
Proof.
  intros H. apply interpret_range.
  pose proof (big_endian_value_range bs) as Hr. rewrite H in Hr. exact Hr.
Qed.

Lemma memcmp_eq (n : nat) : forall a b : list byte,
  length a = n -> length b = n -> (memcmp a b n = 0 <-> a = b).
Proof.
  induction n as [|n IH]; intros [|x a] [|y b] Ha Hb; try discriminate;
    cbn [memcmp].
  - tauto.
  - injection Ha as Ha. injection Hb as Hb.
    destruct (Byte.eqb x y) eqn:E.
    + apply Byte.byte_dec_bl in E. subst y.
      rewrite (IH a b Ha Hb). split; intros H; [subst; reflexivity|].
      injection H as H. exact H.
    + apply Byte.eqb_false in E. split; intros H.
      * exfalso. apply E. apply byte.unsigned_inj. lia.
      * injection H as H _. contradiction.
Qed.

Section FieldParserProperties.

Variable cProtocol : cProtocol_t.

Lemma get_encoding_type_reads (prefix rest : list byte) :
  length prefix = MagicNumberLength cProtocol ->
  get_encoding_type cProtocol (prefix ++ rest)
  = if 0 =? memcmp prefix (FourByteEncodingMagicNumber cProtocol)
              (MagicNumberLength cProtocol)
    then (Success true, rest)
    else if 0 =? memcmp prefix (EightByteEncodingMagicNumber cProtocol)
                   (MagicNumberLength cProtocol)
    then (Success false, rest)
    else (Failure IRErrorCode_Corrupted_IR, rest).
Proof.
  intros H. unfold get_encoding_type.
  rewrite <- H at 1. rewrite try_read_exact_length_app. reflexivity.
Qed.

(** C3: with magic numbers of the magic-number length [N] that differ, for
    every prefix of length [N] [get_encoding_type] returns Success with
    [is_four_bytes_encoding = true] iff the prefix is the four-byte magic
    number, Success with [false] iff it is the eight-byte one, and Corrupted
    for every other prefix; it returns Incomplete iff the reader holds
    fewer than [N] bytes. *)
Theorem get_encoding_type_magic_number :
  length (FourByteEncodingMagicNumber cProtocol) = MagicNumberLength cProtocol ->
  length (EightByteEncodingMagicNumber cProtocol) = MagicNumberLength cProtocol ->
  FourByteEncodingMagicNumber cProtocol <> EightByteEncodingMagicNumber cProtocol ->
  (forall prefix rest,
      length prefix = MagicNumberLength cProtocol ->
      (get_encoding_type cProtocol (prefix ++ rest) = (Success true, rest)
       <-> prefix = FourByteEncodingMagicNumber cProtocol)
      /\ (get_encoding_type cProtocol (prefix ++ rest) = (Success false, rest)
          <-> prefix = EightByteEncodingMagicNumber cProtocol)
      /\ (get_encoding_type cProtocol (prefix ++ rest)
          = (Failure IRErrorCode_Corrupted_IR, rest)
          <-> prefix <> FourByteEncodingMagicNumber cProtocol
              /\ prefix <> EightByteEncodingMagicNumber cProtocol))
  /\ (forall r,
         fst (get_encoding_type cProtocol r) = Failure IRErrorCode_Incomplete_IR
         <-> (length r < MagicNumberLength cProtocol)%nat).
Proof.
  intros H4 H8 Hne. split.
  - intros prefix rest Hp.
    rewrite get_encoding_type_reads by assumption.
    pose proof (memcmp_eq _ prefix _ Hp H4) as E4.
    pose proof (memcmp_eq _ prefix _ Hp H8) as E8.
    destruct (Z.eqb_spec 0
                (memcmp prefix (FourByteEncodingMagicNumber cProtocol)
                   (MagicNumberLength cProtocol))) as [e4|n4].
    + assert (prefix = FourByteEncodingMagicNumber cProtocol) as ->
          by (apply E4; lia).
      repeat split; intros; try congruence; try tauto.
    + assert (prefix <> FourByteEncodingMagicNumber cProtocol)
        by (intros G; apply E4 in G; lia).
      destruct (Z.eqb_spec 0
                  (memcmp prefix (EightByteEncodingMagicNumber cProtocol)
                     (MagicNumberLength cProtocol))) as [e8|n8].
      * assert (prefix = EightByteEncodingMagicNumber cProtocol) as ->
            by (apply E8; lia).
        repeat split; intros; try congruence; try tauto.
      * assert (prefix <> EightByteEncodingMagicNumber cProtocol)
          by (intros G; apply E8 in G; lia).
        repeat split; intros; try congruence; try tauto.
  - intros r. unfold get_encoding_type.
    pose proof (try_read_exact_length_fails
                  (Z.of_nat (MagicNumberLength cProtocol)) r) as [F1 F2].
    destruct (try_read_exact_length (Z.of_nat (MagicNumberLength cProtocol)) r)
      as [[buffer|] r'].
    + split; intros H.
      * repeat match type of H with
               | context [if ?b then _ else _] => destruct b
               end; discriminate.
      * assert (Some buffer = None) by (apply F2; lia). discriminate.
    + split; intros H; [|reflexivity].
      specialize (F1 eq_refl). lia.
Qed.

(** *** Lengths of the signed 32-bit form *)

Lemma to_size_t_negative (z : Z) :
  - 2 ^ 63 <= z < 0 -> to_size_t z = 2 ^ 64 + z.
Proof.
  unfold to_size_t, to_unsigned, size_t_bits.
  change (2 ^ 63) with 9223372036854775808.
  change (2 ^ 64) with 18446744073709551616. intros H.
  symmetry. apply (Z.mod_unique _ _ (-1)); lia.
Qed.

Lemma parse_logtype_int (r : Reader) :
  LogtypeStrLenInt (Payload cProtocol) <> LogtypeStrLenUByte (Payload cProtocol) ->
  LogtypeStrLenInt (Payload cProtocol) <> LogtypeStrLenUShort (Payload cProtocol) ->
  parse_logtype cProtocol (LogtypeStrLenInt (Payload cProtocol)) r
  = (length <- or_incomplete (decode_int int32_t) ;;
     or_incomplete (try_read_string (to_size_t length))) r.
Proof.
  intros H1 H2. unfold parse_logtype.
  destruct (Z.eqb_spec (LogtypeStrLenInt (Payload cProtocol))
              (LogtypeStrLenUByte (Payload cProtocol))); [contradiction|].
  destruct (Z.eqb_spec (LogtypeStrLenInt (Payload cProtocol))
              (LogtypeStrLenUShort (Payload cProtocol))); [contradiction|].
  rewrite Z.eqb_refl. unfold bind, ret.
  destruct (or_incomplete (decode_int int32_t) r) as [[a|e] r']; reflexivity.
Qed.

Lemma parse_dictionary_var_int (r : Reader) :
  VarStrLenInt (Payload cProtocol) <> VarStrLenUByte (Payload cProtocol) ->
  VarStrLenInt (Payload cProtocol) <> VarStrLenUShort (Payload cProtocol) ->
  parse_dictionary_var cProtocol (VarStrLenInt (Payload cProtocol)) r
  = (length <- or_incomplete (decode_int int32_t) ;;
     or_incomplete (try_read_string (to_size_t length))) r.
Proof.
  intros H1 H2. unfold parse_dictionary_var.
  destruct (Z.eqb_spec (VarStrLenUByte (Payload cProtocol))
              (VarStrLenInt (Payload cProtocol))); [congruence|].
  destruct (Z.eqb_spec (VarStrLenUShort (Payload cProtocol))
              (VarStrLenInt (Payload cProtocol))); [congruence|].
  rewrite Z.eqb_refl. unfold bind, ret.
  destruct (or_incomplete (decode_int int32_t) r) as [[a|e] r']; reflexivity.
Qed.

Lemma read_negative_length (bs rest : list byte) :
  length bs = 4%nat ->
  interpret int32_t (big_endian_value bs) < 0 ->
  Z.of_nat (length rest) < 2 ^ 64 + interpret int32_t (big_endian_value bs) ->
  (length <- or_incomplete (decode_int int32_t) ;;
   or_incomplete (try_read_string (to_size_t length))) (bs ++ rest)
  = (Failure IRErrorCode_Incomplete_IR, rest).
Proof.
  intros Hlen Hneg Hrest. unfold bind.
  rewrite read_int by exact Hlen.
  pose proof (interpret_value_range int32_t bs Hlen) as Hr.
  cbn [is_signed] in Hr. change (2 ^ (bits int32_t - 1)) with 2147483648 in Hr.
  unfold or_incomplete, try_read_string.
  rewrite try_read_exact_length_fails_reader; [reflexivity|].
  rewrite to_size_t_negative; [lia|].
  change (2 ^ 63) with 9223372036854775808. lia.
Qed.

Lemma read_length_not_corrupted (t : integer_t) (r : Reader) :
  fst ((length <- or_incomplete (decode_int t) ;;
        or_incomplete (try_read_string (to_size_t length))) r)
  <> Failure IRErrorCode_Corrupted_IR.
Proof.
  unfold bind, or_incomplete.
  destruct (decode_int t r) as [[a|] r']; [|discriminate].
  destruct (try_read_string (to_size_t a) r') as [[s|] r'']; discriminate.
Qed.

(** The sign of a length is not checked.  With the signed 32-bit form a
    length [len < 0] is assigned to the [size_t] count as [2^64 + len], and
    [parse_logtype] and [parse_dictionary_var] return Incomplete whenever
    the reader holds fewer than that many further bytes; with this tag no
    path of either function returns Corrupted. *)
Lemma negative_length_is_incomplete (bs rest : list byte) :
  LogtypeStrLenInt (Payload cProtocol) <> LogtypeStrLenUByte (Payload cProtocol) ->
  LogtypeStrLenInt (Payload cProtocol) <> LogtypeStrLenUShort (Payload cProtocol) ->
  VarStrLenInt (Payload cProtocol) <> VarStrLenUByte (Payload cProtocol) ->
  VarStrLenInt (Payload cProtocol) <> VarStrLenUShort (Payload cProtocol) ->
  length bs = 4%nat ->
  interpret int32_t (big_endian_value bs) < 0 ->
  Z.of_nat (length rest) < 2 ^ 64 + interpret int32_t (big_endian_value bs) ->
  parse_logtype cProtocol (LogtypeStrLenInt (Payload cProtocol)) (bs ++ rest)
  = (Failure IRErrorCode_Incomplete_IR, rest)
  /\ parse_dictionary_var cProtocol (VarStrLenInt (Payload cProtocol)) (bs ++ rest)
     = (Failure IRErrorCode_Incomplete_IR, rest)
  /\ (forall r,
         fst (parse_logtype cProtocol (LogtypeStrLenInt (Payload cProtocol)) r)
         <> Failure IRErrorCode_Corrupted_IR
         /\ fst (parse_dictionary_var cProtocol
                   (VarStrLenInt (Payload cProtocol)) r)
            <> Failure IRErrorCode_Corrupted_IR).
Proof.
  intros L1 L2 V1 V2 Hlen Hneg Hrest.
  split; [|split].
  - rewrite parse_logtype_int by assumption.
    apply read_negative_length; assumption.
  - rewrite parse_dictionary_var_int by assumption.
    apply read_negative_length; assumption.
  - intros r. split.
    + rewrite parse_logtype_int by assumption. apply read_length_not_corrupted.
    + rewrite parse_dictionary_var_int by assumption.
      apply read_length_not_corrupted.
Qed.

(** *** Timestamps *)

Lemma convert_epoch_time (t : integer_t) (bs : list byte) :
  t <> uint64_t ->
  length bs = sizeof t ->
  convert epoch_time_ms_t (interpret t (big_endian_value bs))
  = interpret t (big_endian_value bs).
Proof.
  intros Ht H. pose proof (interpret_value_range t bs H) as Hr.
  unfold convert, epoch_time_ms_t, to_signed. cbn [is_signed].
  change (bits int64_t) with 64.
  assert (- 2 ^ 63 <= interpret t (big_endian_value bs) < 2 ^ 63) as Hb.
  { revert Hr. generalize (interpret t (big_endian_value bs)). intros z.
    change (2 ^ 63) with 9223372036854775808.
    destruct t; cbn [is_signed]; width_consts; try lia; congruence. }
  change (2 ^ (64 - 1)) with (2 ^ 63).
  change (2 ^ 63) with 9223372036854775808 in *.
  change (2 ^ 64) with 18446744073709551616.
  rewrite Z.mod_small; lia.
Qed.

Lemma read_delta (t : integer_t) (bs rest : list byte) :
  t <> uint64_t ->
  length bs = sizeof t ->
  (ts_delta <- or_incomplete (decode_int t) ;;
   ret (convert epoch_time_ms_t ts_delta)) (bs ++ rest)
  = (Success (interpret t (big_endian_value bs)), rest).
Proof.
  intros Ht H. unfold bind, ret. rewrite read_int by exact H.
  rewrite convert_epoch_time by assumption. reflexivity.
Qed.

Lemma parse_timestamp_bad_tag (v : encoded_variable_t) (tag : Z) (r : Reader) :
  is_timestamp_tag cProtocol v tag = false ->
  parse_timestamp cProtocol v tag r = (Failure IRErrorCode_Corrupted_IR, r).
Proof.
  unfold is_timestamp_tag, parse_timestamp. destruct v; intros H.
  - rewrite Z.eqb_sym, H. reflexivity.
  - apply orb_false_elim in H as [H H3]. apply orb_false_elim in H as [H1 H2].
    rewrite (Z.eqb_sym _ tag), H1, (Z.eqb_sym _ tag), H2, (Z.eqb_sym _ tag), H3.
    reflexivity.
Qed.

(** C6: in the eight-byte variant [parse_timestamp] returns Corrupted
    unless the tag is [TimestampVal], and on that tag reads an 8-byte
    big-endian signed integer as the timestamp.  In the four-byte variant
    the (pairwise different) tags [TimestampDeltaByte], [TimestampDeltaShort]
    and [TimestampDeltaInt] select a 1-, 2- or 4-byte signed delta; the value
    returned is that delta, within the range of its width (sign-extended),
    and any other tag yields Corrupted. *)
Theorem parse_timestamp_variants :
  TimestampDeltaByte (Payload cProtocol) <> TimestampDeltaShort (Payload cProtocol) ->
  TimestampDeltaByte (Payload cProtocol) <> TimestampDeltaInt (Payload cProtocol) ->
  TimestampDeltaShort (Payload cProtocol) <> TimestampDeltaInt (Payload cProtocol) ->
  (forall tag r,
      tag <> TimestampVal (Payload cProtocol) ->
      parse_timestamp cProtocol eight_byte_encoded_variable_t tag r
      = (Failure IRErrorCode_Corrupted_IR, r))
  /\ (forall bs rest,
         length bs = 8%nat ->
         parse_timestamp cProtocol eight_byte_encoded_variable_t
           (TimestampVal (Payload cProtocol)) (bs ++ rest)
         = (Success (interpret int64_t (big_endian_value bs)), rest))
  /\ (forall bs rest,
         length bs = 1%nat ->
         parse_timestamp cProtocol four_byte_encoded_variable_t
           (TimestampDeltaByte (Payload cProtocol)) (bs ++ rest)
         = (Success (interpret int8_t (big_endian_value bs)), rest)
         /\ - 2 ^ 7 <= interpret int8_t (big_endian_value bs) < 2 ^ 7)
  /\ (forall bs rest,
         length bs = 2%nat ->
         parse_timestamp cProtocol four_byte_encoded_variable_t
           (TimestampDeltaShort (Payload cProtocol)) (bs ++ rest)
         = (Success (interpret int16_t (big_endian_value bs)), rest)
         /\ - 2 ^ 15 <= interpret int16_t (big_endian_value bs) < 2 ^ 15)
  /\ (forall bs rest,
         length bs = 4%nat ->
         parse_timestamp cProtocol four_byte_encoded_variable_t
           (TimestampDeltaInt (Payload cProtocol)) (bs ++ rest)
         = (Success (interpret int32_t (big_endian_value bs)), rest)
         /\ - 2 ^ 31 <= interpret int32_t (big_endian_value bs) < 2 ^ 31)
  /\ (forall tag r,
         tag <> TimestampDeltaByte (Payload cProtocol) ->
         tag <> TimestampDeltaShort (Payload cProtocol) ->
         tag <> TimestampDeltaInt (Payload cProtocol) ->
         parse_timestamp cProtocol four_byte_encoded_variable_t tag r
         = (Failure IRErrorCode_Corrupted_IR, r)).
Proof.
  intros D12 D14 D24.
  split; [|split; [|split; [|split; [|split]]]].
  - intros tag r H. apply parse_timestamp_bad_tag. simpl.
    apply Z.eqb_neq. exact H.
  - intros bs rest H. cbn [parse_timestamp]. rewrite Z.eqb_refl. cbn [negb].
    apply (read_int epoch_time_ms_t). exact H.
  - intros bs rest H. split.
    + cbn [parse_timestamp]. rewrite Z.eqb_refl.
      apply (read_delta int8_t); [discriminate | exact H].
    + apply (interpret_value_range int8_t bs H).
  - intros bs rest H. split.
    + cbn [parse_timestamp].
      destruct (Z.eqb_spec (TimestampDeltaByte (Payload cProtocol))
                  (TimestampDeltaShort (Payload cProtocol))); [contradiction|].
      rewrite Z.eqb_refl. apply (read_delta int16_t); [discriminate | exact H].
    + apply (interpret_value_range int16_t bs H).
  - intros bs rest H. split.
    + cbn [parse_timestamp].
      destruct (Z.eqb_spec (TimestampDeltaByte (Payload cProtocol))
                  (TimestampDeltaInt (Payload cProtocol))); [contradiction|].
      destruct (Z.eqb_spec (TimestampDeltaShort (Payload cProtocol))
                  (TimestampDeltaInt (Payload cProtocol))); [contradiction|].
      rewrite Z.eqb_refl. apply (read_delta int32_t); [discriminate | exact H].
    + apply (interpret_value_range int32_t bs H).
  - intros tag r H1 H2 H3. apply parse_timestamp_bad_tag. simpl.
    apply orb_false_intro; [apply orb_false_intro|]; apply Z.eqb_neq; assumption.
Qed.


(** *** Framing *)

Lemma handle_variables_step v encoded_tag encoded_vars dict_vars r :
  handle_variables cProtocol v encoded_tag encoded_vars dict_vars r
  = match is_variable_tag cProtocol v encoded_tag with
    | None => (Success (encoded_tag, encoded_vars, dict_vars), r)
    | Some is_encoded_var =>
        match variable_record cProtocol v encoded_tag is_encoded_var
                encoded_vars dict_vars r with
        | (Failure e, r') => (Failure e, r')
        | (Success (encoded_tag', encoded_vars', dict_vars'), r') =>
            handle_variables cProtocol v encoded_tag' encoded_vars' dict_vars' r'
        end
    end.
Proof.
  funelim (handle_variables cProtocol v encoded_tag encoded_vars dict_vars r);
    repeat match goal with
      | E : ?x = _ |- context [match ?x with _ => _ end] => rewrite E
      end; reflexivity.
Qed.

(** The loop ends on a tag that is not a variable tag. *)
Lemma handle_variables_ends v encoded_tag encoded_vars dict_vars r
    tag E D r' :
  handle_variables cProtocol v encoded_tag encoded_vars dict_vars r
  = (Success (tag, E, D), r') ->
  is_variable_tag cProtocol v tag = None.
Proof.
  funelim (handle_variables cProtocol v encoded_tag encoded_vars dict_vars r);
    intros Hres.
  - injection Hres as <- _ _ _. assumption.
  - match goal with IH : forall _ _ _ _, _ -> _ |- _ => eapply IH end.
    eassumption.
  - discriminate.
Qed.

Lemma parse_logtype_bad_tag (tag : Z) (r : Reader) :
  is_logtype_tag cProtocol tag = false ->
  parse_logtype cProtocol tag r = (Failure IRErrorCode_Corrupted_IR, r).
Proof.
  unfold is_logtype_tag, parse_logtype. intros H.
  apply orb_false_elim in H as [H H3]. apply orb_false_elim in H as [H1 H2].
  rewrite H1, H2, H3. reflexivity.
Qed.

Lemma parse_frame_cons (v : encoded_variable_t) (b : byte) (rest : list byte) :
  parse_frame cProtocol v (b :: rest)
  = if Eof cProtocol =? tag_of_byte b then (Failure IRErrorCode_Eof, rest)
    else
      ('(encoded_tag, encoded_vars, dict_vars) <-
         handle_variables cProtocol v (tag_of_byte b) [] [] ;;
       logtype <- parse_logtype cProtocol encoded_tag ;;
       encoded_tag <- read_tag ;;
       timestamp <- parse_timestamp cProtocol v encoded_tag ;;
       ret (logtype, encoded_vars, dict_vars, timestamp)) rest.
Proof.
  unfold parse_frame. unfold bind at 1. rewrite read_tag_cons.
  destruct (Eof cProtocol =? tag_of_byte b); reflexivity.
Qed.

Lemma parse_frame_eof (v : encoded_variable_t) (b : byte) (rest : list byte) :
  tag_of_byte b = Eof cProtocol ->
  parse_frame cProtocol v (b :: rest) = (Failure IRErrorCode_Eof, rest).
Proof.
  intros H. rewrite parse_frame_cons, H, Z.eqb_refl. reflexivity.
Qed.

Lemma parse_frame_bad_logtype_tag (v : encoded_variable_t) (b : byte)
    (rest : list byte) tag E D r' :
  tag_of_byte b <> Eof cProtocol ->
  handle_variables cProtocol v (tag_of_byte b) [] [] rest
  = (Success (tag, E, D), r') ->
  is_logtype_tag cProtocol tag = false ->
  parse_frame cProtocol v (b :: rest) = (Failure IRErrorCode_Corrupted_IR, r').
Proof.
  intros Hne Hvars Hbad. rewrite parse_frame_cons.
  destruct (Z.eqb_spec (Eof cProtocol) (tag_of_byte b)); [congruence|].
  unfold bind at 1. rewrite Hvars.
  unfold bind at 1. rewrite parse_logtype_bad_tag by assumption. reflexivity.
Qed.

Lemma parse_frame_bad_timestamp_tag (v : encoded_variable_t) (b : byte)
    (rest : list byte) tag E D r1 logtype b' r2 :
  tag_of_byte b <> Eof cProtocol ->
  handle_variables cProtocol v (tag_of_byte b) [] [] rest
  = (Success (tag, E, D), r1) ->
  parse_logtype cProtocol tag r1 = (Success logtype, b' :: r2) ->
  is_timestamp_tag cProtocol v (tag_of_byte b') = false ->
  parse_frame cProtocol v (b :: rest) = (Failure IRErrorCode_Corrupted_IR, r2).
Proof.
  intros Hne Hvars Hlog Hbad. rewrite parse_frame_cons.
  destruct (Z.eqb_spec (Eof cProtocol) (tag_of_byte b)); [congruence|].
  unfold bind at 1. rewrite Hvars.
  unfold bind at 1. rewrite Hlog.
  unfold bind at 1. rewrite read_tag_cons.
  unfold bind at 1. rewrite parse_timestamp_bad_tag by assumption. reflexivity.
Qed.


(** *** Error codes of the framing *)

Lemma no_decode_error_ret {A : Type} (a : A) : no_decode_error (ret a).
Proof. intros r e r' H. discriminate. Qed.

Lemma no_decode_error_fail {A : Type} (e : IRErrorCode) :
  e <> IRErrorCode_Decode_Error -> no_decode_error (@fail A e).
Proof. intros He r e' r' H. injection H as <- _. exact He. Qed.

Lemma no_decode_error_bind {A B : Type} (m : Decoder A) (k : A -> Decoder B) :
  no_decode_error m -> (forall a, no_decode_error (k a)) ->
  no_decode_error (bind m k).
Proof.
  intros Hm Hk r e r' H. unfold bind in H.
  destruct (m r) as [[a|e0] r0] eqn:E.
  - eapply Hk. eassumption.
  - injection H as <- _. eapply Hm. eassumption.
Qed.

Lemma no_decode_error_or_incomplete {A : Type}
    (read : Reader -> option A * Reader) :
  no_decode_error (or_incomplete read).
Proof.
  intros r e r' H. unfold or_incomplete in H.
  destruct (read r) as [[a|] r0]; [discriminate|].
  injection H as <- _. discriminate.
Qed.

Ltac no_decode_error :=
  repeat first
    [ apply no_decode_error_or_incomplete
    | apply no_decode_error_ret
    | apply no_decode_error_fail; discriminate
    | apply no_decode_error_bind; [|intros ?]
    | match goal with
      | |- no_decode_error (if ?b then _ else _) => destruct b
      | |- no_decode_error (match ?x with (_, _) => _ end) => destruct x
      end ].

Lemma no_decode_error_parse_logtype tag :
  no_decode_error (parse_logtype cProtocol tag).
Proof. unfold parse_logtype. no_decode_error. Qed.

Lemma no_decode_error_parse_dictionary_var tag :
  no_decode_error (parse_dictionary_var cProtocol tag).
Proof. unfold parse_dictionary_var. no_decode_error. Qed.

Lemma no_decode_error_parse_timestamp v tag :
  no_decode_error (parse_timestamp cProtocol v tag).
Proof. unfold parse_timestamp. destruct v; no_decode_error. Qed.

Lemma no_decode_error_variable_record v tag is_encoded_var E D :
  no_decode_error (variable_record cProtocol v tag is_encoded_var E D).
Proof.
  unfold variable_record, read_tag. no_decode_error.
Qed.

Lemma no_decode_error_handle_variables v tag E D :
  no_decode_error (handle_variables cProtocol v tag E D).
Proof.
  intros r. funelim (handle_variables cProtocol v tag E D r);
    intros code rd Hres.
  - discriminate.
  - match goal with IH : forall _ _, _ -> _ |- _ => eapply IH end. eassumption.
  - injection Hres as <- _.
    eapply no_decode_error_variable_record. eassumption.
Qed.

Lemma no_decode_error_parse_frame v : no_decode_error (parse_frame cProtocol v).
Proof.
  unfold parse_frame, read_tag. no_decode_error;
    first [ apply no_decode_error_handle_variables
          | apply no_decode_error_parse_logtype
          | apply no_decode_error_parse_timestamp ].
Qed.


End FieldParserProperties.

(** ** Properties of the message renderer *)

Lemma skipn_nth_cons {A : Type} (l : list A) (i : nat) (d : A) :
  (i < length l)%nat -> skipn i l = nth i l d :: skipn (S i) l.
Proof.
  revert i. induction l as [|a l IH]; intros [|i] H; simpl in *; try lia.
  - reflexivity.
  - apply IH. lia.
Qed.

Lemma substr_empty (s : list byte) (pos : nat) : substr s pos 0 = [].
Proof. reflexivity. Qed.

Lemma substr_snoc (s : list byte) (pos len : nat) :
  (pos + len < length s)%nat ->
  substr s pos (len + 1)
  = substr s pos len ++ [nth (pos + len) s Byte.x00].
Proof.
  unfold substr. revert pos len. induction s as [|a s IH]; intros pos len H.
  - simpl in H. lia.
  - destruct pos as [|pos].
    + cbn [skipn Nat.add]. clear IH. revert a s H.
      induction len as [|len IHl]; intros a s H.
      * reflexivity.
      * destruct s as [|b s]; [simpl in H; lia|].
        cbn [Nat.add firstn app nth]. f_equal.
        apply IHl. simpl in *. lia.
    + cbn [skipn Nat.add nth]. apply IH. simpl in H. lia.
Qed.

Lemma substr_to_end (s : list byte) (pos : nat) :
  substr s pos (length s - pos) = skipn pos s.
Proof.
  unfold substr. apply firstn_all2. rewrite length_skipn. lia.
Qed.

Section RendererProperties.

Variable VariablePlaceholder : VariablePlaceholder_t.
Variable decode_float_var : encoded_variable_t -> Z -> option (list byte).
Variable decode_integer_var : encoded_variable_t -> Z -> option (list byte).

Local Abbreviation loop :=
  (decode_message_loop VariablePlaceholder decode_float_var decode_integer_var).
Local Abbreviation switch :=
  (switch_case VariablePlaceholder decode_float_var decode_integer_var).
Local Abbreviation reference :=
  (render VariablePlaceholder decode_float_var decode_integer_var).
Local Abbreviation kind := (classify VariablePlaceholder).

Lemma decode_message_loop_step v logtype encoded_vars dictionary_vars st :
  loop v logtype encoded_vars dictionary_vars st
  = if (cur_pos st <? length logtype)%nat then
      match switch v logtype encoded_vars dictionary_vars st with
      | None => None
      | Some st' => loop v logtype encoded_vars dictionary_vars (next_pos st')
      end
    else Some st.
Proof.
  funelim (decode_message_loop VariablePlaceholder decode_float_var
             decode_integer_var v logtype encoded_vars dictionary_vars st);
    repeat match goal with
      | E : ?x = _ |- context [?x] => rewrite E
      end; reflexivity.
Qed.

Lemma switch_case_classify v logtype encoded_vars dictionary_vars st :
  switch v logtype encoded_vars dictionary_vars st
  = match kind (nth (cur_pos st) logtype Byte.x00) with
    | KFloat =>
        if (length encoded_vars <=? encoded_vars_ix st)%nat then None
        else
          match decode_float_var v (nth (encoded_vars_ix st) encoded_vars 0) with
          | None => None
          | Some text =>
              Some {| cur_pos := cur_pos st;
                      next_static_text_begin_pos := cur_pos st + 1;
                      dictionary_vars_ix := dictionary_vars_ix st;
                      encoded_vars_ix := encoded_vars_ix st + 1;
                      message := append_static_text logtype st ++ text |}
          end
    | KInteger =>
        if (length encoded_vars <=? encoded_vars_ix st)%nat then None
        else
          match decode_integer_var v (nth (encoded_vars_ix st) encoded_vars 0) with
          | None => None
          | Some text =>
              Some {| cur_pos := cur_pos st;
                      next_static_text_begin_pos := cur_pos st + 1;
                      dictionary_vars_ix := dictionary_vars_ix st;
                      encoded_vars_ix := encoded_vars_ix st + 1;
                      message := append_static_text logtype st ++ text |}
          end
    | KDictionary =>
        if (length dictionary_vars <=? dictionary_vars_ix st)%nat then None
        else
          Some {| cur_pos := cur_pos st;
                  next_static_text_begin_pos := cur_pos st + 1;
                  dictionary_vars_ix := dictionary_vars_ix st + 1;
                  encoded_vars_ix := encoded_vars_ix st;
                  message := append_static_text logtype st
                             ++ nth (dictionary_vars_ix st) dictionary_vars [] |}
    | KEscape =>
        if (cur_pos st =? length logtype - 1)%nat then None
        else
          Some {| cur_pos := cur_pos st + 1;
                  next_static_text_begin_pos := cur_pos st + 1;
                  dictionary_vars_ix := dictionary_vars_ix st;
                  encoded_vars_ix := encoded_vars_ix st;
                  message := append_static_text logtype st |}
    | KStatic => Some st
    end.
Proof.
  unfold switch_case, classify.
  repeat match goal with
         | |- context [Byte.eqb ?a ?b] => destruct (Byte.eqb a b)
         end; reflexivity.
Qed.

(** *** The loop against the reference renderer *)

Lemma agrees_step logtype st0 st1 res ref text a b :
  encoded_vars_ix st1 = (encoded_vars_ix st0 + a)%nat ->
  dictionary_vars_ix st1 = (dictionary_vars_ix st0 + b)%nat ->
  append_static_text logtype st1 = append_static_text logtype st0 ++ text ->
  agrees logtype st1 res ref ->
  agrees logtype st0 res (extend text a b ref).
Proof.
  unfold agrees, extend. intros He Hd Hm.
  destruct res as [st|], ref as [[[out ne] nd]|]; try tauto.
  intros (Hc & Hn & He' & Hd' & Hm').
  repeat split; try lia.
  rewrite Hm', Hm, <- app_assoc. reflexivity.
Qed.

Ltac step_with text a b :=
  match goal with
  | |- agrees ?L ?s0 (decode_message_loop _ _ _ _ _ _ _ ?s1)
         (match ?ref with _ => _ end) =>
      refine (agrees_step L s0 s1 _ ref text a b _ _ _ _)
  end.

Ltac use_IH IH :=
  match goal with
  | |- agrees ?L ?s _ _ =>
      refine (IH (length L - cur_pos s)%nat _ s eq_refl _); simpl; lia
  end.

Lemma loop_render v logtype encoded_vars dictionary_vars st0 :
  (next_static_text_begin_pos st0 <= cur_pos st0 <= length logtype)%nat ->
  agrees logtype st0
    (loop v logtype encoded_vars dictionary_vars st0)
    (reference v (skipn (cur_pos st0) logtype)
       (skipn (encoded_vars_ix st0) encoded_vars)
       (skipn (dictionary_vars_ix st0) dictionary_vars)).
Proof.
  remember (length logtype - cur_pos st0)%nat as n eqn:Hn.
  revert st0 Hn. induction n as [n IH] using lt_wf_ind.
  intros st0 Hn [Hlo Hhi].
  rewrite decode_message_loop_step.
  destruct (Nat.ltb_spec (cur_pos st0) (length logtype)) as [Hlt|Hge].
  - rewrite (skipn_nth_cons logtype (cur_pos st0) Byte.x00 Hlt).
    rewrite switch_case_classify. cbn [render].
    destruct (kind (nth (cur_pos st0) logtype Byte.x00)) eqn:K.
    + (* Float *)
      destruct (Nat.leb_spec (length encoded_vars) (encoded_vars_ix st0)) as [Hf|Hf].
      * rewrite skipn_all2 by lia. exact I.
      * rewrite (skipn_nth_cons encoded_vars (encoded_vars_ix st0) 0 Hf).
        destruct (decode_float_var v (nth (encoded_vars_ix st0) encoded_vars 0))
          as [text|]; [|exact I].
        step_with (text) (1%nat) (0%nat);
          [simpl; lia | simpl; lia | |].
        -- unfold append_static_text at 1. simpl.
           replace (cur_pos st0 + 1 - (cur_pos st0 + 1))%nat with 0%nat by lia.
           rewrite substr_empty, app_nil_r. reflexivity.
        -- replace (S (encoded_vars_ix st0)) with (encoded_vars_ix st0 + 1)%nat
             by lia.
           replace (S (cur_pos st0)) with (cur_pos st0 + 1)%nat by lia.
           use_IH IH.
    + (* Integer *)
      destruct (Nat.leb_spec (length encoded_vars) (encoded_vars_ix st0)) as [Hf|Hf].
      * rewrite skipn_all2 by lia. exact I.
      * rewrite (skipn_nth_cons encoded_vars (encoded_vars_ix st0) 0 Hf).
        destruct (decode_integer_var v (nth (encoded_vars_ix st0) encoded_vars 0))
          as [text|]; [|exact I].
        step_with (text) (1%nat) (0%nat);
          [simpl; lia | simpl; lia | |].
        -- unfold append_static_text at 1. simpl.
           replace (cur_pos st0 + 1 - (cur_pos st0 + 1))%nat with 0%nat by lia.
           rewrite substr_empty, app_nil_r. reflexivity.
        -- replace (S (encoded_vars_ix st0)) with (encoded_vars_ix st0 + 1)%nat
             by lia.
           replace (S (cur_pos st0)) with (cur_pos st0 + 1)%nat by lia.
           use_IH IH.
    + (* Dictionary *)
      destruct (Nat.leb_spec (length dictionary_vars) (dictionary_vars_ix st0))
        as [Hf|Hf].
      * rewrite skipn_all2 by lia. exact I.
      * rewrite (skipn_nth_cons dictionary_vars (dictionary_vars_ix st0) [] Hf).
        step_with ((nth (dictionary_vars_ix st0) dictionary_vars [])) (0%nat) (1%nat);
          [simpl; lia | simpl; lia | |].
        -- unfold append_static_text at 1. simpl.
           replace (cur_pos st0 + 1 - (cur_pos st0 + 1))%nat with 0%nat by lia.
           rewrite substr_empty, app_nil_r. reflexivity.
        -- replace (S (dictionary_vars_ix st0))
             with (dictionary_vars_ix st0 + 1)%nat by lia.
           replace (S (cur_pos st0)) with (cur_pos st0 + 1)%nat by lia.
           use_IH IH.
    + (* Escape *)
      destruct (Nat.eqb_spec (cur_pos st0) (length logtype - 1)) as [Hf|Hf].
      * rewrite skipn_all2 by lia. exact I.
      * rewrite (skipn_nth_cons logtype (S (cur_pos st0)) Byte.x00) by lia.
        step_with ([nth (S (cur_pos st0)) logtype Byte.x00]) (0%nat) (0%nat);
          [simpl; lia | simpl; lia | |].
        -- unfold append_static_text at 1. simpl.
           replace (cur_pos st0 + 1 + 1 - (cur_pos st0 + 1))%nat with (0 + 1)%nat
             by lia.
           rewrite substr_snoc by lia. rewrite substr_empty.
           replace (cur_pos st0 + 1 + 0)%nat with (S (cur_pos st0)) by lia.
           reflexivity.
        -- replace (S (S (cur_pos st0))) with (cur_pos st0 + 1 + 1)%nat by lia.
           use_IH IH.
    + (* static text *)
      step_with ([nth (cur_pos st0) logtype Byte.x00]) (0%nat) (0%nat);
        [simpl; lia | simpl; lia | |].
      * unfold append_static_text. simpl.
        replace (cur_pos st0 + 1 - next_static_text_begin_pos st0)%nat
          with (cur_pos st0 - next_static_text_begin_pos st0 + 1)%nat by lia.
        rewrite substr_snoc by lia.
        replace (next_static_text_begin_pos st0
                 + (cur_pos st0 - next_static_text_begin_pos st0))%nat
          with (cur_pos st0) by lia.
        rewrite app_assoc. reflexivity.
      * replace (S (cur_pos st0)) with (cur_pos st0 + 1)%nat by lia.
        use_IH IH.
  - assert (cur_pos st0 = length logtype) as Hc by lia.
    rewrite skipn_all2 by lia. cbn [render agrees].
    repeat split; try lia.
    unfold append_static_text. rewrite Hc, substr_to_end, app_nil_r.
    reflexivity.
Qed.


(** *** The reference renderer *)

Lemma length_induction {A : Type} (P : list A -> Prop) :
  (forall l, (forall l', (length l' < length l)%nat -> P l') -> P l) ->
  forall l, P l.
Proof.
  intros H l. remember (length l) as n eqn:Hn. revert l Hn.
  induction n as [n IH] using lt_wf_ind. intros l Hn.
  apply H. intros l' Hl'. apply (IH (length l')); [lia | reflexivity].
Qed.

Lemma render_counts v logtype : forall encoded_vars dictionary_vars out ne nd,
  reference v logtype encoded_vars dictionary_vars = Some (out, ne, nd) ->
  ne = count_encoded_placeholders VariablePlaceholder logtype
  /\ nd = count_dictionary_placeholders VariablePlaceholder logtype
  /\ (ne <= length encoded_vars)%nat
  /\ (nd <= length dictionary_vars)%nat
  /\ escape_at_end VariablePlaceholder logtype = false.
Proof.
  induction logtype as [logtype IH] using length_induction.
  intros E D out ne nd H.
  destruct logtype as [|c rest]; cbn in H |- *.
  - injection H as <- <- <-. repeat split; lia.
  - destruct (kind c) eqn:K.
    + destruct E as [|x E]; [discriminate|].
      destruct (decode_float_var v x); [|discriminate].
      destruct (reference v rest E D) as [[[o a] b]|] eqn:R; [|discriminate].
      injection H as <- <- <-.
      apply IH in R; [|simpl; lia]. cbn [length]. intuition lia.
    + destruct E as [|x E]; [discriminate|].
      destruct (decode_integer_var v x); [|discriminate].
      destruct (reference v rest E D) as [[[o a] b]|] eqn:R; [|discriminate].
      injection H as <- <- <-.
      apply IH in R; [|simpl; lia]. cbn [length]. intuition lia.
    + destruct D as [|s D]; [discriminate|].
      destruct (reference v rest E D) as [[[o a] b]|] eqn:R; [|discriminate].
      injection H as <- <- <-.
      apply IH in R; [|simpl; lia]. cbn [length]. intuition lia.
    + destruct rest as [|x rest]; [discriminate|].
      destruct (reference v rest E D) as [[[o a] b]|] eqn:R; [|discriminate].
      injection H as <- <- <-.
      apply IH in R; [|simpl; lia]. exact R.
    + destruct (reference v rest E D) as [[[o a] b]|] eqn:R; [|discriminate].
      injection H as <- <- <-.
      apply IH in R; [|simpl; lia]. exact R.
Qed.

Lemma render_fails v logtype : forall encoded_vars dictionary_vars,
  formatters_total decode_float_var decode_integer_var ->
  reference v logtype encoded_vars dictionary_vars = None ->
  (length encoded_vars
   < count_encoded_placeholders VariablePlaceholder logtype)%nat
  \/ (length dictionary_vars
      < count_dictionary_placeholders VariablePlaceholder logtype)%nat
  \/ escape_at_end VariablePlaceholder logtype = true.
Proof.
  induction logtype as [logtype IH] using length_induction.
  intros E D Htot H.
  destruct logtype as [|c rest]; cbn in H |- *; [discriminate|].
  destruct (kind c) eqn:K.
  - destruct E as [|x E]; [simpl; lia|].
    destruct (decode_float_var v x) eqn:F; [|apply Htot in F; contradiction].
    destruct (reference v rest E D) as [[[o a] b]|] eqn:R; [discriminate|].
    apply IH in R; [|simpl; lia|assumption]. cbn [length]. intuition lia.
  - destruct E as [|x E]; [simpl; lia|].
    destruct (decode_integer_var v x) eqn:F; [|apply Htot in F; contradiction].
    destruct (reference v rest E D) as [[[o a] b]|] eqn:R; [discriminate|].
    apply IH in R; [|simpl; lia|assumption]. cbn [length]. intuition lia.
  - destruct D as [|s D]; [simpl; lia|].
    destruct (reference v rest E D) as [[[o a] b]|] eqn:R; [discriminate|].
    apply IH in R; [|simpl; lia|assumption]. cbn [length]. intuition lia.
  - destruct rest as [|x rest]; [tauto|].
    destruct (reference v rest E D) as [[[o a] b]|] eqn:R; [discriminate|].
    apply IH in R; [|simpl; lia|assumption]. exact R.
  - destruct (reference v rest E D) as [[[o a] b]|] eqn:R; [discriminate|].
    apply IH in R; [|simpl; lia|assumption]. exact R.
Qed.

Lemma render_surplus v logtype : forall encoded_vars dictionary_vars res
    more_encoded more_dictionary,
  reference v logtype encoded_vars dictionary_vars = Some res ->
  reference v logtype (encoded_vars ++ more_encoded)
    (dictionary_vars ++ more_dictionary) = Some res.
Proof.
  induction logtype as [logtype IH] using length_induction.
  intros E D res E' D' H.
  destruct logtype as [|c rest]; cbn in H |- *; [exact H|].
  destruct (kind c) eqn:K.
  - destruct E as [|x E]; [discriminate|]. cbn [app].
    destruct (decode_float_var v x); [|discriminate].
    destruct (reference v rest E D) as [r|] eqn:R; [|discriminate].
    rewrite (IH rest ltac:(simpl; lia) _ _ _ E' D' R). exact H.
  - destruct E as [|x E]; [discriminate|]. cbn [app].
    destruct (decode_integer_var v x); [|discriminate].
    destruct (reference v rest E D) as [r|] eqn:R; [|discriminate].
    rewrite (IH rest ltac:(simpl; lia) _ _ _ E' D' R). exact H.
  - destruct D as [|s D]; [discriminate|]. cbn [app].
    destruct (reference v rest E D) as [r|] eqn:R; [|discriminate].
    rewrite (IH rest ltac:(simpl; lia) _ _ _ E' D' R). exact H.
  - destruct rest as [|x rest]; [discriminate|].
    destruct (reference v rest E D) as [r|] eqn:R; [|discriminate].
    rewrite (IH rest ltac:(simpl; lia) _ _ _ E' D' R). exact H.
  - destruct (reference v rest E D) as [r|] eqn:R; [|discriminate].
    rewrite (IH rest ltac:(simpl; lia) _ _ _ E' D' R). exact H.
Qed.

Lemma classify_escape :
  distinct_case_labels VariablePlaceholder ->
  kind (cVariablePlaceholderEscapeCharacter VariablePlaceholder) = KEscape.
Proof.
  unfold distinct_case_labels, classify. intros H.
  repeat match goal with
         | |- context [Byte.eqb ?a ?b] =>
             let E := fresh "E" in
             destruct (Byte.eqb a b) eqn:E;
             [apply Byte.byte_dec_bl in E | apply Byte.eqb_false in E]
         end; try reflexivity; try congruence; exfalso;
    repeat match goal with
      | H : NoDup (_ :: _) |- _ => inversion H; clear H; subst
      end;
    match goal with
    | E : _ = _, N : ~ In _ _ |- _ => apply N; rewrite <- E; simpl; tauto
    end.
Qed.

Lemma render_fully_escaped v units encoded_vars dictionary_vars :
  distinct_case_labels VariablePlaceholder ->
  Forall (unit_ok VariablePlaceholder) units ->
  reference v (concat (map (unit_bytes VariablePlaceholder) units))
    encoded_vars dictionary_vars
  = Some (map unit_text units, 0%nat, 0%nat).
Proof.
  intros Hd Hu. induction Hu as [|u units Hok _ IH]; [reflexivity|].
  destruct u as [c|c]; cbn [map concat unit_bytes unit_text app render].
  - simpl in Hok. rewrite Hok, IH. reflexivity.
  - rewrite (classify_escape Hd), IH. reflexivity.
Qed.

(** *** [decode_message] against the reference renderer *)

Lemma decode_message_loop_render v logtype encoded_vars dictionary_vars :
  agrees logtype initial_state
    (loop v logtype encoded_vars dictionary_vars initial_state)
    (reference v logtype encoded_vars dictionary_vars).
Proof.
  apply (loop_render v logtype encoded_vars dictionary_vars initial_state).
  simpl. lia.
Qed.

Lemma decode_message_render v logtype encoded_vars dictionary_vars :
  decode_message VariablePlaceholder decode_float_var decode_integer_var
    v logtype encoded_vars dictionary_vars
  = match reference v logtype encoded_vars dictionary_vars with
    | None => None
    | Some (out, _, _) => Some out
    end.
Proof.
  unfold decode_message.
  pose proof (decode_message_loop_render v logtype encoded_vars dictionary_vars)
    as H.
  unfold agrees in H.
  destruct (loop v logtype encoded_vars dictionary_vars initial_state) as [st|],
    (reference v logtype encoded_vars dictionary_vars) as [[[out ne] nd]|];
    try tauto.
  destruct H as (_ & Hn & _ & _ & Hm). cbn in Hm.
  destruct (Nat.ltb_spec (next_static_text_begin_pos st) (length logtype)).
  - rewrite Hm. reflexivity.
  - rewrite skipn_all2 in Hm by lia. rewrite app_nil_r in Hm.
    rewrite Hm. reflexivity.
Qed.


(** *** The throw sites *)

Lemma loop_reaches_same_result v logtype encoded_vars dictionary_vars st :
  loop_reaches VariablePlaceholder decode_float_var decode_integer_var
    v logtype encoded_vars dictionary_vars st ->
  loop v logtype encoded_vars dictionary_vars st
  = loop v logtype encoded_vars dictionary_vars initial_state.
Proof.
  induction 1 as [|st st' _ IH Hlt Hcase]; [reflexivity|].
  rewrite <- IH. rewrite (decode_message_loop_step _ _ _ _ st).
  apply Nat.ltb_lt in Hlt. rewrite Hlt, Hcase. reflexivity.
Qed.

Lemma switch_case_throws v logtype encoded_vars dictionary_vars st :
  too_few_encoded_vars_at VariablePlaceholder logtype encoded_vars st
  \/ too_few_dictionary_vars_at VariablePlaceholder logtype dictionary_vars st
  \/ unexpected_escape_at VariablePlaceholder logtype st ->
  switch v logtype encoded_vars dictionary_vars st = None.
Proof.
  rewrite switch_case_classify.
  intros [(_ & [K|K] & H) | [(_ & K & H) | (_ & K & H)]]; rewrite K.
  - apply Nat.leb_le in H. rewrite H. reflexivity.
  - apply Nat.leb_le in H. rewrite H. reflexivity.
  - apply Nat.leb_le in H. rewrite H. reflexivity.
  - apply Nat.eqb_eq in H. rewrite H. reflexivity.
Qed.

Lemma switch_case_none v logtype encoded_vars dictionary_vars st :
  formatters_total decode_float_var decode_integer_var ->
  (cur_pos st < length logtype)%nat ->
  switch v logtype encoded_vars dictionary_vars st = None ->
  too_few_encoded_vars_at VariablePlaceholder logtype encoded_vars st
  \/ too_few_dictionary_vars_at VariablePlaceholder logtype dictionary_vars st
  \/ unexpected_escape_at VariablePlaceholder logtype st.
Proof.
  intros Htot Hlt. rewrite switch_case_classify.
  unfold too_few_encoded_vars_at, too_few_dictionary_vars_at,
    unexpected_escape_at.
  destruct (kind (nth (cur_pos st) logtype Byte.x00)) eqn:K.
  - destruct (Nat.leb_spec (length encoded_vars) (encoded_vars_ix st));
      [tauto|].
    destruct (decode_float_var v (nth (encoded_vars_ix st) encoded_vars 0))
      eqn:F; [discriminate|]. apply Htot in F. contradiction.
  - destruct (Nat.leb_spec (length encoded_vars) (encoded_vars_ix st));
      [tauto|].
    destruct (decode_integer_var v (nth (encoded_vars_ix st) encoded_vars 0))
      eqn:F; [discriminate|]. apply Htot in F. contradiction.
  - destruct (Nat.leb_spec (length dictionary_vars) (dictionary_vars_ix st));
      [tauto | discriminate].
  - destruct (Nat.eqb_spec (cur_pos st) (length logtype - 1));
      [tauto | discriminate].
  - discriminate.
Qed.

Lemma loop_none_reaches_throw v logtype encoded_vars dictionary_vars st0 :
  loop_reaches VariablePlaceholder decode_float_var decode_integer_var
    v logtype encoded_vars dictionary_vars st0 ->
  loop v logtype encoded_vars dictionary_vars st0 = None ->
  exists st,
    loop_reaches VariablePlaceholder decode_float_var decode_integer_var
      v logtype encoded_vars dictionary_vars st
    /\ (cur_pos st < length logtype)%nat
    /\ switch v logtype encoded_vars dictionary_vars st = None.
Proof.
  remember (length logtype - cur_pos st0)%nat as n eqn:Hn.
  revert st0 Hn. induction n as [n IH] using lt_wf_ind.
  intros st0 Hn Hreach. rewrite decode_message_loop_step.
  destruct (Nat.ltb_spec (cur_pos st0) (length logtype)) as [Hlt|Hge];
    [|discriminate].
  destruct (switch v logtype encoded_vars dictionary_vars st0) as [st'|] eqn:Hcase.
  - intros Hnone.
    apply (IH (length logtype - cur_pos (next_pos st'))%nat) with (st0 := next_pos st').
    + apply switch_case_cur_pos in Hcase. simpl. lia.
    + reflexivity.
    + eapply reaches_next; eassumption.
    + exact Hnone.
  - intros _. exists st0. auto.
Qed.

Lemma decode_message_none v logtype encoded_vars dictionary_vars :
  decode_message VariablePlaceholder decode_float_var decode_integer_var
    v logtype encoded_vars dictionary_vars = None
  <-> loop v logtype encoded_vars dictionary_vars initial_state = None.
Proof.
  unfold decode_message.
  destruct (loop v logtype encoded_vars dictionary_vars initial_state) as [st|].
  - destruct (next_static_text_begin_pos st <? length logtype)%nat;
      split; discriminate.
  - tauto.
Qed.

(** Reaching one of the three [throw] statements makes [decode_message]
    throw. *)
Lemma throw_site_throws v logtype encoded_vars dictionary_vars st :
  loop_reaches VariablePlaceholder decode_float_var decode_integer_var
    v logtype encoded_vars dictionary_vars st ->
  too_few_encoded_vars_at VariablePlaceholder logtype encoded_vars st
  \/ too_few_dictionary_vars_at VariablePlaceholder logtype dictionary_vars st
  \/ unexpected_escape_at VariablePlaceholder logtype st ->
  decode_message VariablePlaceholder decode_float_var decode_integer_var
    v logtype encoded_vars dictionary_vars = None.
Proof.
  intros Hreach Hthrow. apply decode_message_none.
  rewrite <- (loop_reaches_same_result _ _ _ _ _ Hreach).
  rewrite decode_message_loop_step.
  assert (cur_pos st < length logtype)%nat as Hlt
      by (destruct Hthrow as [(? & _)|[(? & _)|(? & _)]]; assumption).
  apply Nat.ltb_lt in Hlt. rewrite Hlt.
  rewrite (switch_case_throws v _ _ _ _ Hthrow). reflexivity.
Qed.

(** With formatters that do not throw, a [decode_message] that throws has
    reached one of the three [throw] statements. *)
Lemma throws_at_throw_site v logtype encoded_vars dictionary_vars :
  formatters_total decode_float_var decode_integer_var ->
  decode_message VariablePlaceholder decode_float_var decode_integer_var
    v logtype encoded_vars dictionary_vars = None ->
  exists st,
    loop_reaches VariablePlaceholder decode_float_var decode_integer_var
      v logtype encoded_vars dictionary_vars st
    /\ (too_few_encoded_vars_at VariablePlaceholder logtype encoded_vars st
        \/ too_few_dictionary_vars_at VariablePlaceholder logtype
             dictionary_vars st
        \/ unexpected_escape_at VariablePlaceholder logtype st).
Proof.
  intros Htot H. apply decode_message_none in H.
  destruct (loop_none_reaches_throw v logtype encoded_vars dictionary_vars
              initial_state (reaches_initial _ _ _ _ _ _ _) H)
    as (st & Hreach & Hlt & Hcase).
  exists st. split; [exact Hreach|].
  apply (switch_case_none v); assumption.
Qed.

(** The same in closed form: more placeholders than variables of their
    kind, or a logtype that ends in an escape character, make
    [decode_message] throw. *)
Lemma too_few_variables_throws v logtype encoded_vars dictionary_vars :
  (length encoded_vars
   < count_encoded_placeholders VariablePlaceholder logtype)%nat
  \/ (length dictionary_vars
      < count_dictionary_placeholders VariablePlaceholder logtype)%nat
  \/ escape_at_end VariablePlaceholder logtype = true ->
  decode_message VariablePlaceholder decode_float_var decode_integer_var
    v logtype encoded_vars dictionary_vars = None.
Proof.
  rewrite decode_message_render.
  destruct (reference v logtype encoded_vars dictionary_vars)
    as [[[out ne] nd]|] eqn:R; [|reflexivity].
  apply render_counts in R. destruct R as (-> & -> & He & Hd & Hesc).
  rewrite Hesc. intros [H|[H|H]]; [lia|lia|discriminate].
Qed.

Lemma throws_for_too_few_variables v logtype encoded_vars dictionary_vars :
  formatters_total decode_float_var decode_integer_var ->
  decode_message VariablePlaceholder decode_float_var decode_integer_var
    v logtype encoded_vars dictionary_vars = None ->
  (length encoded_vars
   < count_encoded_placeholders VariablePlaceholder logtype)%nat
  \/ (length dictionary_vars
      < count_dictionary_placeholders VariablePlaceholder logtype)%nat
  \/ escape_at_end VariablePlaceholder logtype = true.
Proof.
  intros Htot. rewrite decode_message_render.
  destruct (reference v logtype encoded_vars dictionary_vars)
    as [[[out ne] nd]|] eqn:R; [discriminate|].
  intros _. apply (render_fails v); assumption.
Qed.

(** The four ways in which an iteration of the loop throws. *)
Lemma switch_case_none_iff v logtype encoded_vars dictionary_vars st :
  (cur_pos st < length logtype)%nat ->
  switch v logtype encoded_vars dictionary_vars st = None
  <-> (too_few_encoded_vars_at VariablePlaceholder logtype encoded_vars st
       \/ too_few_dictionary_vars_at VariablePlaceholder logtype
            dictionary_vars st
       \/ unexpected_escape_at VariablePlaceholder logtype st
       \/ formatter_throws_at VariablePlaceholder decode_float_var
            decode_integer_var v logtype encoded_vars st).
Proof.
  intros Hlt. rewrite switch_case_classify.
  unfold too_few_encoded_vars_at, too_few_dictionary_vars_at,
    unexpected_escape_at, formatter_throws_at.
  destruct (kind (nth (cur_pos st) logtype Byte.x00)) eqn:K.
  - destruct (Nat.leb_spec (length encoded_vars) (encoded_vars_ix st))
      as [Hle|Hgt].
    + split; [intros _; left; tauto | reflexivity].
    + destruct (decode_float_var v (nth (encoded_vars_ix st) encoded_vars 0))
        eqn:F.
      * split; [discriminate|].
        intros [(_ & _ & H) | [(_ & H & _) | [(_ & H & _) | (_ & _ & H)]]];
          try discriminate; try lia.
        destruct H as [(_ & H)|(H & _)]; discriminate.
      * split; [|reflexivity]. intros _. right. right. right. tauto.
  - destruct (Nat.leb_spec (length encoded_vars) (encoded_vars_ix st))
      as [Hle|Hgt].
    + split; [intros _; left; tauto | reflexivity].
    + destruct (decode_integer_var v (nth (encoded_vars_ix st) encoded_vars 0))
        eqn:F.
      * split; [discriminate|].
        intros [(_ & _ & H) | [(_ & H & _) | [(_ & H & _) | (_ & _ & H)]]];
          try discriminate; try lia.
        destruct H as [(H & _)|(_ & H)]; discriminate.
      * split; [|reflexivity]. intros _. right. right. right. tauto.
  - destruct (Nat.leb_spec (length dictionary_vars) (dictionary_vars_ix st))
      as [Hle|Hgt].
    + split; [intros _; right; left; tauto | reflexivity].
    + split; [discriminate|].
      intros [(_ & [H|H] & _) | [(_ & _ & H) | [(_ & H & _) | (_ & _ & H)]]];
        try discriminate; try lia.
      destruct H as [(H & _)|(H & _)]; discriminate.
  - destruct (Nat.eqb_spec (cur_pos st) (length logtype - 1)) as [He|Hn].
    + split; [intros _; right; right; left; tauto | reflexivity].
    + split; [discriminate|].
      intros [(_ & [H|H] & _) | [(_ & H & _) | [(_ & _ & H) | (_ & _ & H)]]];
        try discriminate; try contradiction.
      destruct H as [(H & _)|(H & _)]; discriminate.
  - split; [discriminate|].
    intros [(_ & [H|H] & _) | [(_ & H & _) | [(_ & H & _) | (_ & _ & H)]]];
      try discriminate.
    destruct H as [(H & _)|(H & _)]; discriminate.
Qed.

(** [decode_message] throws exactly when its loop reaches one of the four
    ways out. *)
Lemma decode_message_throws_iff v logtype encoded_vars dictionary_vars :
  decode_message VariablePlaceholder decode_float_var decode_integer_var
    v logtype encoded_vars dictionary_vars = None
  <-> exists st,
      loop_reaches VariablePlaceholder decode_float_var decode_integer_var
        v logtype encoded_vars dictionary_vars st
      /\ (too_few_encoded_vars_at VariablePlaceholder logtype encoded_vars st
          \/ too_few_dictionary_vars_at VariablePlaceholder logtype
               dictionary_vars st
          \/ unexpected_escape_at VariablePlaceholder logtype st
          \/ formatter_throws_at VariablePlaceholder decode_float_var
               decode_integer_var v logtype encoded_vars st).
Proof.
  split.
  - intros H. apply decode_message_none in H.
    destruct (loop_none_reaches_throw v logtype encoded_vars dictionary_vars
                initial_state (reaches_initial _ _ _ _ _ _ _) H)
      as (st & Hreach & Hlt & Hcase).
    exists st. split; [exact Hreach|].
    apply (switch_case_none_iff v); assumption.
  - intros (st & Hreach & Hthrow). apply decode_message_none.
    rewrite <- (loop_reaches_same_result _ _ _ _ _ Hreach).
    rewrite decode_message_loop_step.
    assert (cur_pos st < length logtype)%nat as Hlt
        by (destruct Hthrow as [(? & _)|[(? & _)|[(? & _)|(? & _)]]];
            assumption).
    pose proof (proj2 (switch_case_none_iff v _ _ _ _ Hlt) Hthrow) as Hcase.
    apply Nat.ltb_lt in Hlt. rewrite Hlt, Hcase. reflexivity.
Qed.

(** *** Variables consumed *)

(** C1, as the code has it: when [decode_message] succeeds, the loop has
    consumed as many encoded variables as the logtype has Float and Integer
    placeholders processed as placeholders, and as many dictionary variables
    as it has Dictionary placeholders processed; these numbers are at most
    [|E|] and [|D|].  Variables beyond them are left unconsumed. *)
Theorem consumed_variables v logtype encoded_vars dictionary_vars text :
  decode_message VariablePlaceholder decode_float_var decode_integer_var
    v logtype encoded_vars dictionary_vars = Some text ->
  exists st,
    loop v logtype encoded_vars dictionary_vars initial_state = Some st
    /\ encoded_vars_ix st
       = count_encoded_placeholders VariablePlaceholder logtype
    /\ dictionary_vars_ix st
       = count_dictionary_placeholders VariablePlaceholder logtype
    /\ (encoded_vars_ix st <= length encoded_vars)%nat
    /\ (dictionary_vars_ix st <= length dictionary_vars)%nat.
Proof.
  intros H.
  pose proof (decode_message_loop_render v logtype encoded_vars dictionary_vars)
    as Hag.
  destruct (loop v logtype encoded_vars dictionary_vars initial_state)
    as [st|] eqn:L.
  - exists st. split; [reflexivity|].
    unfold agrees in Hag.
    destruct (reference v logtype encoded_vars dictionary_vars)
      as [[[out ne] nd]|] eqn:R; [|contradiction].
    destruct Hag as (_ & _ & He & Hd & _). cbn in He, Hd.
    apply render_counts in R. destruct R as (<- & <- & Hle & Hld & _).
    repeat split; lia.
  - apply decode_message_none in L. congruence.
Qed.

(** C10: when [decode_message] succeeds on [E] and [D], it succeeds with
    the same message on any extension of [E] and of [D]: variables beyond
    those the placeholders consume are neither read nor checked. *)
Theorem surplus_variables_ignored v logtype encoded_vars dictionary_vars text
    more_encoded more_dictionary :
  decode_message VariablePlaceholder decode_float_var decode_integer_var
    v logtype encoded_vars dictionary_vars = Some text ->
  decode_message VariablePlaceholder decode_float_var decode_integer_var
    v logtype (encoded_vars ++ more_encoded)
    (dictionary_vars ++ more_dictionary) = Some text.
Proof.
  rewrite !decode_message_render.
  destruct (reference v logtype encoded_vars dictionary_vars) as [res|] eqn:R;
    [|discriminate].
  rewrite (render_surplus v _ _ _ _ more_encoded more_dictionary R).
  tauto.
Qed.

(** C7: a fully escaped logtype, a concatenation of units that are each
    an ordinary character (no placeholder, not the escape character) or the
    escape character followed by a placeholder or escape character, renders
    to the characters of the units without the leading escape characters,
    and consumes no encoded and no dictionary variable. *)
Theorem fully_escaped_logtype v units encoded_vars dictionary_vars :
  distinct_case_labels VariablePlaceholder ->
  Forall (unit_ok VariablePlaceholder) units ->
  decode_message VariablePlaceholder decode_float_var decode_integer_var v
    (concat (map (unit_bytes VariablePlaceholder) units))
    encoded_vars dictionary_vars
  = Some (map unit_text units)
  /\ exists st,
      loop v (concat (map (unit_bytes VariablePlaceholder) units))
        encoded_vars dictionary_vars initial_state = Some st
      /\ encoded_vars_ix st = 0%nat
      /\ dictionary_vars_ix st = 0%nat.
Proof.
  intros Hd Hu.
  pose proof (render_fully_escaped v units encoded_vars dictionary_vars Hd Hu)
    as R.
  split.
  - rewrite decode_message_render, R. reflexivity.
  - pose proof (decode_message_loop_render v
                  (concat (map (unit_bytes VariablePlaceholder) units))
                  encoded_vars dictionary_vars) as Hag.
    rewrite R in Hag. unfold agrees in Hag.
    destruct (loop v (concat (map (unit_bytes VariablePlaceholder) units))
                encoded_vars dictionary_vars initial_state) as [st|];
      [|contradiction].
    exists st. destruct Hag as (_ & _ & He & Hdi & _).
    repeat split; assumption.
Qed.


End RendererProperties.


(** ** Properties of the message assembler: tags *)

Section AssemblerTagProperties.

Variable cProtocol : cProtocol_t.
Variable VariablePlaceholder : VariablePlaceholder_t.
Variable decode_float_var : encoded_variable_t -> Z -> option (list byte).
Variable decode_integer_var : encoded_variable_t -> Z -> option (list byte).

Local Abbreviation decode_next :=
  (generic_decode_next_message cProtocol VariablePlaceholder
     decode_float_var decode_integer_var).

Lemma generic_decode_next_message_frame_failure v r e r' :
  parse_frame cProtocol v r = (Failure e, r') ->
  decode_next v r = (Failure e, r').
Proof.
  intros H. unfold generic_decode_next_message, bind.
  rewrite H. reflexivity.
Qed.

(** C8: when the next byte at a frame boundary is the End-of-stream tag,
    [decode_next_message] of both variants returns Eof and the reader has
    advanced past that one byte only. *)
Theorem eof_tag_returns_eof (b : byte) (rest : list byte) :
  tag_of_byte b = Eof cProtocol ->
  four_byte_encoding.decode_next_message cProtocol VariablePlaceholder
    decode_float_var decode_integer_var (b :: rest)
  = (Failure IRErrorCode_Eof, rest)
  /\ eight_byte_encoding.decode_next_message cProtocol VariablePlaceholder
       decode_float_var decode_integer_var (b :: rest)
     = (Failure IRErrorCode_Eof, rest).
Proof.
  intros H.
  unfold four_byte_encoding.decode_next_message,
    eight_byte_encoding.decode_next_message.
  split; apply generic_decode_next_message_frame_failure;
    apply parse_frame_eof; exact H.
Qed.

(** C9: a frame whose first byte carries a tag that is neither the EOF
    tag, nor a variable tag of the variant, nor a logtype-length tag yields
    Corrupted.  More generally, after the variable records the tag must be
    a logtype-length tag, and after the logtype record the tag must be a
    timestamp tag of the variant: any other tag yields Corrupted. *)
Theorem unexpected_tag_is_corrupted (v : encoded_variable_t) (b : byte)
    (rest : list byte) :
  tag_of_byte b <> Eof cProtocol ->
  (is_variable_tag cProtocol v (tag_of_byte b) = None ->
   is_logtype_tag cProtocol (tag_of_byte b) = false ->
   decode_next v (b :: rest)
   = (Failure IRErrorCode_Corrupted_IR, rest))
  /\ (forall tag E D r',
         handle_variables cProtocol v (tag_of_byte b) [] [] rest
         = (Success (tag, E, D), r') ->
         is_variable_tag cProtocol v tag = None
         /\ (is_logtype_tag cProtocol tag = false ->
             decode_next v (b :: rest)
             = (Failure IRErrorCode_Corrupted_IR, r')))
  /\ (forall tag E D r1 logtype b' r2,
         handle_variables cProtocol v (tag_of_byte b) [] [] rest
         = (Success (tag, E, D), r1) ->
         parse_logtype cProtocol tag r1 = (Success logtype, b' :: r2) ->
         is_timestamp_tag cProtocol v (tag_of_byte b') = false ->
         decode_next v (b :: rest)
         = (Failure IRErrorCode_Corrupted_IR, r2)).
Proof.
  intros Hne. split; [|split].
  - intros Hvar Hlog. apply generic_decode_next_message_frame_failure.
    eapply parse_frame_bad_logtype_tag; try eassumption.
    rewrite handle_variables_step, Hvar. reflexivity.
  - intros tag E D r' Hvars. split.
    + eapply handle_variables_ends; eassumption.
    + intros Hlog. apply generic_decode_next_message_frame_failure.
      eapply parse_frame_bad_logtype_tag; eassumption.
  - intros tag E D r1 logtype b' r2 Hvars Hlog Hts.
    apply generic_decode_next_message_frame_failure.
    eapply parse_frame_bad_timestamp_tag; eassumption.
Qed.

End AssemblerTagProperties.


(** ** Properties of the message assembler: decode errors *)

Section AssemblerDecodeErrors.

Variable cProtocol : cProtocol_t.
Variable VariablePlaceholder : VariablePlaceholder_t.
Variable decode_float_var : encoded_variable_t -> Z -> option (list byte).
Variable decode_integer_var : encoded_variable_t -> Z -> option (list byte).

Local Abbreviation decode_next :=
  (generic_decode_next_message cProtocol VariablePlaceholder
     decode_float_var decode_integer_var).
Local Abbreviation render_message :=
  (decode_message VariablePlaceholder decode_float_var decode_integer_var).

Lemma decode_error_after_framing v r :
  fst (decode_next v r) = Failure IRErrorCode_Decode_Error
  <-> exists logtype encoded_vars dict_vars timestamp r',
      parse_frame cProtocol v r
      = (Success (logtype, encoded_vars, dict_vars, timestamp), r')
      /\ render_message v logtype encoded_vars dict_vars = None.
Proof.
  unfold generic_decode_next_message, bind.
  destruct (parse_frame cProtocol v r) as [[[[[L E] D] ts]|e] r'] eqn:F.
  - destruct (render_message v L E D) as [m|] eqn:M; cbn [fst fail ret].
    + split; [discriminate|].
      intros (L' & E' & D' & ts' & r'' & Heq & Hnone).
      injection Heq as <- <- <- <- <-. congruence.
    + split; [|reflexivity]. intros _. exists L, E, D, ts, r'. tauto.
  - cbn [fst]. split.
    + intros H. injection H as ->.
      exfalso. eapply no_decode_error_parse_frame; [eassumption | reflexivity].
    + intros (L' & E' & D' & ts' & r'' & Heq & _). discriminate.
Qed.

End AssemblerDecodeErrors.


(** * Further properties *)

(** ** Big-endian serialisation and [decode_int] *)

Lemma be_sum_from_le_combine (bs : list byte) : forall W i,
  (i + length bs = W)%nat -> be_sum_from W i bs = le_combine (rev bs).
Proof.
  induction bs as [|b bs IH]; intros W i HW; cbn [be_sum_from rev].
  - reflexivity.
  - cbn [length] in HW. rewrite (IH W (S i)) by lia.
    rewrite le_combine_app, Z.lor_comm, length_rev.
    rewrite lor_shiftl_add; [| lia |].
    + replace (W - 1 - i)%nat with (length bs) by lia.
      rewrite le_combine_cons. change (le_combine []) with 0.
      replace (Z.of_nat (length bs) * 8) with (8 * Z.of_nat (length bs)) by lia.
      rewrite Z.pow_mul_r by lia. change (2 ^ 8) with 256. lia.
    + pose proof (le_combine_range (rev bs)) as H.
      rewrite length_rev in H.
      replace (Z.of_nat (length bs) * 8) with (8 * Z.of_nat (length bs)) by lia.
      exact H.
Qed.

Lemma big_endian_value_rev (bs : list byte) :
  big_endian_value (rev bs) = le_combine bs.
Proof.
  unfold big_endian_value. rewrite be_sum_from_le_combine by lia.
  rewrite rev_involutive. reflexivity.
Qed.

Lemma length_big_endian_bytes (W : nat) (x : Z) :
  length (big_endian_bytes W x) = W.
Proof. unfold big_endian_bytes. rewrite length_rev. apply length_le_split. Qed.

Lemma big_endian_value_bytes (W : nat) (x : Z) :
  big_endian_value (big_endian_bytes W x) = x mod 2 ^ (8 * Z.of_nat W).
Proof.
  unfold big_endian_bytes. rewrite big_endian_value_rev, le_combine_split.
  f_equal. f_equal. lia.
Qed.

Lemma big_endian_bytes_value (bs : list byte) :
  big_endian_bytes (length bs) (big_endian_value bs) = bs.
Proof.
  unfold big_endian_bytes.
  rewrite <- (rev_involutive bs) at 2. rewrite big_endian_value_rev.
  rewrite <- (length_rev bs), split_le_combine. apply rev_involutive.
Qed.

Lemma big_endian_bytes_mod (W : nat) (x : Z) :
  big_endian_bytes W (x mod 2 ^ (8 * Z.of_nat W)) = big_endian_bytes W x.
Proof.
  unfold big_endian_bytes. f_equal.
  rewrite (le_split_mod x W). f_equal. f_equal. f_equal. lia.
Qed.

Lemma interpret_mod (t : integer_t) (x : Z) :
  interpret t (x mod 2 ^ bits t) = convert t x.
Proof.
  unfold convert, interpret, to_signed, to_unsigned.
  destruct t; cbn [is_signed]; width_consts;
    repeat match goal with
      | |- context [Z.ltb ?a ?b] => destruct (Z.ltb_spec a b)
      end;
    Z.div_mod_to_equations; lia.
Qed.

Lemma interpret_congruent (t : integer_t) (x : Z) :
  0 <= x < 2 ^ bits t -> (interpret t x) mod 2 ^ bits t = x.
Proof.
  unfold interpret.
  destruct t; cbn [is_signed]; width_consts; intros H;
    repeat match goal with
      | |- context [Z.ltb ?a ?b] => destruct (Z.ltb_spec a b)
      end;
    Z.div_mod_to_equations; lia.
Qed.

Lemma convert_in_range (t : integer_t) (x : Z) :
  in_range t x -> convert t x = x.
Proof.
  unfold in_range, convert, to_signed, to_unsigned.
  destruct t; cbn [is_signed]; width_consts; intros H;
    Z.div_mod_to_equations; lia.
Qed.

Lemma interpret_in_range (t : integer_t) (bs : list byte) :
  length bs = sizeof t -> in_range t (interpret t (big_endian_value bs)).
Proof. intros H. apply (interpret_value_range t bs H). Qed.

Lemma decode_int_big_endian_bytes (t : integer_t) (x : Z) (rest : list byte) :
  decode_int t (big_endian_bytes (sizeof t) x ++ rest)
  = (Some (convert t x), rest).
Proof.
  rewrite decode_int_reads by apply length_big_endian_bytes.
  rewrite big_endian_value_bytes. fold (bits t).
  rewrite interpret_mod. reflexivity.
Qed.

(** X1: [decode_int] inverts the big-endian serialisation.  The bytes of a
    value of the type decode to that value, and the bytes [decode_int]
    accepts are the serialisation of the value it returns, which is a value
    of the type. *)
Theorem decode_int_round_trip (t : integer_t) :
  (forall x rest,
      in_range t x ->
      decode_int t (big_endian_bytes (sizeof t) x ++ rest) = (Some x, rest))
  /\ (forall bs rest,
         length bs = sizeof t ->
         exists x,
           decode_int t (bs ++ rest) = (Some x, rest)
           /\ in_range t x
           /\ big_endian_bytes (sizeof t) x = bs).
Proof.
  split.
  - intros x rest Hx. rewrite decode_int_big_endian_bytes.
    rewrite convert_in_range by exact Hx. reflexivity.
  - intros bs rest Hlen.
    exists (interpret t (big_endian_value bs)).
    split; [apply decode_int_reads; exact Hlen|].
    split; [apply interpret_in_range; exact Hlen|].
    rewrite <- big_endian_bytes_mod. fold (bits t).
    rewrite interpret_congruent.
    + rewrite <- Hlen. apply big_endian_bytes_value.
    + pose proof (big_endian_value_range bs) as H. rewrite Hlen in H. exact H.
Qed.

(** What a successful [decode_int] has read. *)
Lemma decode_int_success (t : integer_t) (r : Reader) (x : Z) (r' : Reader) :
  decode_int t r = (Some x, r') ->
  exists bs,
    r = bs ++ r' /\ length bs = sizeof t
    /\ x = interpret t (big_endian_value bs).
Proof.
  intros H.
  destruct (Nat.lt_ge_cases (length r) (sizeof t)) as [Hlt|Hge].
  - rewrite decode_int_fails_reader in H by exact Hlt. discriminate.
  - exists (firstn (sizeof t) r).
    assert (length (firstn (sizeof t) r) = sizeof t) as Hlen
        by (rewrite length_firstn; lia).
    rewrite <- (firstn_skipn (sizeof t) r) in H at 1.
    rewrite decode_int_reads in H by exact Hlen.
    injection H as <- <-.
    rewrite firstn_skipn. auto.
Qed.


(** ** Decoders as sequences of exact reads *)

Lemma exact_at_ext {A : Type} (n : nat) (m m' : Decoder A) (r : Reader) :
  (forall s, m s = m' s) -> exact_at n m r -> exact_at n m' r.
Proof.
  intros Hext H a r' Hres. rewrite <- Hext in Hres.
  destruct (H a r' Hres) as (c & Hr & Hn & Hloc & Htr).
  exists c. repeat split; try assumption.
  - intros rest. rewrite <- Hext. apply Hloc.
  - intros p q Hc Hq. rewrite <- Hext. eapply Htr; eassumption.
Qed.

Lemma exact_at_weaken {A : Type} (n n' : nat) (m : Decoder A) (r : Reader) :
  (n' <= n)%nat -> exact_at n m r -> exact_at n' m r.
Proof.
  intros Hle H a r' Hres.
  destruct (H a r' Hres) as (c & Hr & Hn & Hloc & Htr).
  exists c. repeat split; try assumption. lia.
Qed.

Lemma exact_at_ret {A : Type} (a : A) (r : Reader) : exact_at 0 (ret a) r.
Proof.
  intros a' r' H. injection H as <- <-. exists [].
  split; [reflexivity|]. split; [cbn; lia|]. split; [reflexivity|].
  intros p q Hc Hq. symmetry in Hc. apply app_eq_nil in Hc as [_ Hc].
  contradiction.
Qed.

Lemma exact_at_fail {A : Type} (n : nat) (e : IRErrorCode) (r : Reader) :
  exact_at n (@fail A e) r.
Proof. intros a r' H. discriminate. Qed.

Lemma exact_at_bind {A B : Type} (n k : nat) (m : Decoder A)
    (f : A -> Decoder B) (r : Reader) :
  exact_at n m r ->
  (forall a r1, m r = (Success a, r1) -> exact_at k (f a) r1) ->
  exact_at (n + k) (bind m f) r.
Proof.
  intros Hm Hf b r' Hres. unfold bind in Hres.
  destruct (m r) as [[a|e] r1] eqn:Em; [|discriminate].
  destruct (Hm a r1 Em) as (c1 & Hr1 & Hn1 & Hloc1 & Htr1).
  destruct (Hf a r1 eq_refl b r' Hres) as (c2 & Hr2 & Hn2 & Hloc2 & Htr2).
  exists (c1 ++ c2). split; [|split; [|split]].
  - rewrite Hr1, Hr2. apply app_assoc.
  - rewrite length_app. lia.
  - intros rest. unfold bind. rewrite <- app_assoc, Hloc1. apply Hloc2.
  - intros p q Hc Hq. unfold bind.
    apply app_eq_app in Hc as [l [[H1 H2]|[H1 H2]]].
    + destruct l as [|x l].
      * rewrite app_nil_r in H1. subst p. cbn in H2. subst q.
        rewrite <- (app_nil_r c1), Hloc1.
        apply (Htr2 [] c2); [reflexivity | exact Hq].
      * pose proof (Htr1 p (x :: l) H1 ltac:(discriminate)) as Hp.
        destruct (m p) as [[a'|e'] rp]; cbn in Hp; [discriminate|].
        cbn. injection Hp as ->. reflexivity.
    + subst p. rewrite Hloc1. apply (Htr2 l q); assumption.
Qed.

Lemma exact_at_read_exact (n : Z) (r : Reader) :
  exact_at (Z.to_nat n) (or_incomplete (try_read_exact_length n)) r.
Proof.
  intros a r' H. unfold or_incomplete, try_read_exact_length in H.
  destruct (Z.ltb_spec (Z.of_nat (length r)) n) as [Hlt|Hge]; [discriminate|].
  injection H as <- <-.
  exists (firstn (Z.to_nat n) r).
  assert (length (firstn (Z.to_nat n) r) = Z.to_nat n) as Hlen
      by (rewrite length_firstn; lia).
  split; [symmetry; apply firstn_skipn|].
  split; [lia|]. split.
  - intros rest. unfold or_incomplete, try_read_exact_length.
    destruct (Z.ltb_spec (Z.of_nat (length (firstn (Z.to_nat n) r ++ rest))) n)
      as [H|H]; [rewrite length_app in H; lia|].
    rewrite firstn_app, skipn_app, Hlen, Nat.sub_diag.
    rewrite firstn_all2, skipn_all2 by lia.
    cbn. rewrite app_nil_r. reflexivity.
  - intros p q Hc Hq. unfold or_incomplete.
    rewrite try_read_exact_length_fails_reader; [reflexivity|].
    assert (length (p ++ q) = Z.to_nat n) as Hpq by (rewrite <- Hc; exact Hlen).
    rewrite length_app in Hpq. destruct q; [contradiction|]. cbn in Hpq. lia.
Qed.

Lemma exact_at_read_string (n : Z) (r : Reader) :
  exact_at 0 (or_incomplete (try_read_string n)) r.
Proof.
  apply (exact_at_weaken (Z.to_nat n)); [lia|]. apply exact_at_read_exact.
Qed.

Lemma exact_at_decode_int (t : integer_t) (r : Reader) :
  exact_at (sizeof t) (or_incomplete (decode_int t)) r.
Proof.
  intros a r' H. unfold or_incomplete in H.
  destruct (decode_int t r) as [[x|] r1] eqn:E; [|discriminate].
  injection H as <- <-.
  apply decode_int_success in E. destruct E as (bs & Hr & Hlen & Hx).
  exists bs. split; [exact Hr|]. split; [lia|]. split.
  - intros rest. unfold or_incomplete.
    rewrite decode_int_reads by exact Hlen. rewrite Hx. reflexivity.
  - intros p q Hc Hq. unfold or_incomplete.
    rewrite decode_int_fails_reader; [reflexivity|].
    rewrite <- Hlen, Hc, length_app. destruct q; [contradiction|]. cbn. lia.
Qed.

Lemma read_tag_success (r : Reader) (tag : Z) (r' : Reader) :
  read_tag r = (Success tag, r') ->
  exists b, r = b :: r' /\ tag = tag_of_byte b.
Proof.
  destruct r as [|b r]; [rewrite read_tag_nil; discriminate|].
  rewrite read_tag_cons. intros H. injection H as <- <-.
  exists b. auto.
Qed.

Lemma exact_at_read_tag (r : Reader) : exact_at 1 read_tag r.
Proof.
  intros a r' H. apply read_tag_success in H as (b & -> & ->).
  exists [b]. split; [reflexivity|]. split; [cbn; lia|]. split.
  - intros rest. apply read_tag_cons.
  - intros p q Hc Hq. destruct p as [|x p].
    + reflexivity.
    + injection Hc as _ Hc. symmetry in Hc.
      apply app_eq_nil in Hc as [_ Hc]. contradiction.
Qed.

Lemma exact_bind {A B : Type} (n k : nat) (m : Decoder A) (f : A -> Decoder B) :
  exact n m -> (forall a, exact k (f a)) -> exact (n + k) (bind m f).
Proof.
  intros Hm Hf r. apply exact_at_bind; [apply Hm|].
  intros a r1 _. apply Hf.
Qed.

Lemma exact_read_length (t : integer_t) :
  exact (sizeof t)
    (length <- or_incomplete (decode_int t) ;; ret (to_size_t length)).
Proof.
  intros r. replace (sizeof t) with (sizeof t + 0)%nat by lia.
  apply exact_at_bind; [apply exact_at_decode_int|].
  intros a r1 _. apply exact_at_ret.
Qed.

Lemma exact_read_delta (t : integer_t) :
  exact (sizeof t)
    (ts_delta <- or_incomplete (decode_int t) ;;
     ret (convert epoch_time_ms_t ts_delta)).
Proof.
  intros r. replace (sizeof t) with (sizeof t + 0)%nat by lia.
  apply exact_at_bind; [apply exact_at_decode_int|].
  intros a r1 _. apply exact_at_ret.
Qed.

(** ** Error codes *)

Lemma only_fails_ret {A : Type} (allowed : list IRErrorCode) (a : A) :
  only_fails allowed (ret a).
Proof. intros r e r' H. discriminate. Qed.

Lemma only_fails_fail {A : Type} (allowed : list IRErrorCode)
    (e : IRErrorCode) :
  In e allowed -> only_fails allowed (@fail A e).
Proof. intros He r e' r' H. injection H as <- _. exact He. Qed.

Lemma only_fails_bind {A B : Type} (allowed : list IRErrorCode)
    (m : Decoder A) (k : A -> Decoder B) :
  only_fails allowed m -> (forall a, only_fails allowed (k a)) ->
  only_fails allowed (bind m k).
Proof.
  intros Hm Hk r e r' H. unfold bind in H.
  destruct (m r) as [[a|e0] r0] eqn:E.
  - eapply Hk. eassumption.
  - injection H as <- _. eapply Hm. eassumption.
Qed.

Lemma only_fails_or_incomplete {A : Type} (allowed : list IRErrorCode)
    (read : Reader -> option A * Reader) :
  In IRErrorCode_Incomplete_IR allowed ->
  only_fails allowed (or_incomplete read).
Proof.
  intros Hin r e r' H. unfold or_incomplete in H.
  destruct (read r) as [[a|] r0]; [discriminate|].
  injection H as <- _. exact Hin.
Qed.

Lemma only_fails_more {A : Type} (allowed allowed' : list IRErrorCode)
    (m : Decoder A) :
  incl allowed allowed' -> only_fails allowed m -> only_fails allowed' m.
Proof. intros Hi Hm r e r' H. apply Hi. eapply Hm. eassumption. Qed.

Ltac only_fails :=
  repeat first
    [ apply only_fails_or_incomplete; cbn; tauto
    | apply only_fails_ret
    | apply only_fails_fail; cbn; tauto
    | apply only_fails_bind; [|intros ?]
    | match goal with
      | |- only_fails _ (if ?b then _ else _) => destruct b
      | |- only_fails _ (match ?x with (_, _) => _ end) => destruct x
      end ].


(** ** The wire format of the records *)

Lemma tag_of_tag_byte (tag : Z) :
  in_range encoded_tag_t tag -> tag_of_byte (tag_byte tag) = tag.
Proof.
  intros H. unfold tag_of_byte, tag_byte.
  rewrite byte.unsigned_of_Z. unfold byte.wrap.
  change (2 ^ 8) with (2 ^ bits encoded_tag_t).
  rewrite interpret_mod. apply convert_in_range. exact H.
Qed.

Lemma to_size_t_length (f : length_form) (s : list byte) :
  fits f s -> to_size_t (Z.of_nat (length s)) = Z.of_nat (length s).
Proof.
  unfold fits, in_range, to_size_t, to_unsigned, size_t_bits.
  change (2 ^ 64) with 18446744073709551616.
  destruct f; cbn [length_type is_signed]; width_consts; intros H;
    apply Z.mod_small; lia.
Qed.

Lemma read_length_prefixed (f : length_form) (s rest : list byte) :
  fits f s ->
  (n <- (length <- or_incomplete (decode_int (length_type f)) ;;
         ret (to_size_t length)) ;;
   or_incomplete (try_read_string n)) (length_prefixed f s ++ rest)
  = (Success s, rest).
Proof.
  intros Hfit. unfold length_prefixed, bind, ret, or_incomplete.
  rewrite <- app_assoc, decode_int_big_endian_bytes.
  rewrite convert_in_range by exact Hfit.
  rewrite (to_size_t_length f) by exact Hfit.
  unfold try_read_string. rewrite try_read_exact_length_app. reflexivity.
Qed.

Lemma nodup_nth_neq (l : list Z) (i j : nat) :
  NoDup l -> (i < length l)%nat -> (j < length l)%nat -> i <> j ->
  nth i l 0 <> nth j l 0.
Proof.
  intros Hnd Hi Hj Hne Heq. apply Hne.
  apply (proj1 (NoDup_nth l 0) Hnd i j Hi Hj Heq).
Qed.

Section WireFormat.

Variable cProtocol : cProtocol_t.

(** Two tags of the protocol, by their places in [protocol_tags]. *)
Lemma tags_differ (i j : nat) :
  tags_ok cProtocol -> (i < 13)%nat -> (j < 13)%nat -> i <> j ->
  nth i (protocol_tags cProtocol) 0 <> nth j (protocol_tags cProtocol) 0.
Proof.
  intros [Hnd _] Hi Hj Hne. apply nodup_nth_neq; assumption.
Qed.

Lemma tag_in_range (i : nat) :
  tags_ok cProtocol -> (i < 13)%nat ->
  in_range encoded_tag_t (nth i (protocol_tags cProtocol) 0).
Proof.
  intros [_ Hr] Hi.
  apply (proj1 (Forall_forall _ _) Hr). apply nth_In. exact Hi.
Qed.

Ltac tag_neq H i j :=
  exact (tags_differ i j H ltac:(lia) ltac:(lia) ltac:(lia)).

Ltac tag_range H i := exact (tag_in_range i H ltac:(lia)).

Lemma parse_logtype_form (f : length_form) (r : Reader) :
  NoDup [LogtypeStrLenUByte (Payload cProtocol);
         LogtypeStrLenUShort (Payload cProtocol);
         LogtypeStrLenInt (Payload cProtocol)] ->
  parse_logtype cProtocol (logtype_length_tag cProtocol f) r
  = (n <- (length <- or_incomplete (decode_int (length_type f)) ;;
           ret (to_size_t length)) ;;
     or_incomplete (try_read_string n)) r.
Proof.
  intros Hnd.
  pose proof (nodup_nth_neq _ 0 1 Hnd ltac:(cbn; lia) ltac:(cbn; lia)
                ltac:(lia)) as H01.
  pose proof (nodup_nth_neq _ 0 2 Hnd ltac:(cbn; lia) ltac:(cbn; lia)
                ltac:(lia)) as H02.
  pose proof (nodup_nth_neq _ 1 2 Hnd ltac:(cbn; lia) ltac:(cbn; lia)
                ltac:(lia)) as H12.
  cbn [nth] in H01, H02, H12.
  unfold parse_logtype. destruct f; cbn [logtype_length_tag length_type].
  - rewrite Z.eqb_refl. reflexivity.
  - destruct (Z.eqb_spec (LogtypeStrLenUShort (Payload cProtocol))
                (LogtypeStrLenUByte (Payload cProtocol))); [congruence|].
    rewrite Z.eqb_refl. reflexivity.
  - destruct (Z.eqb_spec (LogtypeStrLenInt (Payload cProtocol))
                (LogtypeStrLenUByte (Payload cProtocol))); [congruence|].
    destruct (Z.eqb_spec (LogtypeStrLenInt (Payload cProtocol))
                (LogtypeStrLenUShort (Payload cProtocol))); [congruence|].
    rewrite Z.eqb_refl. reflexivity.
Qed.

Lemma parse_dictionary_var_form (f : length_form) (r : Reader) :
  NoDup [VarStrLenUByte (Payload cProtocol);
         VarStrLenUShort (Payload cProtocol);
         VarStrLenInt (Payload cProtocol)] ->
  parse_dictionary_var cProtocol (dictionary_length_tag cProtocol f) r
  = (n <- (length <- or_incomplete (decode_int (length_type f)) ;;
           ret (to_size_t length)) ;;
     or_incomplete (try_read_string n)) r.
Proof.
  intros Hnd.
  pose proof (nodup_nth_neq _ 0 1 Hnd ltac:(cbn; lia) ltac:(cbn; lia)
                ltac:(lia)) as H01.
  pose proof (nodup_nth_neq _ 0 2 Hnd ltac:(cbn; lia) ltac:(cbn; lia)
                ltac:(lia)) as H02.
  pose proof (nodup_nth_neq _ 1 2 Hnd ltac:(cbn; lia) ltac:(cbn; lia)
                ltac:(lia)) as H12.
  cbn [nth] in H01, H02, H12.
  unfold parse_dictionary_var.
  destruct f; cbn [dictionary_length_tag length_type].
  - rewrite Z.eqb_refl. reflexivity.
  - destruct (Z.eqb_spec (VarStrLenUByte (Payload cProtocol))
                (VarStrLenUShort (Payload cProtocol))); [congruence|].
    rewrite Z.eqb_refl. reflexivity.
  - destruct (Z.eqb_spec (VarStrLenUByte (Payload cProtocol))
                (VarStrLenInt (Payload cProtocol))); [congruence|].
    destruct (Z.eqb_spec (VarStrLenUShort (Payload cProtocol))
                (VarStrLenInt (Payload cProtocol))); [congruence|].
    rewrite Z.eqb_refl. reflexivity.
Qed.

Lemma exact_read_prefixed (t : integer_t) :
  exact (sizeof t)
    (n <- (length <- or_incomplete (decode_int t) ;; ret (to_size_t length)) ;;
     or_incomplete (try_read_string n)).
Proof.
  replace (sizeof t) with (sizeof t + 0)%nat by lia.
  apply exact_bind; [apply exact_read_length|].
  intros n r. apply exact_at_read_string.
Qed.

Lemma exact_parse_logtype (tag : Z) : exact 1 (parse_logtype cProtocol tag).
Proof.
  unfold parse_logtype. change 1%nat with (1 + 0)%nat.
  apply exact_bind; [|intros n r; apply exact_at_read_string].
  intros r.
  repeat match goal with
         | |- exact_at _ (if ?b then _ else _) _ => destruct b
         end;
    try apply exact_at_fail;
    match goal with
    | |- exact_at _ (bind (or_incomplete (decode_int ?t)) _) _ =>
        apply (exact_at_weaken (sizeof t)); [cbn; lia|];
        apply exact_read_length
    end.
Qed.

Lemma exact_parse_dictionary_var (tag : Z) :
  exact 1 (parse_dictionary_var cProtocol tag).
Proof.
  unfold parse_dictionary_var. change 1%nat with (1 + 0)%nat.
  apply exact_bind; [|intros n r; apply exact_at_read_string].
  intros r.
  repeat match goal with
         | |- exact_at _ (if ?b then _ else _) _ => destruct b
         end;
    try apply exact_at_fail;
    match goal with
    | |- exact_at _ (bind (or_incomplete (decode_int ?t)) _) _ =>
        apply (exact_at_weaken (sizeof t)); [cbn; lia|];
        apply exact_read_length
    end.
Qed.

(** When a decoder that reads exactly has consumed [consumed], cutting
    [consumed] short gives Incomplete. *)
Lemma exact_truncated {A : Type} (n : nat) (m : Decoder A)
    (consumed rest : list byte) (a : A) (p q : list byte) :
  exact n m ->
  m (consumed ++ rest) = (Success a, rest) ->
  consumed = p ++ q -> q <> [] ->
  fst (m p) = Failure IRErrorCode_Incomplete_IR.
Proof.
  intros Hex Hres Hc Hq.
  destruct (Hex _ a rest Hres) as (c & Hr & _ & _ & Htr).
  apply app_inv_tail in Hr. subst c. eapply Htr; eassumption.
Qed.

(** X2: [parse_logtype] inverts the logtype record in each of its three
    length forms.  For a logtype whose length is a value of the length type,
    the length in big-endian bytes followed by the logtype parses to the
    logtype, with the reader left just behind it; and any strict prefix of
    these bytes parses to Incomplete. *)
Theorem parse_logtype_round_trip (f : length_form) (logtype rest : list byte) :
  NoDup [LogtypeStrLenUByte (Payload cProtocol);
         LogtypeStrLenUShort (Payload cProtocol);
         LogtypeStrLenInt (Payload cProtocol)] ->
  fits f logtype ->
  parse_logtype cProtocol (logtype_length_tag cProtocol f)
    (length_prefixed f logtype ++ rest)
  = (Success logtype, rest)
  /\ (forall p q,
         length_prefixed f logtype = p ++ q -> q <> [] ->
         fst (parse_logtype cProtocol (logtype_length_tag cProtocol f) p)
         = Failure IRErrorCode_Incomplete_IR).
Proof.
  intros Hnd Hfit.
  assert (parse_logtype cProtocol (logtype_length_tag cProtocol f)
            (length_prefixed f logtype ++ rest) = (Success logtype, rest))
    as Hres
      by (rewrite parse_logtype_form by exact Hnd;
          apply read_length_prefixed; exact Hfit).
  split; [exact Hres|].
  intros p q Hc Hq.
  apply (exact_truncated 1 _ _ rest logtype p q
           (exact_parse_logtype _) Hres Hc Hq).
Qed.

(** X3: [parse_dictionary_var] inverts the dictionary-variable record in
    each of its three length forms, and any strict prefix of the record's
    payload parses to Incomplete. *)
Theorem parse_dictionary_var_round_trip (f : length_form)
    (dict_var rest : list byte) :
  NoDup [VarStrLenUByte (Payload cProtocol);
         VarStrLenUShort (Payload cProtocol);
         VarStrLenInt (Payload cProtocol)] ->
  fits f dict_var ->
  parse_dictionary_var cProtocol (dictionary_length_tag cProtocol f)
    (length_prefixed f dict_var ++ rest)
  = (Success dict_var, rest)
  /\ (forall p q,
         length_prefixed f dict_var = p ++ q -> q <> [] ->
         fst (parse_dictionary_var cProtocol
                (dictionary_length_tag cProtocol f) p)
         = Failure IRErrorCode_Incomplete_IR).
Proof.
  intros Hnd Hfit.
  assert (parse_dictionary_var cProtocol (dictionary_length_tag cProtocol f)
            (length_prefixed f dict_var ++ rest) = (Success dict_var, rest))
    as Hres
      by (rewrite parse_dictionary_var_form by exact Hnd;
          apply read_length_prefixed; exact Hfit).
  split; [exact Hres|].
  intros p q Hc Hq.
  apply (exact_truncated 1 _ _ rest dict_var p q
           (exact_parse_dictionary_var _) Hres Hc Hq).
Qed.

(** *** Tags of the records *)

Lemma tags_differ_b (i j : nat) :
  tags_ok cProtocol ->
  ((i <? 13) && (j <? 13) && negb (i =? j))%nat = true ->
  nth i (protocol_tags cProtocol) 0 <> nth j (protocol_tags cProtocol) 0.
Proof.
  intros H Hb.
  apply andb_true_iff in Hb as [Hb Hne]. apply andb_true_iff in Hb as [Hi Hj].
  apply Nat.ltb_lt in Hi, Hj. apply negb_true_iff, Nat.eqb_neq in Hne.
  apply tags_differ; assumption.
Qed.

Ltac tag_neq_search H i j :=
  first
    [ exact (tags_differ_b i j H eq_refl)
    | lazymatch j with
      | 12%nat =>
          lazymatch i with
          | 12%nat => fail
          | _ => tag_neq_search H (S i) 0%nat
          end
      | _ => tag_neq_search H i (S j)
      end ].

(** Decides the comparisons of tags in the goal from [H : tags_ok]. *)
Ltac tag_cases H :=
  repeat rewrite Z.eqb_refl;
  repeat match goal with
    | |- context [Z.eqb ?a ?b] =>
        let E := fresh "E" in
        destruct (Z.eqb_spec a b) as [E|E];
        [exfalso; revert E; tag_neq_search H 0%nat 0%nat|]
    end.

Lemma nodup_three (a b c : Z) :
  a <> b -> a <> c -> b <> c -> NoDup [a; b; c].
Proof.
  intros Hab Hac Hbc. repeat constructor; cbn; intuition congruence.
Qed.

Lemma logtype_tags_nodup :
  tags_ok cProtocol ->
  NoDup [LogtypeStrLenUByte (Payload cProtocol);
         LogtypeStrLenUShort (Payload cProtocol);
         LogtypeStrLenInt (Payload cProtocol)].
Proof. intros H. apply nodup_three; tag_neq_search H 0%nat 0%nat. Qed.

Lemma dictionary_tags_nodup :
  tags_ok cProtocol ->
  NoDup [VarStrLenUByte (Payload cProtocol);
         VarStrLenUShort (Payload cProtocol);
         VarStrLenInt (Payload cProtocol)].
Proof. intros H. apply nodup_three; tag_neq_search H 0%nat 0%nat. Qed.

Lemma is_variable_tag_dictionary (v : encoded_variable_t) (f : length_form) :
  is_variable_tag cProtocol v (dictionary_length_tag cProtocol f) = Some false.
Proof.
  unfold is_variable_tag.
  destruct f; cbn [dictionary_length_tag]; rewrite Z.eqb_refl;
    rewrite ?orb_true_r; reflexivity.
Qed.

Lemma is_variable_tag_encoded (v : encoded_variable_t) :
  tags_ok cProtocol ->
  is_variable_tag cProtocol v (encoded_variable_tag cProtocol v) = Some true.
Proof.
  intros H. unfold is_variable_tag.
  destruct v; cbn [encoded_variable_tag]; tag_cases H; reflexivity.
Qed.

Lemma is_variable_tag_logtype (v : encoded_variable_t) (f : length_form) :
  tags_ok cProtocol ->
  is_variable_tag cProtocol v (logtype_length_tag cProtocol f) = None.
Proof.
  intros H. unfold is_variable_tag.
  destruct v, f; cbn [logtype_length_tag]; tag_cases H; reflexivity.
Qed.

Lemma is_logtype_tag_other_encoded (v : encoded_variable_t) :
  tags_ok cProtocol ->
  is_logtype_tag cProtocol (VarFourByteEncoding (Payload cProtocol)) = false
  /\ is_logtype_tag cProtocol (VarEightByteEncoding (Payload cProtocol))
     = false
  /\ is_variable_tag cProtocol four_byte_encoded_variable_t
       (VarEightByteEncoding (Payload cProtocol)) = None
  /\ is_variable_tag cProtocol eight_byte_encoded_variable_t
       (VarFourByteEncoding (Payload cProtocol)) = None.
Proof.
  intros H. unfold is_logtype_tag, is_variable_tag.
  repeat split; tag_cases H; reflexivity.
Qed.

(** *** Timestamps *)

Lemma in_range_epoch_time (t : integer_t) (x : Z) :
  t <> uint64_t -> in_range t x -> in_range epoch_time_ms_t x.
Proof.
  unfold in_range, epoch_time_ms_t.
  destruct t; cbn [is_signed]; width_consts; intros Ht H; try lia; congruence.
Qed.

Lemma parse_timestamp_record (v : encoded_variable_t) (t : integer_t)
    (timestamp : Z) (rest : list byte) :
  tags_ok cProtocol ->
  timestamp_type_ok v t ->
  in_range t timestamp ->
  parse_timestamp cProtocol v (timestamp_tag cProtocol t)
    (big_endian_bytes (sizeof t) timestamp ++ rest)
  = (Success timestamp, rest).
Proof.
  intros H Ht Hr.
  destruct v; cbn [timestamp_type_ok] in Ht.
  - subst t. cbn [parse_timestamp timestamp_tag]. rewrite Z.eqb_refl.
    cbn [negb]. unfold or_incomplete.
    rewrite (decode_int_big_endian_bytes int64_t).
    rewrite convert_in_range by exact Hr. reflexivity.
  - destruct Ht as [-> | [-> | ->]]; cbn [parse_timestamp timestamp_tag];
      tag_cases H; unfold bind, ret, or_incomplete;
      rewrite decode_int_big_endian_bytes;
      match goal with
      | |- context [convert ?t timestamp] =>
          rewrite (convert_in_range t timestamp) by exact Hr
      end;
      rewrite convert_in_range
        by (eapply in_range_epoch_time; [|exact Hr]; discriminate);
      reflexivity.
Qed.

Lemma exact_parse_timestamp (v : encoded_variable_t) (tag : Z) :
  exact (timestamp_min_bytes v) (parse_timestamp cProtocol v tag).
Proof.
  intros r. destruct v; cbn [parse_timestamp timestamp_min_bytes].
  - destruct (negb (TimestampVal (Payload cProtocol) =? tag));
      [apply exact_at_fail | apply (exact_at_decode_int epoch_time_ms_t)].
  - repeat match goal with
           | |- exact_at _ (if ?b then _ else _) _ => destruct b
           end;
      try apply exact_at_fail;
      match goal with
      | |- exact_at _ (bind (or_incomplete (decode_int ?t)) _) _ =>
          apply (exact_at_weaken (sizeof t)); [cbn; lia|];
          apply exact_read_delta
      end.
Qed.

(** *** The loop over the variable records *)

Lemma exact_variable_record v tag is_encoded_var E D :
  exact 0 (variable_record cProtocol v tag is_encoded_var E D).
Proof.
  unfold variable_record. change 0%nat with (0 + (0 + 0))%nat.
  apply exact_bind.
  - destruct is_encoded_var.
    + intros r. apply (exact_at_weaken
                         (sizeof (encoded_variable_int v) + 0)); [lia|].
      apply exact_at_bind; [apply exact_at_decode_int|].
      intros a r1 _. apply exact_at_ret.
    + intros r. apply (exact_at_weaken (1 + 0)); [lia|].
      apply exact_at_bind; [apply exact_parse_dictionary_var|].
      intros a r1 _. apply exact_at_ret.
  - intros [E' D'] r. apply (exact_at_weaken (1 + 0)); [lia|].
    apply exact_at_bind; [apply exact_at_read_tag|].
    intros a r1 _. apply exact_at_ret.
Qed.

Lemma handle_variables_as_bind v tag E D (s : Reader) :
  (match is_variable_tag cProtocol v tag with
   | None => ret (tag, E, D)
   | Some is_encoded_var =>
       bind (variable_record cProtocol v tag is_encoded_var E D)
         (fun x =>
            match x with
            | (tag', E', D') => handle_variables cProtocol v tag' E' D'
            end)
   end) s
  = handle_variables cProtocol v tag E D s.
Proof.
  rewrite handle_variables_step.
  destruct (is_variable_tag cProtocol v tag) as [b|]; [|reflexivity].
  unfold bind.
  destruct (variable_record cProtocol v tag b E D s)
    as [[[[tag' E'] D']|e] r']; reflexivity.
Qed.

Lemma exact_handle_variables v : forall r tag E D,
  exact_at 0 (handle_variables cProtocol v tag E D) r.
Proof.
  intros r. remember (length r) as n eqn:Hn. revert r Hn.
  induction n as [n IH] using lt_wf_ind. intros r Hn tag E D.
  eapply exact_at_ext; [intros s; apply handle_variables_as_bind|].
  destruct (is_variable_tag cProtocol v tag) as [b|]; [|apply exact_at_ret].
  change 0%nat with (0 + 0)%nat.
  apply exact_at_bind; [apply exact_variable_record|].
  intros [[tag' E'] D'] r1 Hrec.
  apply variable_record_shrinks in Hrec.
  apply (IH (length r1)); [lia | reflexivity].
Qed.

Lemma read_tag_then_handle v E D (s : Reader) :
  match (encoded_tag' <- read_tag ;; ret (encoded_tag', E, D)) s with
  | (Failure e, r') => (Failure e, r')
  | (Success (tag', E', D'), r') => handle_variables cProtocol v tag' E' D' r'
  end
  = (tag <- read_tag ;; handle_variables cProtocol v tag E D) s.
Proof.
  unfold bind, ret. destruct (read_tag s) as [[t|e] r]; reflexivity.
Qed.

Lemma bind_success {A B : Type} (m : Decoder A) (k : A -> Decoder B)
    (r : Reader) (a : A) (r' : Reader) :
  m r = (Success a, r') -> bind m k r = k a r'.
Proof. intros H. unfold bind. rewrite H. reflexivity. Qed.

Lemma variable_record_encoded v tag E D (n : Z) (s : Reader) :
  in_range (encoded_variable_int v) n ->
  variable_record cProtocol v tag true E D
    (big_endian_bytes (sizeof (encoded_variable_int v)) n ++ s)
  = (encoded_tag' <- read_tag ;; ret (encoded_tag', E ++ [n], D)) s.
Proof.
  intros Hn. unfold variable_record.
  rewrite (bind_success _ _ _ (E ++ [n], D) s); [reflexivity|].
  rewrite (bind_success _ _ _ n s); [reflexivity|].
  unfold or_incomplete. rewrite decode_int_big_endian_bytes.
  rewrite convert_in_range by exact Hn. reflexivity.
Qed.

Lemma variable_record_dictionary v E D (f : length_form) (x : list byte)
    (s : Reader) :
  tags_ok cProtocol ->
  fits f x ->
  variable_record cProtocol v (dictionary_length_tag cProtocol f) false E D
    (length_prefixed f x ++ s)
  = (encoded_tag' <- read_tag ;; ret (encoded_tag', E, D ++ [x])) s.
Proof.
  intros H Hx. unfold variable_record.
  rewrite (bind_success _ _ _ (E, D ++ [x]) s); [reflexivity|].
  rewrite (bind_success _ _ _ x s); [reflexivity|].
  rewrite parse_dictionary_var_form.
  - apply read_length_prefixed. exact Hx.
  - apply dictionary_tags_nodup. exact H.
Qed.

(** The variable records of a frame, up to the tag [b] that ends them. *)
Lemma handle_variables_records (v : encoded_variable_t) (xs : list variable)
    (b : byte) (rest : list byte) :
  tags_ok cProtocol ->
  Forall (variable_ok v) xs ->
  is_variable_tag cProtocol v (tag_of_byte b) = None ->
  forall E D,
    (tag <- read_tag ;; handle_variables cProtocol v tag E D)
      (concat (map (variable_bytes cProtocol v) xs) ++ b :: rest)
    = (Success (tag_of_byte b, E ++ encoded_values xs,
                D ++ dictionary_values xs), rest).
Proof.
  intros H Hok Hend. induction Hok as [|x xs Hx _ IH]; intros E D.
  - cbn [map concat app encoded_values dictionary_values].
    unfold bind. rewrite read_tag_cons, handle_variables_step, Hend.
    rewrite !app_nil_r. reflexivity.
  - cbn [map concat]. rewrite <- app_assoc.
    destruct x as [n|f s]; cbn [variable_bytes variable_ok] in *.
    + cbn [app encoded_values dictionary_values].
      unfold bind at 1. rewrite read_tag_cons.
      rewrite tag_of_tag_byte
        by (destruct v; cbn [encoded_variable_tag];
            [tag_range H 2%nat | tag_range H 1%nat]).
      rewrite handle_variables_step, is_variable_tag_encoded by exact H.
      rewrite variable_record_encoded by exact Hx.
      rewrite read_tag_then_handle, IH.
      rewrite <- !app_assoc. reflexivity.
    + cbn [app encoded_values dictionary_values].
      unfold bind at 1. rewrite read_tag_cons.
      rewrite tag_of_tag_byte
        by (destruct f; cbn [dictionary_length_tag];
            [tag_range H 3%nat | tag_range H 4%nat | tag_range H 5%nat]).
      rewrite handle_variables_step, is_variable_tag_dictionary.
      rewrite variable_record_dictionary by assumption.
      rewrite read_tag_then_handle, IH.
      rewrite <- !app_assoc. reflexivity.
Qed.

(** *** Frames *)

Lemma frame_starts_with_tag (v : encoded_variable_t) (xs : list variable)
    (f : length_form) (s : list byte) :
  tags_ok cProtocol ->
  exists b s',
    concat (map (variable_bytes cProtocol v) xs)
    ++ tag_byte (logtype_length_tag cProtocol f) :: s = b :: s'
    /\ tag_of_byte b <> Eof cProtocol.
Proof.
  intros H. destruct xs as [|x xs].
  - cbn [map concat app]. eexists. eexists. split; [reflexivity|].
    rewrite tag_of_tag_byte
      by (destruct f; cbn [logtype_length_tag];
          [tag_range H 6%nat | tag_range H 7%nat | tag_range H 8%nat]).
    destruct f; cbn [logtype_length_tag]; tag_neq_search H 0%nat 0%nat.
  - cbn [map concat]. rewrite <- app_assoc.
    destruct x as [n|g x]; cbn [variable_bytes app].
    + eexists. eexists. split; [reflexivity|].
      rewrite tag_of_tag_byte
        by (destruct v; cbn [encoded_variable_tag];
            [tag_range H 2%nat | tag_range H 1%nat]).
      destruct v; cbn [encoded_variable_tag]; tag_neq_search H 0%nat 0%nat.
    + eexists. eexists. split; [reflexivity|].
      rewrite tag_of_tag_byte
        by (destruct g; cbn [dictionary_length_tag];
            [tag_range H 3%nat | tag_range H 4%nat | tag_range H 5%nat]).
      destruct g; cbn [dictionary_length_tag]; tag_neq_search H 0%nat 0%nat.
Qed.

Lemma parse_frame_frame_bytes (v : encoded_variable_t) (xs : list variable)
    (f : length_form) (logtype : list byte) (t : integer_t) (timestamp : Z)
    (rest : list byte) :
  tags_ok cProtocol ->
  Forall (variable_ok v) xs ->
  fits f logtype ->
  timestamp_type_ok v t ->
  in_range t timestamp ->
  parse_frame cProtocol v
    (frame_bytes cProtocol v xs f logtype t timestamp ++ rest)
  = (Success (logtype, encoded_values xs, dictionary_values xs, timestamp),
     rest).
Proof.
  intros H Hxs Hfit Ht Hts. unfold frame_bytes.
  rewrite <- app_assoc. cbn [app]. rewrite <- app_assoc. cbn [app].
  set (tail := length_prefixed f logtype
               ++ tag_byte (timestamp_tag cProtocol t)
                  :: big_endian_bytes (sizeof t) timestamp ++ rest).
  assert (tag_of_byte (tag_byte (logtype_length_tag cProtocol f))
          = logtype_length_tag cProtocol f) as Htag
      by (apply tag_of_tag_byte; destruct f; cbn [logtype_length_tag];
          [tag_range H 6%nat | tag_range H 7%nat | tag_range H 8%nat]).
  pose proof (handle_variables_records v xs
                (tag_byte (logtype_length_tag cProtocol f)) tail H Hxs
                ltac:(rewrite Htag; apply is_variable_tag_logtype; exact H)
                [] []) as Hvars.
  destruct (frame_starts_with_tag v xs f tail H) as (b & s' & Hs & Hne).
  rewrite Hs in Hvars |- *.
  unfold bind at 1 in Hvars. rewrite read_tag_cons in Hvars.
  rewrite parse_frame_cons.
  destruct (Z.eqb_spec (Eof cProtocol) (tag_of_byte b)); [congruence|].
  rewrite (bind_success _ _ _ _ _ Hvars). rewrite Htag.
  subst tail.
  rewrite (bind_success _ _ _ logtype
             (tag_byte (timestamp_tag cProtocol t)
              :: big_endian_bytes (sizeof t) timestamp ++ rest)).
  - rewrite (bind_success _ _ _ _ _ (read_tag_cons _ _)).
    rewrite tag_of_tag_byte.
    + rewrite (bind_success _ _ _ timestamp rest); [reflexivity|].
      apply parse_timestamp_record; assumption.
    + destruct v; cbn [timestamp_type_ok] in Ht.
      * subst t. cbn [timestamp_tag]. tag_range H 9%nat.
      * destruct Ht as [-> | [-> | ->]]; cbn [timestamp_tag];
          [tag_range H 10%nat | tag_range H 11%nat | tag_range H 12%nat].
  - rewrite parse_logtype_form.
    + apply read_length_prefixed. exact Hfit.
    + apply logtype_tags_nodup. exact H.
Qed.

Lemma exact_parse_frame (v : encoded_variable_t) :
  exact (frame_min_bytes v) (parse_frame cProtocol v).
Proof.
  intros r. unfold parse_frame, frame_min_bytes.
  apply (exact_at_weaken (1 + (0 + (1 + (1 + (timestamp_min_bytes v + 0))))));
    [lia|].
  apply exact_at_bind; [apply exact_at_read_tag|].
  intros tag r1 _.
  destruct (Eof cProtocol =? tag); [apply exact_at_fail|].
  apply exact_at_bind; [apply exact_handle_variables|].
  intros [[tag' E] D] r2 _.
  apply exact_at_bind; [apply exact_parse_logtype|].
  intros logtype r3 _.
  apply exact_at_bind; [apply exact_at_read_tag|].
  intros tag'' r4 _.
  apply exact_at_bind; [apply exact_parse_timestamp|].
  intros ts r5 _. apply exact_at_ret.
Qed.

(** *** Error codes of the parsers *)

Lemma only_fails_parse_logtype (tag : Z) :
  only_fails [IRErrorCode_Corrupted_IR; IRErrorCode_Incomplete_IR]
    (parse_logtype cProtocol tag).
Proof. unfold parse_logtype. only_fails. Qed.

Lemma only_fails_parse_dictionary_var (tag : Z) :
  only_fails [IRErrorCode_Corrupted_IR; IRErrorCode_Incomplete_IR]
    (parse_dictionary_var cProtocol tag).
Proof. unfold parse_dictionary_var. only_fails. Qed.

Lemma only_fails_parse_timestamp (v : encoded_variable_t) (tag : Z) :
  only_fails [IRErrorCode_Corrupted_IR; IRErrorCode_Incomplete_IR]
    (parse_timestamp cProtocol v tag).
Proof. unfold parse_timestamp. destruct v; only_fails. Qed.

Lemma only_fails_get_encoding_type :
  only_fails [IRErrorCode_Corrupted_IR; IRErrorCode_Incomplete_IR]
    (get_encoding_type cProtocol).
Proof.
  intros r e r' H. unfold get_encoding_type in H.
  destruct (try_read_exact_length (Z.of_nat (MagicNumberLength cProtocol)) r)
    as [[buffer|] r0].
  - repeat match type of H with
           | context [if ?b then _ else _] => destruct b
           end; try discriminate.
    injection H as <- _. cbn. tauto.
  - injection H as <- _. cbn. tauto.
Qed.

Lemma only_fails_variable_record v tag is_encoded_var E D :
  only_fails [IRErrorCode_Corrupted_IR; IRErrorCode_Incomplete_IR]
    (variable_record cProtocol v tag is_encoded_var E D).
Proof.
  unfold variable_record, read_tag.
  apply only_fails_bind.
  - destruct is_encoded_var.
    + only_fails.
    + apply only_fails_bind; [apply only_fails_parse_dictionary_var|].
      intros a. apply only_fails_ret.
  - intros [E' D']. only_fails.
Qed.

Lemma only_fails_handle_variables v tag E D :
  only_fails [IRErrorCode_Corrupted_IR; IRErrorCode_Incomplete_IR]
    (handle_variables cProtocol v tag E D).
Proof.
  intros r. funelim (handle_variables cProtocol v tag E D r);
    intros code rd Hres.
  - discriminate.
  - match goal with IH : forall _ _, _ -> _ |- _ => eapply IH end. eassumption.
  - injection Hres as <- _.
    eapply only_fails_variable_record. eassumption.
Qed.

(** The frame behind its first tag. *)
Lemma only_fails_frame_body v tag :
  only_fails [IRErrorCode_Corrupted_IR; IRErrorCode_Incomplete_IR]
    ('(encoded_tag, encoded_vars, dict_vars) <-
       handle_variables cProtocol v tag [] [] ;;
     logtype <- parse_logtype cProtocol encoded_tag ;;
     encoded_tag <- read_tag ;;
     timestamp <- parse_timestamp cProtocol v encoded_tag ;;
     ret (logtype, encoded_vars, dict_vars, timestamp)).
Proof.
  apply only_fails_bind; [apply only_fails_handle_variables|].
  intros [[tag' E] D].
  apply only_fails_bind; [apply only_fails_parse_logtype|].
  intros logtype. unfold read_tag.
  apply only_fails_bind; [only_fails|].
  intros tag''.
  apply only_fails_bind; [apply only_fails_parse_timestamp|].
  intros ts. apply only_fails_ret.
Qed.

Lemma parse_frame_eof_only (v : encoded_variable_t) (r r' : Reader) :
  parse_frame cProtocol v r = (Failure IRErrorCode_Eof, r') ->
  exists b, r = b :: r' /\ tag_of_byte b = Eof cProtocol.
Proof.
  destruct r as [|b rest].
  - unfold parse_frame. unfold bind at 1. rewrite read_tag_nil. discriminate.
  - rewrite parse_frame_cons.
    destruct (Z.eqb_spec (Eof cProtocol) (tag_of_byte b)) as [E|E].
    + intros H. injection H as <-. exists b. auto.
    + intros H. apply only_fails_frame_body in H.
      cbn in H. destruct H as [H|[H|[]]]; discriminate.
Qed.


(** X4: the field parsers and [get_encoding_type] fail with Corrupted or
    Incomplete only; they never return Eof or DecodeError. *)
Theorem field_parsers_error_codes :
  only_fails [IRErrorCode_Corrupted_IR; IRErrorCode_Incomplete_IR]
    (get_encoding_type cProtocol)
  /\ (forall tag,
         only_fails [IRErrorCode_Corrupted_IR; IRErrorCode_Incomplete_IR]
           (parse_logtype cProtocol tag))
  /\ (forall tag,
         only_fails [IRErrorCode_Corrupted_IR; IRErrorCode_Incomplete_IR]
           (parse_dictionary_var cProtocol tag))
  /\ (forall v tag,
         only_fails [IRErrorCode_Corrupted_IR; IRErrorCode_Incomplete_IR]
           (parse_timestamp cProtocol v tag)).
Proof.
  split; [apply only_fails_get_encoding_type|].
  split; [apply only_fails_parse_logtype|].
  split; [apply only_fails_parse_dictionary_var|].
  apply only_fails_parse_timestamp.
Qed.


(** X5: the roles [is_variable_tag] gives to a tag.  It answers true with
    [is_encoded_var = false] exactly for the three length tags of a
    dictionary variable, in either encoding.  When the tags of the protocol
    are pairwise different it answers true with [is_encoded_var = true]
    exactly for the encoded-variable tag of its own encoding, and it
    rejects the encoded-variable tag of the other encoding. *)
Theorem is_variable_tag_roles (v : encoded_variable_t) (tag : Z) :
  (is_variable_tag cProtocol v tag = Some false
   <-> exists f, tag = dictionary_length_tag cProtocol f)
  /\ (tags_ok cProtocol ->
      (is_variable_tag cProtocol v tag = Some true
       <-> tag = encoded_variable_tag cProtocol v)
      /\ is_variable_tag cProtocol four_byte_encoded_variable_t
           (VarEightByteEncoding (Payload cProtocol)) = None
      /\ is_variable_tag cProtocol eight_byte_encoded_variable_t
           (VarFourByteEncoding (Payload cProtocol)) = None).
Proof.
  split; [split|].
  - unfold is_variable_tag. intros H.
    destruct (tag =? VarStrLenUByte (Payload cProtocol)) eqn:E1;
      [exists LenUByte; apply Z.eqb_eq, E1|].
    destruct (tag =? VarStrLenUShort (Payload cProtocol)) eqn:E2;
      [exists LenUShort; apply Z.eqb_eq, E2|].
    destruct (tag =? VarStrLenInt (Payload cProtocol)) eqn:E3;
      [exists LenInt; apply Z.eqb_eq, E3|].
    cbn [orb] in H.
    destruct v;
      match type of H with
      | (if ?b then _ else _) = _ => destruct b; discriminate
      end.
  - intros [f ->]. apply is_variable_tag_dictionary.
  - intros Hok. split; [split|split].
    + unfold is_variable_tag. intros H.
      destruct ((tag =? VarStrLenUByte (Payload cProtocol))
                || (tag =? VarStrLenUShort (Payload cProtocol))
                || (tag =? VarStrLenInt (Payload cProtocol)));
        [discriminate|].
      destruct v; cbn [encoded_variable_tag];
        match type of H with
        | (if ?a =? ?b then _ else _) = _ =>
            destruct (a =? b) eqn:E; [apply Z.eqb_eq, E | discriminate]
        end.
    + intros ->. apply is_variable_tag_encoded, Hok.
    + unfold is_variable_tag. tag_cases Hok. reflexivity.
    + unfold is_variable_tag. tag_cases Hok. reflexivity.
Qed.


End WireFormat.


(** ** The message assembler on the wire format *)

Section AssemblerWireFormat.

Variable cProtocol : cProtocol_t.
Variable VariablePlaceholder : VariablePlaceholder_t.
Variable decode_float_var : encoded_variable_t -> Z -> option (list byte).
Variable decode_integer_var : encoded_variable_t -> Z -> option (list byte).

Local Abbreviation decode_next :=
  (generic_decode_next_message cProtocol VariablePlaceholder
     decode_float_var decode_integer_var).
Local Abbreviation render_message :=
  (decode_message VariablePlaceholder decode_float_var decode_integer_var).

Lemma exact_decode_next (v : encoded_variable_t) :
  exact (frame_min_bytes v) (decode_next v).
Proof.
  intros r. unfold generic_decode_next_message.
  apply (exact_at_weaken (frame_min_bytes v + 0)); [lia|].
  apply exact_at_bind; [apply exact_parse_frame|].
  intros [[[logtype E] D] ts] r1 _.
  destruct (render_message v logtype E D);
    [apply exact_at_ret | apply exact_at_fail].
Qed.

(** X6: a frame on the wire decodes to its message.  For pairwise
    different [int8_t] tags, variables, a logtype and a timestamp that are
    values of their wire types, [decode_next_message] on the variable
    records, the logtype record and the timestamp record reads exactly the
    frame; it hands the logtype, the encoded variables and the dictionary
    variables, each list in wire order, to [decode_message], and returns its
    message with the timestamp, or DecodeError when it throws. *)
Theorem decode_next_message_frame (v : encoded_variable_t)
    (xs : list variable) (f : length_form) (logtype : list byte)
    (t : integer_t) (timestamp : Z) (rest : list byte) :
  tags_ok cProtocol ->
  Forall (variable_ok v) xs ->
  fits f logtype ->
  timestamp_type_ok v t ->
  in_range t timestamp ->
  decode_next v (frame_bytes cProtocol v xs f logtype t timestamp ++ rest)
  = match render_message v logtype (encoded_values xs)
            (dictionary_values xs) with
    | Some message => (Success (message, timestamp), rest)
    | None => (Failure IRErrorCode_Decode_Error, rest)
    end.
Proof.
  intros H Hxs Hfit Ht Hts. unfold generic_decode_next_message.
  rewrite (bind_success _ _ _ _ _
             (parse_frame_frame_bytes cProtocol v xs f logtype t timestamp
                rest H Hxs Hfit Ht Hts)).
  destruct (render_message v logtype (encoded_values xs)
              (dictionary_values xs)); reflexivity.
Qed.

(** X7: [decode_next_message] returns Eof only at the EOF tag: the code is
    Eof exactly when the first byte of the reader carries the EOF tag, and
    the reader is then left just behind that byte. *)
Theorem eof_only_at_eof_tag (v : encoded_variable_t) (r r' : Reader) :
  decode_next v r = (Failure IRErrorCode_Eof, r')
  <-> exists b, r = b :: r' /\ tag_of_byte b = Eof cProtocol.
Proof.
  split.
  - unfold generic_decode_next_message, bind.
    destruct (parse_frame cProtocol v r) as [[[[[L E] D] ts]|e] r0] eqn:F.
    + destruct (render_message v L E D); discriminate.
    + intros H. injection H as -> ->.
      apply (parse_frame_eof_only cProtocol v). exact F.
  - intros (b & -> & Hb).
    unfold generic_decode_next_message, bind.
    rewrite parse_frame_eof by exact Hb. reflexivity.
Qed.

(** X8: a successful [decode_next_message] makes progress: what it has
    consumed is a prefix of the reader of at least 4 bytes in the four-byte
    variant and at least 11 bytes in the eight-byte variant. *)
Theorem decode_next_message_progress (v : encoded_variable_t) (r : Reader)
    (result : list byte * Z) (r' : Reader) :
  decode_next v r = (Success result, r') ->
  exists consumed,
    r = consumed ++ r'
    /\ (frame_min_bytes v <= length consumed)%nat
    /\ (match v with
        | four_byte_encoded_variable_t => 4
        | eight_byte_encoded_variable_t => 11
        end <= length consumed)%nat.
Proof.
  intros H.
  destruct (exact_decode_next v r result r' H) as (c & Hr & Hn & _).
  exists c. split; [exact Hr|]. split; [exact Hn|].
  destruct v; cbn in Hn; lia.
Qed.

(** X9: the result of a successful [decode_next_message] depends on the
    bytes it consumed alone: with any other bytes behind them the message
    and the timestamp are the same and the reader is left at those bytes. *)
Theorem decode_next_message_local (v : encoded_variable_t)
    (consumed rest rest' : list byte) (result : list byte * Z) :
  decode_next v (consumed ++ rest) = (Success result, rest) ->
  decode_next v (consumed ++ rest') = (Success result, rest').
Proof.
  intros H.
  destruct (exact_decode_next v _ result rest H) as (c & Hr & _ & Hloc & _).
  apply app_inv_tail in Hr. subst c. apply Hloc.
Qed.

(** X10: a frame cut short is Incomplete: when [decode_next_message]
    succeeds on the bytes [consumed], it returns Incomplete on every strict
    prefix of them. *)
Theorem truncated_frame_is_incomplete (v : encoded_variable_t)
    (consumed rest : list byte) (result : list byte * Z) (p q : list byte) :
  decode_next v (consumed ++ rest) = (Success result, rest) ->
  consumed = p ++ q -> q <> [] ->
  fst (decode_next v p) = Failure IRErrorCode_Incomplete_IR.
Proof.
  intros H Hc Hq.
  apply (exact_truncated (frame_min_bytes v) _ consumed rest result p q
           (exact_decode_next v) H Hc Hq).
Qed.

(** X11: an encoded variable of the other variant is Corrupted: with
    pairwise different tags, the four-byte decoder rejects a frame that
    starts with the tag of an eight-byte encoded variable, and the eight-byte
    decoder one that starts with the tag of a four-byte encoded variable. *)
Theorem other_variant_is_corrupted (rest : list byte) :
  tags_ok cProtocol ->
  decode_next four_byte_encoded_variable_t
    (tag_byte (VarEightByteEncoding (Payload cProtocol)) :: rest)
  = (Failure IRErrorCode_Corrupted_IR, rest)
  /\ decode_next eight_byte_encoded_variable_t
       (tag_byte (VarFourByteEncoding (Payload cProtocol)) :: rest)
     = (Failure IRErrorCode_Corrupted_IR, rest).
Proof.
  intros H.
  destruct (is_logtype_tag_other_encoded cProtocol
              four_byte_encoded_variable_t H) as (L4 & L8 & V8 & V4).
  pose proof (tag_in_range cProtocol 1 H ltac:(lia)) as R4.
  pose proof (tag_in_range cProtocol 2 H ltac:(lia)) as R8.
  pose proof (tags_differ cProtocol 1 0 H ltac:(lia) ltac:(lia) ltac:(lia))
    as N4.
  pose proof (tags_differ cProtocol 2 0 H ltac:(lia) ltac:(lia) ltac:(lia))
    as N8.
  cbn [nth protocol_tags] in R4, R8, N4, N8.
  split; apply generic_decode_next_message_frame_failure.
  - apply (parse_frame_bad_logtype_tag cProtocol four_byte_encoded_variable_t
             _ rest (VarEightByteEncoding (Payload cProtocol)) [] []).
    + rewrite tag_of_tag_byte by exact R8. exact N8.
    + rewrite tag_of_tag_byte by exact R8.
      rewrite handle_variables_step, V8. reflexivity.
    + exact L8.
  - apply (parse_frame_bad_logtype_tag cProtocol eight_byte_encoded_variable_t
             _ rest (VarFourByteEncoding (Payload cProtocol)) [] []).
    + rewrite tag_of_tag_byte by exact R4. exact N4.
    + rewrite tag_of_tag_byte by exact R4.
      rewrite handle_variables_step, V4. reflexivity.
    + exact L4.
Qed.

End AssemblerWireFormat.


(** ** Decode errors *)

Section DecodeErrorConditions.

Variable cProtocol : cProtocol_t.
Variable VariablePlaceholder : VariablePlaceholder_t.
Variable decode_float_var : encoded_variable_t -> Z -> option (list byte).
Variable decode_integer_var : encoded_variable_t -> Z -> option (list byte).

Local Abbreviation decode_next :=
  (generic_decode_next_message cProtocol VariablePlaceholder
     decode_float_var decode_integer_var).
Local Abbreviation render_message :=
  (decode_message VariablePlaceholder decode_float_var decode_integer_var).

Lemma decode_error_on_frame (v : encoded_variable_t) (xs : list variable)
    (f : length_form) (logtype : list byte) (t : integer_t) (timestamp : Z)
    (rest : list byte) :
  tags_ok cProtocol ->
  Forall (variable_ok v) xs ->
  fits f logtype ->
  timestamp_type_ok v t ->
  in_range t timestamp ->
  decode_next v (frame_bytes cProtocol v xs f logtype t timestamp ++ rest)
  = (Failure IRErrorCode_Decode_Error, rest)
  <-> render_message v logtype (encoded_values xs) (dictionary_values xs)
      = None.
Proof.
  intros H Hxs Hfit Ht Hts. unfold generic_decode_next_message.
  rewrite (bind_success _ _ _ _ _
             (parse_frame_frame_bytes cProtocol v xs f logtype t timestamp
                rest H Hxs Hfit Ht Hts)).
  destruct (render_message v logtype (encoded_values xs)
              (dictionary_values xs)); split; try discriminate; reflexivity.
Qed.

(** C4, as the code has it: [decode_next_message] returns DecodeError
    exactly when the framing parsed successfully and [decode_message]
    threw; on a frame of the wire format that is exactly when
    [decode_message] throws on the logtype and the variables of the frame.
    [decode_message] throws exactly when its loop reaches one of four
    states: a Float or Integer placeholder with the encoded-variable index
    out of range, a Dictionary placeholder with the dictionary-variable
    index out of range, the escape character in the final position of the
    logtype, or a Float or Integer placeholder at which [decode_float_var]
    or [decode_integer_var] throws on the encoded variable.  In closed form,
    a logtype with more placeholders than there are variables of their
    kind, or one that ends in an escape character, makes it throw; with
    formatters that do not throw these are the only reasons. *)
Theorem decode_error_conditions (v : encoded_variable_t) :
  (forall r,
      fst (decode_next v r) = Failure IRErrorCode_Decode_Error
      <-> exists logtype encoded_vars dict_vars timestamp r',
          parse_frame cProtocol v r
          = (Success (logtype, encoded_vars, dict_vars, timestamp), r')
          /\ render_message v logtype encoded_vars dict_vars = None)
  /\ (forall xs f logtype t timestamp rest,
         tags_ok cProtocol ->
         Forall (variable_ok v) xs ->
         fits f logtype ->
         timestamp_type_ok v t ->
         in_range t timestamp ->
         decode_next v
           (frame_bytes cProtocol v xs f logtype t timestamp ++ rest)
         = (Failure IRErrorCode_Decode_Error, rest)
         <-> render_message v logtype (encoded_values xs)
               (dictionary_values xs) = None)
  /\ (forall logtype encoded_vars dict_vars,
         render_message v logtype encoded_vars dict_vars = None
         <-> exists st,
             loop_reaches VariablePlaceholder decode_float_var
               decode_integer_var v logtype encoded_vars dict_vars st
             /\ (too_few_encoded_vars_at VariablePlaceholder logtype
                   encoded_vars st
                 \/ too_few_dictionary_vars_at VariablePlaceholder logtype
                      dict_vars st
                 \/ unexpected_escape_at VariablePlaceholder logtype st
                 \/ formatter_throws_at VariablePlaceholder decode_float_var
                      decode_integer_var v logtype encoded_vars st))
  /\ (forall logtype encoded_vars dict_vars,
         (length encoded_vars
          < count_encoded_placeholders VariablePlaceholder logtype)%nat
         \/ (length dict_vars
             < count_dictionary_placeholders VariablePlaceholder
                 logtype)%nat
         \/ escape_at_end VariablePlaceholder logtype = true ->
         render_message v logtype encoded_vars dict_vars = None)
  /\ (formatters_total decode_float_var decode_integer_var ->
      forall logtype encoded_vars dict_vars,
        render_message v logtype encoded_vars dict_vars = None ->
        (exists st,
            loop_reaches VariablePlaceholder decode_float_var
              decode_integer_var v logtype encoded_vars dict_vars st
            /\ (too_few_encoded_vars_at VariablePlaceholder logtype
                  encoded_vars st
                \/ too_few_dictionary_vars_at VariablePlaceholder logtype
                     dict_vars st
                \/ unexpected_escape_at VariablePlaceholder logtype st))
        /\ ((length encoded_vars
             < count_encoded_placeholders VariablePlaceholder logtype)%nat
            \/ (length dict_vars
                < count_dictionary_placeholders VariablePlaceholder
                    logtype)%nat
            \/ escape_at_end VariablePlaceholder logtype = true)).
Proof.
  split; [|split; [|split; [|split]]].
  - intros r. apply decode_error_after_framing.
  - intros xs f logtype t timestamp rest. apply decode_error_on_frame.
  - intros L E D. apply decode_message_throws_iff.
  - intros L E D. apply too_few_variables_throws.
  - intros Htot L E D H. split.
    + apply throws_at_throw_site; assumption.
    + apply (throws_for_too_few_variables VariablePlaceholder
               decode_float_var decode_integer_var v); assumption.
Qed.

End DecodeErrorConditions.


(** ** The preamble *)

Lemma convert_uint16_range (x : Z) : 0 <= convert uint16_t x < 65536.
Proof.
  unfold convert, to_unsigned. cbn [is_signed]. width_consts.
  apply Z.mod_pos_bound. lia.
Qed.

Lemma skipn_suffix {A : Type} (l pre suf : list A) :
  l = pre ++ suf -> skipn (length l - length suf) l = suf.
Proof.
  intros ->. rewrite length_app.
  replace (length pre + length suf - length suf)%nat with (length pre) by lia.
  rewrite skipn_app, Nat.sub_diag, skipn_all. reflexivity.
Qed.

Section PreambleProperties.

Variable Metadata : Metadata_t.

Lemma exact_read_metadata_info : exact 3 (read_metadata_info Metadata).
Proof.
  unfold read_metadata_info. change 3%nat with (1 + (1 + 1))%nat.
  apply exact_bind; [intros r; apply exact_at_read_tag|].
  intros metadata_type.
  apply exact_bind; [intros r; apply exact_at_read_tag|].
  intros tag r.
  repeat match goal with
         | |- exact_at _ (if ?b then _ else _) _ => destruct b
         end;
    try apply exact_at_fail;
    match goal with
    | |- exact_at _ (bind (or_incomplete (decode_int ?t)) _) _ =>
        apply (exact_at_weaken (sizeof t + 0)); [cbn; lia|];
        apply exact_at_bind; [apply exact_at_decode_int|];
        intros a r1 _; apply exact_at_ret
    end.
Qed.

Lemma exact_decode_preamble_copy : exact 3 (decode_preamble_copy Metadata).
Proof.
  unfold decode_preamble_copy. change 3%nat with (3 + (0 + 0))%nat.
  apply exact_bind; [apply exact_read_metadata_info|].
  intros [metadata_type metadata_size].
  apply exact_bind;
    [intros r; apply (exact_at_weaken (Z.to_nat metadata_size)); [lia|];
     apply exact_at_read_exact|].
  intros metadata r. apply exact_at_ret.
Qed.

Lemma only_fails_read_metadata_info :
  only_fails [IRErrorCode_Corrupted_IR; IRErrorCode_Incomplete_IR]
    (read_metadata_info Metadata).
Proof. unfold read_metadata_info. only_fails. Qed.

Lemma only_fails_decode_preamble_copy :
  only_fails [IRErrorCode_Corrupted_IR; IRErrorCode_Incomplete_IR]
    (decode_preamble_copy Metadata).
Proof.
  unfold decode_preamble_copy.
  apply only_fails_bind; [apply only_fails_read_metadata_info|].
  intros [metadata_type metadata_size]. only_fails.
Qed.

Lemma read_metadata_info_size (r : Reader) metadata_type metadata_size r' :
  read_metadata_info Metadata r
  = (Success (metadata_type, metadata_size), r') ->
  0 <= metadata_size < 65536.
Proof.
  unfold read_metadata_info, bind, ret, fail.
  destruct (or_incomplete (try_read_numeric_value encoded_tag_t) r)
    as [[t|e] r0]; [|discriminate].
  destruct (or_incomplete (try_read_numeric_value encoded_tag_t) r0)
    as [[tag|e] r1]; [|discriminate].
  destruct (tag =? LengthUByte Metadata).
  - destruct (or_incomplete (decode_int uint8_t) r1) as [[x|e] r2];
      [|discriminate].
    intros H. inversion H; subst. apply convert_uint16_range.
  - destruct (tag =? LengthUShort Metadata); [|discriminate].
    destruct (or_incomplete (decode_int uint16_t) r1) as [[x|e] r2];
      [|discriminate].
    intros H. inversion H; subst. apply convert_uint16_range.
Qed.

Lemma read_metadata_info_preamble (metadata_type : byte) (f : metadata_form)
    (n : Z) (rest : list byte) :
  LengthUByte Metadata <> LengthUShort Metadata ->
  in_range encoded_tag_t (metadata_length_tag Metadata f) ->
  in_range (metadata_length_type f) n ->
  read_metadata_info Metadata
    (metadata_type
     :: tag_byte (metadata_length_tag Metadata f)
     :: big_endian_bytes (sizeof (metadata_length_type f)) n ++ rest)
  = (Success (tag_of_byte metadata_type, n), rest).
Proof.
  intros Hne Htag Hn. unfold read_metadata_info.
  rewrite (bind_success _ _ _ _ _ (read_tag_cons _ _)).
  rewrite (bind_success _ _ _ _ _ (read_tag_cons _ _)).
  rewrite tag_of_tag_byte by exact Htag.
  assert (convert uint16_t n = n) as Hc.
  { apply convert_in_range. revert Hn. unfold in_range.
    destruct f; cbn [metadata_length_type is_signed]; width_consts; lia. }
  destruct f; cbn [metadata_length_tag metadata_length_type] in *.
  - rewrite Z.eqb_refl. unfold bind, ret, or_incomplete.
    rewrite decode_int_big_endian_bytes.
    rewrite (convert_in_range uint8_t) by exact Hn. rewrite Hc. reflexivity.
  - destruct (Z.eqb_spec (LengthUShort Metadata) (LengthUByte Metadata));
      [congruence|].
    rewrite Z.eqb_refl. unfold bind, ret, or_incomplete.
    rewrite decode_int_big_endian_bytes.
    rewrite !Hc. reflexivity.
Qed.

(** X12: the copy form of [decode_preamble] inverts the metadata record.
    For length tags that differ and a metadata whose length is a value of the
    length type, the metadata type, the length tag, the big-endian length and
    the metadata decode to the metadata type and the metadata, with the
    reader left just behind them; any strict prefix of these bytes decodes
    to Incomplete; and a length tag that is neither of the two is
    Corrupted. *)
Theorem decode_preamble_copy_round_trip (metadata_type : byte)
    (f : metadata_form) (metadata rest : list byte) :
  LengthUByte Metadata <> LengthUShort Metadata ->
  in_range encoded_tag_t (metadata_length_tag Metadata f) ->
  in_range (metadata_length_type f) (Z.of_nat (length metadata)) ->
  decode_preamble_copy Metadata
    (preamble_bytes Metadata metadata_type f metadata ++ rest)
  = (Success (tag_of_byte metadata_type, metadata), rest)
  /\ (forall p q,
         preamble_bytes Metadata metadata_type f metadata = p ++ q ->
         q <> [] ->
         fst (decode_preamble_copy Metadata p)
         = Failure IRErrorCode_Incomplete_IR)
  /\ (forall b s,
         tag_of_byte b <> LengthUByte Metadata ->
         tag_of_byte b <> LengthUShort Metadata ->
         decode_preamble_copy Metadata (metadata_type :: b :: s)
         = (Failure IRErrorCode_Corrupted_IR, s)).
Proof.
  intros Hne Htag Hlen.
  assert (decode_preamble_copy Metadata
            (preamble_bytes Metadata metadata_type f metadata ++ rest)
          = (Success (tag_of_byte metadata_type, metadata), rest)) as Hres.
  { unfold decode_preamble_copy, preamble_bytes. cbn [app].
    rewrite <- app_assoc.
    rewrite (bind_success _ _ _ _ _
               (read_metadata_info_preamble metadata_type f _ _
                  Hne Htag Hlen)).
    unfold bind, ret, or_incomplete.
    rewrite try_read_exact_length_app. reflexivity. }
  split; [exact Hres|]. split.
  - intros p q Hc Hq.
    apply (exact_truncated 3 _ _ rest _ p q
             exact_decode_preamble_copy Hres Hc Hq).
  - intros b s H1 H2. unfold decode_preamble_copy, read_metadata_info.
    unfold bind at 1. unfold bind at 1. rewrite read_tag_cons.
    unfold bind at 1. rewrite read_tag_cons.
    destruct (Z.eqb_spec (tag_of_byte b) (LengthUByte Metadata));
      [contradiction|].
    destruct (Z.eqb_spec (tag_of_byte b) (LengthUShort Metadata));
      [contradiction|].
    reflexivity.
Qed.

Lemma decode_preamble_copy_steps (r : Reader) :
  decode_preamble_copy Metadata r
  = match read_metadata_info Metadata r with
    | (Success (metadata_type, metadata_size), r1) =>
        match try_read_exact_length metadata_size r1 with
        | (Some metadata, r2) => (Success (metadata_type, metadata), r2)
        | (None, r2) => (Failure IRErrorCode_Incomplete_IR, r2)
        end
    | (Failure e, r1) => (Failure e, r1)
    end.
Proof.
  unfold decode_preamble_copy, bind, ret, or_incomplete.
  destruct (read_metadata_info Metadata r) as [[[t n]|e] r1]; [|reflexivity].
  destruct (try_read_exact_length n r1) as [[m|] r2]; reflexivity.
Qed.

(** X13: the two forms of [decode_preamble] agree.  On a buffer whose
    positions are [size_t] values, the seek form at a position of the buffer
    and the copy form on the bytes from that position on return the same
    error code, or else the same metadata type; the metadata the copy form
    returns is the part of the buffer at the position and of the size the
    seek form returns, and both leave the reader just behind it. *)
Theorem decode_preamble_forms_agree (sr : SeekableReader) :
  (position sr <= length (buffer sr))%nat ->
  Z.of_nat (length (buffer sr)) + 65536 <= 2 ^ 64 ->
  preambles_agree sr (decode_preamble_seek Metadata sr)
    (decode_preamble_copy Metadata (unread sr)).
Proof.
  intros Hpos Hsize.
  change (2 ^ 64) with 18446744073709551616 in Hsize.
  rewrite decode_preamble_copy_steps.
  unfold preambles_agree, decode_preamble_seek, run_seekable.
  destruct (read_metadata_info Metadata (unread sr))
    as [[[metadata_type metadata_size]|e] r1] eqn:Hinfo; [|cbn; reflexivity].
  pose proof (read_metadata_info_size _ _ _ _ Hinfo) as Hn.
  destruct (exact_read_metadata_info _ _ _ Hinfo) as (c & Hr & _).
  assert (buffer sr = (firstn (position sr) (buffer sr) ++ c) ++ r1) as Hbuf.
  { rewrite <- app_assoc, <- Hr. unfold unread.
    symmetry. apply firstn_skipn. }
  assert (length r1 <= length (buffer sr))%nat as Hle.
  { rewrite Hbuf. rewrite length_app. lia. }
  pose proof (skipn_suffix _ _ _ Hbuf) as Hskip.
  unfold get_pos, try_seek_from_begin. cbn [buffer position].
  unfold to_size_t, to_unsigned, size_t_bits.
  change (2 ^ 64) with 18446744073709551616.
  rewrite Z.mod_small by lia.
  unfold try_read_exact_length.
  destruct (Z.leb_spec
              (Z.of_nat (length (buffer sr) - length r1) + metadata_size)
              (Z.of_nat (length (buffer sr)))) as [Hfit|Hfit];
    destruct (Z.ltb_spec (Z.of_nat (length r1)) metadata_size) as [Hshort|Hok];
    try lia; try reflexivity.
  split; [reflexivity|]. split; [|split].
  - rewrite length_firstn. lia.
  - unfold substr. rewrite Nat2Z.id, Hskip. reflexivity.
  - unfold unread. cbn [buffer position].
    replace (Z.to_nat (Z.of_nat (length (buffer sr) - length r1)
                       + metadata_size))
      with (Z.to_nat metadata_size + (length (buffer sr) - length r1))%nat
      by lia.
    rewrite <- skipn_skipn, Hskip. reflexivity.
Qed.

Lemma run_seekable_success {A : Type} (m : Decoder A) (sr : SeekableReader)
    (a : A) (sr' : SeekableReader) :
  run_seekable m sr = (Success a, sr') ->
  exists r',
    m (unread sr) = (Success a, r')
    /\ sr' = {| buffer := buffer sr;
                position := length (buffer sr) - length r' |}.
Proof.
  unfold run_seekable. destruct (m (unread sr)) as [x r'] eqn:E.
  intros H. injection H as -> <-. exists r'. split; reflexivity.
Qed.

Lemma decode_preamble_seek_steps (sr : SeekableReader) (metadata_type : Z)
    (metadata_size : Z) (sr' : SeekableReader) :
  Z.of_nat (length (buffer sr)) + 65536 <= 2 ^ 64 ->
  run_seekable (read_metadata_info Metadata) sr
  = (Success (metadata_type, metadata_size), sr') ->
  (Z.of_nat (length (buffer sr)) < get_pos sr' + metadata_size ->
   decode_preamble_seek Metadata sr = (Failure IRErrorCode_Incomplete_IR, sr'))
  /\ (get_pos sr' + metadata_size <= Z.of_nat (length (buffer sr)) ->
      decode_preamble_seek Metadata sr
      = (Success (metadata_type, get_pos sr', metadata_size),
         {| buffer := buffer sr;
            position := Z.to_nat (get_pos sr' + metadata_size) |})).
Proof.
  intros Hsize Hrun.
  change (2 ^ 64) with 18446744073709551616 in Hsize.
  destruct (run_seekable_success _ _ _ _ Hrun) as (r' & Hinfo & Hsr').
  pose proof (read_metadata_info_size _ _ _ _ Hinfo) as Hn.
  unfold decode_preamble_seek. rewrite Hrun.
  unfold try_seek_from_begin. subst sr'. unfold get_pos.
  cbn [buffer position].
  unfold to_size_t, to_unsigned, size_t_bits.
  change (2 ^ 64) with 18446744073709551616.
  rewrite Z.mod_small by lia.
  destruct (Z.leb_spec
              (Z.of_nat (length (buffer sr) - length r') + metadata_size)
              (Z.of_nat (length (buffer sr)))) as [Hfit|Hfit];
    split; intros H; try lia; reflexivity.
Qed.

(** X14: the error codes of the two forms of [decode_preamble].  Both fail
    with Corrupted or Incomplete only, never with Eof or DecodeError.  The
    seek form hands on the error code of [read_metadata_info]; once the
    header is read it answers Incomplete exactly when the position after the
    metadata lies past the end of the buffer, and otherwise succeeds with the
    reader at that position.  So on a header followed by fewer bytes than
    the length it announces the seek form answers Incomplete. *)
Theorem decode_preamble_error_codes :
  only_fails [IRErrorCode_Corrupted_IR; IRErrorCode_Incomplete_IR]
    (decode_preamble_copy Metadata)
  /\ (forall sr e sr',
         decode_preamble_seek Metadata sr = (Failure e, sr') ->
         In e [IRErrorCode_Corrupted_IR; IRErrorCode_Incomplete_IR])
  /\ (forall sr e sr',
         run_seekable (read_metadata_info Metadata) sr = (Failure e, sr') ->
         decode_preamble_seek Metadata sr = (Failure e, sr'))
  /\ (forall sr metadata_type metadata_size sr',
         Z.of_nat (length (buffer sr)) + 65536 <= 2 ^ 64 ->
         run_seekable (read_metadata_info Metadata) sr
         = (Success (metadata_type, metadata_size), sr') ->
         (Z.of_nat (length (buffer sr)) < get_pos sr' + metadata_size ->
          decode_preamble_seek Metadata sr
          = (Failure IRErrorCode_Incomplete_IR, sr'))
         /\ (get_pos sr' + metadata_size <= Z.of_nat (length (buffer sr)) ->
             decode_preamble_seek Metadata sr
             = (Success (metadata_type, get_pos sr', metadata_size),
                {| buffer := buffer sr;
                   position := Z.to_nat (get_pos sr' + metadata_size) |})))
  /\ (forall sr metadata_type f n available,
         LengthUByte Metadata <> LengthUShort Metadata ->
         in_range encoded_tag_t (metadata_length_tag Metadata f) ->
         in_range (metadata_length_type f) n ->
         Z.of_nat (length (buffer sr)) + 65536 <= 2 ^ 64 ->
         unread sr
         = metadata_type
           :: tag_byte (metadata_length_tag Metadata f)
           :: big_endian_bytes (sizeof (metadata_length_type f)) n
           ++ available ->
         Z.of_nat (length available) < n ->
         decode_preamble_seek Metadata sr
         = (Failure IRErrorCode_Incomplete_IR,
            {| buffer := buffer sr;
               position := length (buffer sr) - length available |})).
Proof.
  split; [apply only_fails_decode_preamble_copy|].
  split; [|split; [|split]].
  - intros sr e sr'. unfold decode_preamble_seek, run_seekable.
    destruct (read_metadata_info Metadata (unread sr))
      as [[[metadata_type metadata_size]|e0] r1] eqn:Hinfo.
    + destruct (try_seek_from_begin _ _); [discriminate|].
      intros H. injection H as <- _. cbn. tauto.
    + intros H. injection H as <- _.
      eapply only_fails_read_metadata_info. eassumption.
  - intros sr e sr' H. unfold decode_preamble_seek. rewrite H. reflexivity.
  - intros sr metadata_type metadata_size sr'.
    apply decode_preamble_seek_steps.
  - intros sr metadata_type f n available Hne Htag Hn Hsize Hunread Hshort.
    assert (run_seekable (read_metadata_info Metadata) sr
            = (Success (tag_of_byte metadata_type, n),
               {| buffer := buffer sr;
                  position := length (buffer sr) - length available |}))
      as Hrun.
    { unfold run_seekable. rewrite Hunread.
      rewrite (read_metadata_info_preamble metadata_type f n available
                 Hne Htag Hn). reflexivity. }
    apply (proj1 (decode_preamble_seek_steps _ _ _ _ Hsize Hrun)).
    unfold get_pos. cbn [position].
    assert (length available <= length (buffer sr))%nat as Hle.
    { assert (length (unread sr) <= length (buffer sr))%nat as Hu
          by (unfold unread; rewrite length_skipn; lia).
      rewrite Hunread in Hu. cbn [length] in Hu.
      rewrite length_app in Hu. lia. }
    lia.
Qed.

End PreambleProperties.


(** ** The range of the timestamp *)

Lemma returns_bind {A B : Type} (Q : A -> Prop) (P : B -> Prop)
    (m : Decoder A) (k : A -> Decoder B) :
  returns Q m -> (forall a, Q a -> returns P (k a)) ->
  returns P (bind m k).
Proof.
  intros Hm Hk r b r' H. unfold bind in H.
  destruct (m r) as [[a|e] r0] eqn:E; [|discriminate].
  exact (Hk a (Hm _ _ _ E) _ _ _ H).
Qed.

Lemma returns_bind_last {A B : Type} (P : B -> Prop)
    (m : Decoder A) (k : A -> Decoder B) :
  (forall a, returns P (k a)) -> returns P (bind m k).
Proof.
  intros Hk. apply (returns_bind (fun _ => True)); [|auto].
  intros r a r' _. exact I.
Qed.

Lemma returns_ret {A : Type} (P : A -> Prop) (a : A) :
  P a -> returns P (ret a).
Proof. intros H r a' r' E. injection E as <- _. exact H. Qed.

Lemma returns_fail {A : Type} (P : A -> Prop) (e : IRErrorCode) :
  returns P (@fail A e).
Proof. intros r a r' E. discriminate. Qed.

Lemma returns_decode_int (t : integer_t) :
  returns (in_range t) (or_incomplete (decode_int t)).
Proof.
  intros r x r' H. unfold or_incomplete in H.
  destruct (decode_int t r) as [[y|] r0] eqn:E; [|discriminate].
  injection H as -> ->.
  destruct (decode_int_success t r x r' E) as (bs & _ & Hlen & ->).
  apply interpret_in_range. exact Hlen.
Qed.

Lemma in_range_widen (t u : integer_t) (x : Z) :
  is_signed u = true -> (sizeof t <= sizeof u)%nat ->
  (is_signed t = false -> (sizeof t < sizeof u)%nat) ->
  in_range t x -> in_range u x.
Proof.
  unfold in_range.
  destruct t, u; cbn [is_signed sizeof]; width_consts; intros S L U H;
    try discriminate; try lia; specialize (U eq_refl); lia.
Qed.

Section TimestampRange.

Variable cProtocol : cProtocol_t.

(** The type of the timestamp field a tag announces. *)
Lemma returns_parse_timestamp_four (tag : Z) :
  returns (in_range int32_t)
    (parse_timestamp cProtocol four_byte_encoded_variable_t tag).
Proof.
  unfold parse_timestamp.
  destruct (TimestampDeltaByte (Payload cProtocol) =? tag);
    [|destruct (TimestampDeltaShort (Payload cProtocol) =? tag);
      [|destruct (TimestampDeltaInt (Payload cProtocol) =? tag);
        [|apply returns_fail]]].
  - apply (returns_bind (in_range int8_t)); [apply returns_decode_int|].
    intros x Hx. apply returns_ret.
    rewrite convert_in_range
      by (apply (in_range_widen int8_t);
          [reflexivity | cbn; lia | discriminate | exact Hx]).
    apply (in_range_widen int8_t);
      [reflexivity | cbn; lia | discriminate | exact Hx].
  - apply (returns_bind (in_range int16_t)); [apply returns_decode_int|].
    intros x Hx. apply returns_ret.
    rewrite convert_in_range
      by (apply (in_range_widen int16_t);
          [reflexivity | cbn; lia | discriminate | exact Hx]).
    apply (in_range_widen int16_t);
      [reflexivity | cbn; lia | discriminate | exact Hx].
  - apply (returns_bind (in_range int32_t)); [apply returns_decode_int|].
    intros x Hx. apply returns_ret.
    rewrite convert_in_range
      by (apply (in_range_widen int32_t);
          [reflexivity | cbn; lia | discriminate | exact Hx]).
    exact Hx.
Qed.

Lemma returns_parse_timestamp_eight (tag : Z) :
  returns (in_range epoch_time_ms_t)
    (parse_timestamp cProtocol eight_byte_encoded_variable_t tag).
Proof.
  unfold parse_timestamp.
  destruct (negb (TimestampVal (Payload cProtocol) =? tag));
    [apply returns_fail | apply returns_decode_int].
Qed.

Lemma returns_parse_frame (v : encoded_variable_t) (P : Z -> Prop) :
  (forall tag, returns P (parse_timestamp cProtocol v tag)) ->
  returns (fun frame => P (snd frame)) (parse_frame cProtocol v).
Proof.
  intros H. unfold parse_frame.
  apply returns_bind_last. intros tag.
  destruct (Eof cProtocol =? tag); [apply returns_fail|].
  apply returns_bind_last. intros [[tag' E] D].
  apply returns_bind_last. intros logtype.
  apply returns_bind_last. intros tag''.
  apply (returns_bind P); [apply H|].
  intros ts Hts. apply returns_ret. exact Hts.
Qed.

Variable VariablePlaceholder : VariablePlaceholder_t.
Variable decode_float_var : encoded_variable_t -> Z -> option (list byte).
Variable decode_integer_var : encoded_variable_t -> Z -> option (list byte).

Lemma returns_generic_decode_next_message (v : encoded_variable_t)
    (P : Z -> Prop) :
  (forall tag, returns P (parse_timestamp cProtocol v tag)) ->
  returns (fun result => P (snd result))
    (generic_decode_next_message cProtocol VariablePlaceholder
       decode_float_var decode_integer_var v).
Proof.
  intros H. unfold generic_decode_next_message.
  apply (returns_bind (fun frame => P (snd frame)));
    [apply returns_parse_frame, H|].
  intros [[[logtype E] D] ts] Hts. cbn [snd] in Hts.
  destruct (decode_message _ _ _ v logtype E D);
    [apply returns_ret; exact Hts | apply returns_fail].
Qed.

(** X15: the timestamp of a decoded message.  In the four-byte encoding the
    value returned is a delta in the range of a signed 32-bit integer
    whichever of the three delta tags carried it; in the eight-byte
    encoding it is in the range of [epoch_time_ms_t]. *)
Theorem timestamp_range (r : Reader) (message : list byte) (timestamp : Z)
    (r' : Reader) :
  (four_byte_encoding.decode_next_message cProtocol VariablePlaceholder
     decode_float_var decode_integer_var r
   = (Success (message, timestamp), r') ->
   - 2 ^ 31 <= timestamp < 2 ^ 31)
  /\ (eight_byte_encoding.decode_next_message cProtocol VariablePlaceholder
        decode_float_var decode_integer_var r
      = (Success (message, timestamp), r') ->
      - 2 ^ 63 <= timestamp < 2 ^ 63).
Proof.
  split; intros H.
  - apply (returns_generic_decode_next_message four_byte_encoded_variable_t
             (in_range int32_t) returns_parse_timestamp_four) in H.
    exact H.
  - apply (returns_generic_decode_next_message eight_byte_encoded_variable_t
             (in_range epoch_time_ms_t) returns_parse_timestamp_eight) in H.
    exact H.
Qed.

End TimestampRange.


(** ** The renderer, character by character *)

Section RendererEquations.

Variable VariablePlaceholder : VariablePlaceholder_t.
Variable decode_float_var : encoded_variable_t -> Z -> option (list byte).
Variable decode_integer_var : encoded_variable_t -> Z -> option (list byte).

Local Abbreviation render_message :=
  (decode_message VariablePlaceholder decode_float_var decode_integer_var).
Local Abbreviation reference :=
  (render VariablePlaceholder decode_float_var decode_integer_var).
Local Abbreviation kind := (classify VariablePlaceholder).

Lemma render_message_cons v c logtype E D :
  render_message v (c :: logtype) E D
  = match kind c with
    | KFloat =>
        match E with
        | [] => None
        | x :: E' =>
            match decode_float_var v x with
            | None => None
            | Some text => prepend text (render_message v logtype E' D)
            end
        end
    | KInteger =>
        match E with
        | [] => None
        | x :: E' =>
            match decode_integer_var v x with
            | None => None
            | Some text => prepend text (render_message v logtype E' D)
            end
        end
    | KDictionary =>
        match D with
        | [] => None
        | s :: D' => prepend s (render_message v logtype E D')
        end
    | KEscape =>
        match logtype with
        | [] => None
        | x :: logtype' => prepend [x] (render_message v logtype' E D)
        end
    | KStatic => prepend [c] (render_message v logtype E D)
    end.
Proof.
  rewrite decode_message_render. cbn [render].
  destruct (kind c).
  - destruct E as [|x E]; [reflexivity|].
    destruct (decode_float_var v x); [|reflexivity].
    rewrite decode_message_render.
    destruct (reference v logtype E D) as [[[o a] b]|]; reflexivity.
  - destruct E as [|x E]; [reflexivity|].
    destruct (decode_integer_var v x); [|reflexivity].
    rewrite decode_message_render.
    destruct (reference v logtype E D) as [[[o a] b]|]; reflexivity.
  - destruct D as [|s D]; [reflexivity|].
    rewrite decode_message_render.
    destruct (reference v logtype E D) as [[[o a] b]|]; reflexivity.
  - destruct logtype as [|x logtype]; [reflexivity|].
    rewrite decode_message_render.
    destruct (reference v logtype E D) as [[[o a] b]|]; reflexivity.
  - rewrite decode_message_render.
    destruct (reference v logtype E D) as [[[o a] b]|]; reflexivity.
Qed.

(** X16: [decode_message] renders the logtype character by character.
    The empty logtype renders to the empty message.  In front of the
    rendering of the rest: an ordinary character puts itself, the escape
    character puts the character that follows it whatever it is (and throws
    at the end of the logtype), a Float or Integer placeholder puts the
    formatted first encoded variable and a Dictionary placeholder the first
    dictionary variable, the rest being rendered with the remaining
    variables (and throws when there is no variable, or when the formatter
    throws). *)
Theorem decode_message_by_character (v : encoded_variable_t) :
  (forall E D, render_message v [] E D = Some [])
  /\ (forall c logtype E D,
         kind c = KStatic ->
         render_message v (c :: logtype) E D
         = prepend [c] (render_message v logtype E D))
  /\ (forall c x logtype E D,
         kind c = KEscape ->
         render_message v (c :: x :: logtype) E D
         = prepend [x] (render_message v logtype E D))
  /\ (forall c E D, kind c = KEscape -> render_message v [c] E D = None)
  /\ (forall c x logtype E D,
         kind c = KFloat ->
         render_message v (c :: logtype) (x :: E) D
         = match decode_float_var v x with
           | Some text => prepend text (render_message v logtype E D)
           | None => None
           end)
  /\ (forall c x logtype E D,
         kind c = KInteger ->
         render_message v (c :: logtype) (x :: E) D
         = match decode_integer_var v x with
           | Some text => prepend text (render_message v logtype E D)
           | None => None
           end)
  /\ (forall c s logtype E D,
         kind c = KDictionary ->
         render_message v (c :: logtype) E (s :: D)
         = prepend s (render_message v logtype E D))
  /\ (forall c logtype D,
         kind c = KFloat \/ kind c = KInteger ->
         render_message v (c :: logtype) [] D = None)
  /\ (forall c logtype E,
         kind c = KDictionary ->
         render_message v (c :: logtype) E [] = None).
Proof.
  repeat split.
  - intros c logtype E D K. rewrite render_message_cons, K. reflexivity.
  - intros c x logtype E D K. rewrite render_message_cons, K. reflexivity.
  - intros c E D K. rewrite render_message_cons, K. reflexivity.
  - intros c x logtype E D K. rewrite render_message_cons, K.
    destruct (decode_float_var v x); reflexivity.
  - intros c x logtype E D K. rewrite render_message_cons, K.
    destruct (decode_integer_var v x); reflexivity.
  - intros c s logtype E D K. rewrite render_message_cons, K. reflexivity.
  - intros c logtype D [K|K]; rewrite render_message_cons, K; reflexivity.
  - intros c logtype E K. rewrite render_message_cons, K. reflexivity.
Qed.

Lemma render_app v logtype1 : forall E1 D1 out logtype2 E2 D2,
  reference v logtype1 E1 D1 = Some (out, length E1, length D1) ->
  reference v (logtype1 ++ logtype2) (E1 ++ E2) (D1 ++ D2)
  = extend out (length E1) (length D1) (reference v logtype2 E2 D2).
Proof.
  induction logtype1 as [logtype1 IH] using length_induction.
  intros E1 D1 out logtype2 E2 D2 H.
  destruct logtype1 as [|c rest]; cbn [render app] in H |- *.
  - injection H as <- HE HD.
    symmetry in HE, HD. apply length_zero_iff_nil in HE, HD. subst E1 D1.
    cbn [app length].
    destruct (reference v logtype2 E2 D2) as [[[o a] b]|]; reflexivity.
  - destruct (kind c) eqn:K.
    + destruct E1 as [|x E1]; [discriminate|]. cbn [app].
      destruct (decode_float_var v x) as [text|]; [|discriminate].
      destruct (reference v rest E1 D1) as [[[o a] b]|] eqn:R; [|discriminate].
      injection H as <- Ha Hb. assert (Ea : a = length E1) by (cbn [length] in *; lia).
      assert (Eb : b = length D1) by (cbn [length] in *; lia).
      clear Ha Hb. subst a b.
      rewrite (IH rest ltac:(cbn; lia) _ _ _ logtype2 E2 D2 R).
      destruct (reference v logtype2 E2 D2) as [[[o2 a2] b2]|]; cbn;
        [rewrite <- app_assoc|]; reflexivity.
    + destruct E1 as [|x E1]; [discriminate|]. cbn [app].
      destruct (decode_integer_var v x) as [text|]; [|discriminate].
      destruct (reference v rest E1 D1) as [[[o a] b]|] eqn:R; [|discriminate].
      injection H as <- Ha Hb. assert (Ea : a = length E1) by (cbn [length] in *; lia).
      assert (Eb : b = length D1) by (cbn [length] in *; lia).
      clear Ha Hb. subst a b.
      rewrite (IH rest ltac:(cbn; lia) _ _ _ logtype2 E2 D2 R).
      destruct (reference v logtype2 E2 D2) as [[[o2 a2] b2]|]; cbn;
        [rewrite <- app_assoc|]; reflexivity.
    + destruct D1 as [|s D1]; [discriminate|]. cbn [app].
      destruct (reference v rest E1 D1) as [[[o a] b]|] eqn:R; [|discriminate].
      injection H as <- Ha Hb. assert (Ea : a = length E1) by (cbn [length] in *; lia).
      assert (Eb : b = length D1) by (cbn [length] in *; lia).
      clear Ha Hb. subst a b.
      rewrite (IH rest ltac:(cbn; lia) _ _ _ logtype2 E2 D2 R).
      destruct (reference v logtype2 E2 D2) as [[[o2 a2] b2]|]; cbn;
        [rewrite <- app_assoc|]; reflexivity.
    + destruct rest as [|x rest]; [discriminate|]. cbn [app].
      destruct (reference v rest E1 D1) as [[[o a] b]|] eqn:R; [|discriminate].
      injection H as <- Ha Hb. subst a b.
      rewrite (IH rest ltac:(cbn; lia) _ _ _ logtype2 E2 D2 R).
      destruct (reference v logtype2 E2 D2) as [[[o2 a2] b2]|]; reflexivity.
    + destruct (reference v rest E1 D1) as [[[o a] b]|] eqn:R; [|discriminate].
      injection H as <- Ha Hb. subst a b.
      rewrite (IH rest ltac:(cbn; lia) _ _ _ logtype2 E2 D2 R).
      destruct (reference v logtype2 E2 D2) as [[[o2 a2] b2]|]; reflexivity.
Qed.

(** X17: [decode_message] distributes over concatenation.  When a logtype
    renders with variables that its placeholders consume exactly, the
    logtype followed by another, with the variables of the other appended,
    renders to the first message followed by the second, and throws when the
    second throws. *)
Theorem decode_message_app (v : encoded_variable_t)
    (logtype1 logtype2 : list byte) (E1 E2 : list Z)
    (D1 D2 : list (list byte)) (message1 : list byte) :
  render_message v logtype1 E1 D1 = Some message1 ->
  count_encoded_placeholders VariablePlaceholder logtype1 = length E1 ->
  count_dictionary_placeholders VariablePlaceholder logtype1 = length D1 ->
  render_message v (logtype1 ++ logtype2) (E1 ++ E2) (D1 ++ D2)
  = prepend message1 (render_message v logtype2 E2 D2).
Proof.
  intros H HE HD. rewrite decode_message_render in H.
  destruct (reference v logtype1 E1 D1) as [[[out ne] nd]|] eqn:R;
    [|discriminate].
  injection H as ->.
  pose proof (render_counts _ _ _ v _ _ _ _ _ _ R) as (Hne & Hnd & _).
  rewrite <- Hne in HE. rewrite <- Hnd in HD. subst ne nd.
  rewrite !decode_message_render.
  rewrite (render_app v _ _ _ _ logtype2 E2 D2 R).
  destruct (reference v logtype2 E2 D2) as [[[o2 a2] b2]|]; reflexivity.
Qed.

End RendererEquations.


(** * Sample runs *)

Example decode_int_ex1 :
  decode_int int16_t [Byte.xff; Byte.xfe; Byte.x01] = (Some (-2), [Byte.x01]).
Proof. vm_compute. reflexivity. Qed.

Example decode_int_ex2 :
  decode_int uint32_t [Byte.x00; Byte.x00; Byte.x01; Byte.x02] = (Some 258, []).
Proof. vm_compute. reflexivity. Qed.

(** One integer variable, logtype of one placeholder, delta 0. *)
Example scenario_one_integer :
  sample_decode_next_message four_byte_encoded_variable_t
    [Byte.x18; Byte.x00; Byte.x00; Byte.x00; Byte.x2a;
     Byte.x21; Byte.x01; Byte.x12; Byte.x31; Byte.x00]
  = (Success ([Byte.x2a], 0), []).
Proof. vm_compute. reflexivity. Qed.

(** Two dictionary variables with text around them, delta 5. *)
Example scenario_two_dictionary_vars :
  sample_decode_next_message four_byte_encoded_variable_t
    [Byte.x11; Byte.x01; Byte.x57;
     Byte.x11; Byte.x02; Byte.x68; Byte.x69;
     Byte.x21; Byte.x05; Byte.x5b; Byte.x13; Byte.x5d; Byte.x20; Byte.x13;
     Byte.x32; Byte.x00; Byte.x05]
  = (Success ([Byte.x5b; Byte.x57; Byte.x5d; Byte.x20; Byte.x68; Byte.x69], 5),
     []).
Proof. vm_compute. reflexivity. Qed.

(** An escaped placeholder is static text. *)
Example scenario_escaped_placeholder :
  decode_message sample_placeholders sample_float_var sample_integer_var
    four_byte_encoded_variable_t
    [Byte.x41; Byte.x5c; Byte.x12; Byte.x42] [] []
  = Some [Byte.x41; Byte.x12; Byte.x42].
Proof. vm_compute. reflexivity. Qed.

(** Two integer placeholders, one encoded variable. *)
Example scenario_count_mismatch :
  sample_decode_next_message four_byte_encoded_variable_t
    [Byte.x18; Byte.x00; Byte.x00; Byte.x00; Byte.x2a;
     Byte.x21; Byte.x02; Byte.x12; Byte.x12; Byte.x31; Byte.x00]
  = (Failure IRErrorCode_Decode_Error, []).
Proof. vm_compute. reflexivity. Qed.

(** A logtype that ends with the escape character. *)
Example scenario_trailing_escape :
  sample_decode_next_message four_byte_encoded_variable_t
    [Byte.x21; Byte.x02; Byte.x41; Byte.x5c; Byte.x31; Byte.x00]
  = (Failure IRErrorCode_Decode_Error, []).
Proof. vm_compute. reflexivity. Qed.

(** A tag that is no tag of the protocol, after a variable record. *)
Example scenario_bad_tag_after_variable :
  sample_decode_next_message four_byte_encoded_variable_t
    [Byte.x18; Byte.x00; Byte.x00; Byte.x00; Byte.x2a; Byte.x7f; Byte.x01]
  = (Failure IRErrorCode_Corrupted_IR, [Byte.x01]).
Proof. vm_compute. reflexivity. Qed.

(** The EOF tag after a variable record is out of place. *)
Example scenario_eof_after_variable :
  sample_decode_next_message four_byte_encoded_variable_t
    [Byte.x18; Byte.x00; Byte.x00; Byte.x00; Byte.x2a; Byte.x00]
  = (Failure IRErrorCode_Corrupted_IR, []).
Proof. vm_compute. reflexivity. Qed.

(** The absolute-timestamp tag in a stream of the four-byte encoding. *)
Example scenario_bad_timestamp_tag :
  sample_decode_next_message four_byte_encoded_variable_t
    [Byte.x21; Byte.x01; Byte.x41; Byte.x30; Byte.x00]
  = (Failure IRErrorCode_Corrupted_IR, [Byte.x00]).
Proof. vm_compute. reflexivity. Qed.

(** A logtype record whose signed 32-bit length is -1. *)
Example scenario_negative_length :
  sample_decode_next_message four_byte_encoded_variable_t
    [Byte.x23; Byte.xff; Byte.xff; Byte.xff; Byte.xff; Byte.x41]
  = (Failure IRErrorCode_Incomplete_IR, [Byte.x41]).
Proof. vm_compute. reflexivity. Qed.

(** The stream ends inside a frame. *)
Example scenario_incomplete :
  sample_decode_next_message four_byte_encoded_variable_t
    [Byte.x21; Byte.x03; Byte.x41]
  = (Failure IRErrorCode_Incomplete_IR, [Byte.x41]).
Proof. vm_compute. reflexivity. Qed.

(** An absolute timestamp of the eight-byte encoding. *)
Example scenario_absolute_timestamp :
  sample_decode_next_message eight_byte_encoded_variable_t
    [Byte.x21; Byte.x00;
     Byte.x30; Byte.x00; Byte.x00; Byte.x01; Byte.x83;
     Byte.x07; Byte.xf9; Byte.x5c; Byte.x00]
  = (Success ([], 0x0000018307F95C00), []).
Proof. vm_compute. reflexivity. Qed.

(** * Instances of the theorems *)

Lemma decode_int_big_endian_witness :
  decode_int int16_t ([Byte.xff; Byte.xfe] ++ [Byte.x01])
  = (Some (interpret int16_t (big_endian_value [Byte.xff; Byte.xfe])),
     [Byte.x01])
  /\ interpret int16_t (big_endian_value [Byte.xff; Byte.xfe]) = -2.
Proof.
  split.
  - apply (proj1 (proj2 (decode_int_big_endian int16_t))). reflexivity.
  - reflexivity.
Defined.


Lemma sample_tags_ok : tags_ok sample_protocol.
Proof.
  split.
  - unfold protocol_tags, sample_protocol. cbn.
    repeat constructor; cbn; intuition discriminate.
  - unfold protocol_tags, sample_protocol, in_range. cbn.
    repeat constructor; cbn; lia.
Qed.

Lemma sample_formatters_total :
  formatters_total sample_float_var sample_integer_var.
Proof. intros v x. split; discriminate. Qed.

Lemma sample_distinct_case_labels : distinct_case_labels sample_placeholders.
Proof.
  unfold distinct_case_labels, sample_placeholders. cbn.
  repeat constructor; cbn; intuition discriminate.
Qed.

Lemma get_encoding_type_magic_number_witness :
  FourByteEncodingMagicNumber sample_protocol
  <> EightByteEncodingMagicNumber sample_protocol
  /\ get_encoding_type sample_protocol
       ([Byte.xfd; Byte.x2f; Byte.xb5; Byte.x29] ++ [Byte.x00])
     = (Success true, [Byte.x00]).
Proof.
  assert (FourByteEncodingMagicNumber sample_protocol
          <> EightByteEncodingMagicNumber sample_protocol) as Hne
      by discriminate.
  split; [exact Hne|].
  apply (proj1 (get_encoding_type_magic_number sample_protocol
                  eq_refl eq_refl Hne)
           [Byte.xfd; Byte.x2f; Byte.xb5; Byte.x29] [Byte.x00] eq_refl).
  reflexivity.
Defined.

(** C2, at the failing input: the signed 32-bit length form followed by the
    bytes FF FF FF FF, the length -1, and one more byte.  The documentation
    of [parse_logtype] and [parse_dictionary_var] gives Corrupted for
    invalid IR.  Both read the length into an [int32_t], assign it to the
    [size_t] count without a check of its sign, which makes it 2^64 - 1,
    and ask the reader for that many bytes: the answer is Incomplete, not
    Corrupted. *)
Theorem negative_length_not_corrupted :
  interpret int32_t (big_endian_value [Byte.xff; Byte.xff; Byte.xff; Byte.xff])
  = -1
  /\ to_size_t (-1) = 2 ^ 64 - 1
  /\ parse_logtype sample_protocol (LogtypeStrLenInt (Payload sample_protocol))
       [Byte.xff; Byte.xff; Byte.xff; Byte.xff; Byte.x41]
     = (Failure IRErrorCode_Incomplete_IR, [Byte.x41])
  /\ parse_dictionary_var sample_protocol (VarStrLenInt (Payload sample_protocol))
       [Byte.xff; Byte.xff; Byte.xff; Byte.xff; Byte.x41]
     = (Failure IRErrorCode_Incomplete_IR, [Byte.x41])
  /\ fst (parse_logtype sample_protocol
            (LogtypeStrLenInt (Payload sample_protocol))
            [Byte.xff; Byte.xff; Byte.xff; Byte.xff; Byte.x41])
     <> Failure IRErrorCode_Corrupted_IR
  /\ fst (parse_dictionary_var sample_protocol
            (VarStrLenInt (Payload sample_protocol))
            [Byte.xff; Byte.xff; Byte.xff; Byte.xff; Byte.x41])
     <> Failure IRErrorCode_Corrupted_IR.
Proof.
  split; [vm_compute; reflexivity|].
  split; [vm_compute; reflexivity|].
  split; [vm_compute; reflexivity|].
  split; [vm_compute; reflexivity|].
  split; vm_compute; discriminate.
Qed.

Lemma parse_timestamp_variants_witness :
  parse_timestamp sample_protocol four_byte_encoded_variable_t
    (TimestampDeltaShort (Payload sample_protocol))
    ([Byte.xff; Byte.xfb] ++ [Byte.x00])
  = (Success (interpret int16_t (big_endian_value [Byte.xff; Byte.xfb])),
     [Byte.x00])
  /\ interpret int16_t (big_endian_value [Byte.xff; Byte.xfb]) = -5.
Proof.
  split; [|vm_compute; reflexivity].
  apply (proj1 (proj2 (proj2 (proj2
           (parse_timestamp_variants sample_protocol
              ltac:(cbn; lia) ltac:(cbn; lia) ltac:(cbn; lia)))))
           [Byte.xff; Byte.xfb] [Byte.x00] eq_refl).
Defined.

Lemma eof_tag_returns_eof_witness :
  tag_of_byte Byte.x00 = Eof sample_protocol
  /\ four_byte_encoding.decode_next_message sample_protocol sample_placeholders
       sample_float_var sample_integer_var [Byte.x00; Byte.x21; Byte.x00]
     = (Failure IRErrorCode_Eof, [Byte.x21; Byte.x00]).
Proof.
  split; [reflexivity|].
  apply (eof_tag_returns_eof sample_protocol sample_placeholders
           sample_float_var sample_integer_var Byte.x00
           [Byte.x21; Byte.x00] eq_refl).
Defined.

Lemma unexpected_tag_is_corrupted_witness :
  tag_of_byte Byte.x7f <> Eof sample_protocol
  /\ generic_decode_next_message sample_protocol sample_placeholders
       sample_float_var sample_integer_var four_byte_encoded_variable_t
       [Byte.x7f; Byte.x00]
     = (Failure IRErrorCode_Corrupted_IR, [Byte.x00]).
Proof.
  assert (tag_of_byte Byte.x7f <> Eof sample_protocol) as Hne
      by (vm_compute; discriminate).
  split; [exact Hne|].
  apply (proj1 (unexpected_tag_is_corrupted sample_protocol sample_placeholders
                  sample_float_var sample_integer_var
                  four_byte_encoded_variable_t Byte.x7f [Byte.x00] Hne));
    reflexivity.
Defined.

Lemma fully_escaped_logtype_witness :
  decode_message sample_placeholders sample_float_var sample_integer_var
    four_byte_encoded_variable_t
    (concat (map (unit_bytes sample_placeholders)
               [Ordinary Byte.x41; Escaped Byte.x12; Escaped Byte.x5c;
                Ordinary Byte.x42]))
    [7] [[Byte.x43]]
  = Some [Byte.x41; Byte.x12; Byte.x5c; Byte.x42].
Proof.
  apply (fully_escaped_logtype sample_placeholders sample_float_var
           sample_integer_var four_byte_encoded_variable_t
           [Ordinary Byte.x41; Escaped Byte.x12; Escaped Byte.x5c;
            Ordinary Byte.x42] [7] [[Byte.x43]]
           sample_distinct_case_labels).
  repeat constructor; cbn; discriminate.
Defined.

(** A logtype without placeholders, one encoded and one dictionary
    variable: the message is decoded and neither variable is consumed. *)
Lemma surplus_encoded_variable_unconsumed :
  decode_message sample_placeholders sample_float_var sample_integer_var
    four_byte_encoded_variable_t [Byte.x41] [42] [[Byte.x42]]
  = Some [Byte.x41]
  /\ exists st,
      decode_message_loop sample_placeholders sample_float_var
        sample_integer_var four_byte_encoded_variable_t
        [Byte.x41] [42] [[Byte.x42]] initial_state = Some st
      /\ encoded_vars_ix st = 0%nat
      /\ dictionary_vars_ix st = 0%nat
      /\ encoded_vars_ix st <> length [42]
      /\ dictionary_vars_ix st <> length [[Byte.x42]].
Proof.
  split; [vm_compute; reflexivity|].
  eexists. split; [vm_compute; reflexivity|].
  repeat split; cbn; discriminate.
Qed.

Lemma consumed_variables_witness :
  exists st,
    decode_message_loop sample_placeholders sample_float_var
      sample_integer_var four_byte_encoded_variable_t
      [Byte.x12; Byte.x13] [42; 7] [[Byte.x41]] initial_state = Some st
    /\ encoded_vars_ix st
       = count_encoded_placeholders sample_placeholders [Byte.x12; Byte.x13]
    /\ dictionary_vars_ix st
       = count_dictionary_placeholders sample_placeholders [Byte.x12; Byte.x13]
    /\ (encoded_vars_ix st <= length [42; 7])%nat
    /\ (dictionary_vars_ix st <= length [[Byte.x41]])%nat.
Proof.
  apply (consumed_variables sample_placeholders sample_float_var
           sample_integer_var four_byte_encoded_variable_t
           [Byte.x12; Byte.x13] [42; 7] [[Byte.x41]] [Byte.x2a; Byte.x41]).
  vm_compute. reflexivity.
Defined.

Lemma surplus_variables_ignored_witness :
  decode_message sample_placeholders sample_float_var sample_integer_var
    four_byte_encoded_variable_t [Byte.x12] ([42] ++ [7]) ([] ++ [[Byte.x41]])
  = Some [Byte.x2a].
Proof.
  apply (surplus_variables_ignored sample_placeholders sample_float_var
           sample_integer_var four_byte_encoded_variable_t
           [Byte.x12] [42] [] [Byte.x2a] [7] [[Byte.x41]]).
  vm_compute. reflexivity.
Defined.

(** A float formatter that throws on the one encoded variable of a frame
    whose logtype is one Float placeholder: DecodeError, and none of the
    three conditions holds. *)
Lemma formatter_throw_is_decode_error :
  generic_decode_next_message sample_protocol sample_placeholders
    sample_partial_float_var sample_integer_var four_byte_encoded_variable_t
    [Byte.x18; Byte.x00; Byte.x00; Byte.x00; Byte.x00;
     Byte.x21; Byte.x01; Byte.x11; Byte.x31; Byte.x00]
  = (Failure IRErrorCode_Decode_Error, [])
  /\ parse_frame sample_protocol four_byte_encoded_variable_t
       [Byte.x18; Byte.x00; Byte.x00; Byte.x00; Byte.x00;
        Byte.x21; Byte.x01; Byte.x11; Byte.x31; Byte.x00]
     = (Success ([Byte.x11], [0], [], 0), [])
  /\ ~ (exists st,
          loop_reaches sample_placeholders sample_partial_float_var
            sample_integer_var four_byte_encoded_variable_t
            [Byte.x11] [0] [] st
          /\ (too_few_encoded_vars_at sample_placeholders [Byte.x11] [0] st
              \/ too_few_dictionary_vars_at sample_placeholders [Byte.x11]
                   [] st
              \/ unexpected_escape_at sample_placeholders [Byte.x11] st))
  /\ ~ ((length [0]
         < count_encoded_placeholders sample_placeholders [Byte.x11])%nat
        \/ (length (@nil (list byte))
            < count_dictionary_placeholders sample_placeholders
                [Byte.x11])%nat
        \/ escape_at_end sample_placeholders [Byte.x11] = true).
Proof.
  split; [vm_compute; reflexivity|].
  split; [vm_compute; reflexivity|].
  split.
  - intros (st & Hreach & H).
    assert (st = initial_state) as ->.
    { clear H.
      induction Hreach as [|st st' Hr IH Hlt Hcase]; [reflexivity|].
      rewrite IH in Hcase. vm_compute in Hcase. discriminate. }
    destruct H as [(_ & _ & H) | [(_ & K & _) | (_ & K & _)]].
    + cbn in H. lia.
    + vm_compute in K. discriminate.
    + vm_compute in K. discriminate.
  - vm_compute. intros [H | [H | H]]; try discriminate;
      repeat match goal with
             | H : (S _ <= _)%nat |- _ => inversion H; clear H
             end.
Qed.

Lemma decode_error_conditions_witness :
  frame_bytes sample_protocol four_byte_encoded_variable_t
    [EncodedVariable 42] LenUByte [Byte.x12; Byte.x12] int8_t 0
  = [Byte.x18; Byte.x00; Byte.x00; Byte.x00; Byte.x2a;
     Byte.x21; Byte.x02; Byte.x12; Byte.x12; Byte.x31; Byte.x00]
  /\ generic_decode_next_message sample_protocol sample_placeholders
       sample_float_var sample_integer_var four_byte_encoded_variable_t
       (frame_bytes sample_protocol four_byte_encoded_variable_t
          [EncodedVariable 42] LenUByte [Byte.x12; Byte.x12] int8_t 0
        ++ [Byte.x00])
     = (Failure IRErrorCode_Decode_Error, [Byte.x00])
  /\ ((length [42]
       < count_encoded_placeholders sample_placeholders
           [Byte.x12; Byte.x12])%nat
      \/ (length (@nil (list byte))
          < count_dictionary_placeholders sample_placeholders
              [Byte.x12; Byte.x12])%nat
      \/ escape_at_end sample_placeholders [Byte.x12; Byte.x12] = true).
Proof.
  assert (decode_message sample_placeholders sample_float_var
            sample_integer_var four_byte_encoded_variable_t
            [Byte.x12; Byte.x12] [42] [] = None) as Hnone
      by (vm_compute; reflexivity).
  split; [vm_compute; reflexivity|]. split.
  - apply (proj2 (proj1 (proj2
             (decode_error_conditions sample_protocol sample_placeholders
                sample_float_var sample_integer_var
                four_byte_encoded_variable_t))
             [EncodedVariable 42] LenUByte [Byte.x12; Byte.x12] int8_t 0
             [Byte.x00] sample_tags_ok
             ltac:(repeat constructor; cbn; lia) ltac:(cbn; lia)
             ltac:(left; reflexivity) ltac:(cbn; lia))).
    exact Hnone.
  - apply (proj2 (proj2 (proj2 (proj2 (proj2
             (decode_error_conditions sample_protocol sample_placeholders
                sample_float_var sample_integer_var
                four_byte_encoded_variable_t))))
             sample_formatters_total [Byte.x12; Byte.x12] [42] [] Hnone)).
Defined.

(** ** Instances of the further properties *)

Lemma sample_logtype_tags_nodup :
  NoDup [LogtypeStrLenUByte (Payload sample_protocol);
         LogtypeStrLenUShort (Payload sample_protocol);
         LogtypeStrLenInt (Payload sample_protocol)].
Proof. cbn. repeat constructor; cbn; intuition discriminate. Qed.

Lemma sample_dictionary_tags_nodup :
  NoDup [VarStrLenUByte (Payload sample_protocol);
         VarStrLenUShort (Payload sample_protocol);
         VarStrLenInt (Payload sample_protocol)].
Proof. cbn. repeat constructor; cbn; intuition discriminate. Qed.

Lemma decode_int_round_trip_witness :
  in_range int16_t (-2)
  /\ decode_int int16_t
       (big_endian_bytes (sizeof int16_t) (-2) ++ [Byte.x01])
     = (Some (-2), [Byte.x01])
  /\ big_endian_bytes (sizeof int16_t) (-2) = [Byte.xff; Byte.xfe].
Proof.
  assert (in_range int16_t (-2)) as H by (cbn; lia).
  split; [exact H|]. split; [|vm_compute; reflexivity].
  apply (proj1 (decode_int_round_trip int16_t) (-2) [Byte.x01] H).
Defined.

Lemma parse_logtype_round_trip_witness :
  fits LenUShort [Byte.x41; Byte.x12]
  /\ length_prefixed LenUShort [Byte.x41; Byte.x12]
     = [Byte.x00; Byte.x02; Byte.x41; Byte.x12]
  /\ parse_logtype sample_protocol
       (logtype_length_tag sample_protocol LenUShort)
       (length_prefixed LenUShort [Byte.x41; Byte.x12] ++ [Byte.x31])
     = (Success [Byte.x41; Byte.x12], [Byte.x31]).
Proof.
  assert (fits LenUShort [Byte.x41; Byte.x12]) as H by (cbn; lia).
  split; [exact H|]. split; [vm_compute; reflexivity|].
  apply (proj1 (parse_logtype_round_trip sample_protocol LenUShort
                  [Byte.x41; Byte.x12] [Byte.x31]
                  sample_logtype_tags_nodup H)).
Defined.

Lemma parse_dictionary_var_round_trip_witness :
  fits LenUByte [Byte.x68; Byte.x69]
  /\ length_prefixed LenUByte [Byte.x68; Byte.x69]
     = [Byte.x02; Byte.x68; Byte.x69]
  /\ fst (parse_dictionary_var sample_protocol
            (dictionary_length_tag sample_protocol LenUByte)
            [Byte.x02; Byte.x68])
     = Failure IRErrorCode_Incomplete_IR.
Proof.
  assert (fits LenUByte [Byte.x68; Byte.x69]) as H by (cbn; lia).
  split; [exact H|]. split; [vm_compute; reflexivity|].
  apply (proj2 (parse_dictionary_var_round_trip sample_protocol LenUByte
                  [Byte.x68; Byte.x69] []
                  sample_dictionary_tags_nodup H)
           [Byte.x02; Byte.x68] [Byte.x69]).
  - reflexivity.
  - discriminate.
Defined.

Lemma field_parsers_error_codes_witness :
  parse_logtype sample_protocol 0x7f [Byte.x00]
  = (Failure IRErrorCode_Corrupted_IR, [Byte.x00])
  /\ In IRErrorCode_Corrupted_IR
       [IRErrorCode_Corrupted_IR; IRErrorCode_Incomplete_IR].
Proof.
  assert (parse_logtype sample_protocol 0x7f [Byte.x00]
          = (Failure IRErrorCode_Corrupted_IR, [Byte.x00])) as H
      by (vm_compute; reflexivity).
  split; [exact H|].
  apply (proj1 (proj2 (field_parsers_error_codes sample_protocol))
           0x7f [Byte.x00] IRErrorCode_Corrupted_IR [Byte.x00] H).
Defined.

Lemma decode_next_message_frame_witness :
  frame_bytes sample_protocol four_byte_encoded_variable_t
    [EncodedVariable 42; DictionaryVariable LenUByte [Byte.x57]]
    LenUByte [Byte.x12; Byte.x20; Byte.x13] int8_t (-3)
  = [Byte.x18; Byte.x00; Byte.x00; Byte.x00; Byte.x2a;
     Byte.x11; Byte.x01; Byte.x57;
     Byte.x21; Byte.x03; Byte.x12; Byte.x20; Byte.x13;
     Byte.x31; Byte.xfd]
  /\ generic_decode_next_message sample_protocol sample_placeholders
       sample_float_var sample_integer_var four_byte_encoded_variable_t
       (frame_bytes sample_protocol four_byte_encoded_variable_t
          [EncodedVariable 42; DictionaryVariable LenUByte [Byte.x57]]
          LenUByte [Byte.x12; Byte.x20; Byte.x13] int8_t (-3)
        ++ [Byte.x00])
     = match
         decode_message sample_placeholders sample_float_var
           sample_integer_var four_byte_encoded_variable_t
           [Byte.x12; Byte.x20; Byte.x13]
           (encoded_values
              [EncodedVariable 42; DictionaryVariable LenUByte [Byte.x57]])
           (dictionary_values
              [EncodedVariable 42; DictionaryVariable LenUByte [Byte.x57]])
       with
       | Some message => (Success (message, -3), [Byte.x00])
       | None => (Failure IRErrorCode_Decode_Error, [Byte.x00])
       end
  /\ decode_message sample_placeholders sample_float_var
       sample_integer_var four_byte_encoded_variable_t
       [Byte.x12; Byte.x20; Byte.x13] [42] [[Byte.x57]]
     = Some [Byte.x2a; Byte.x20; Byte.x57].
Proof.
  split; [vm_compute; reflexivity|]. split; [|vm_compute; reflexivity].
  apply (decode_next_message_frame sample_protocol sample_placeholders
           sample_float_var sample_integer_var four_byte_encoded_variable_t
           [EncodedVariable 42; DictionaryVariable LenUByte [Byte.x57]]
           LenUByte [Byte.x12; Byte.x20; Byte.x13] int8_t (-3) [Byte.x00]
           sample_tags_ok).
  - repeat constructor; cbn; lia.
  - cbn. lia.
  - left. reflexivity.
  - cbn. lia.
Defined.

Lemma eof_only_at_eof_tag_witness :
  generic_decode_next_message sample_protocol sample_placeholders
    sample_float_var sample_integer_var eight_byte_encoded_variable_t
    [Byte.x00; Byte.x21]
  = (Failure IRErrorCode_Eof, [Byte.x21])
  /\ exists b,
      [Byte.x00; Byte.x21] = b :: [Byte.x21]
      /\ tag_of_byte b = Eof sample_protocol.
Proof.
  assert (generic_decode_next_message sample_protocol sample_placeholders
            sample_float_var sample_integer_var eight_byte_encoded_variable_t
            [Byte.x00; Byte.x21]
          = (Failure IRErrorCode_Eof, [Byte.x21])) as H
      by (vm_compute; reflexivity).
  split; [exact H|].
  apply (proj1 (eof_only_at_eof_tag sample_protocol sample_placeholders
                  sample_float_var sample_integer_var
                  eight_byte_encoded_variable_t
                  [Byte.x00; Byte.x21] [Byte.x21]) H).
Defined.

Lemma decode_next_message_progress_witness :
  generic_decode_next_message sample_protocol sample_placeholders
    sample_float_var sample_integer_var four_byte_encoded_variable_t
    [Byte.x21; Byte.x00; Byte.x31; Byte.x07; Byte.x00]
  = (Success ([], 7), [Byte.x00])
  /\ exists consumed,
      [Byte.x21; Byte.x00; Byte.x31; Byte.x07; Byte.x00]
      = consumed ++ [Byte.x00]
      /\ (frame_min_bytes four_byte_encoded_variable_t
          <= length consumed)%nat
      /\ (4 <= length consumed)%nat.
Proof.
  assert (generic_decode_next_message sample_protocol sample_placeholders
            sample_float_var sample_integer_var four_byte_encoded_variable_t
            [Byte.x21; Byte.x00; Byte.x31; Byte.x07; Byte.x00]
          = (Success ([], 7), [Byte.x00])) as H
      by (vm_compute; reflexivity).
  split; [exact H|].
  apply (decode_next_message_progress sample_protocol sample_placeholders
           sample_float_var sample_integer_var four_byte_encoded_variable_t
           [Byte.x21; Byte.x00; Byte.x31; Byte.x07; Byte.x00]
           ([], 7) [Byte.x00] H).
Defined.

Lemma decode_next_message_local_witness :
  generic_decode_next_message sample_protocol sample_placeholders
    sample_float_var sample_integer_var four_byte_encoded_variable_t
    ([Byte.x21; Byte.x01; Byte.x41; Byte.x31; Byte.x07] ++ [])
  = (Success ([Byte.x41], 7), [])
  /\ generic_decode_next_message sample_protocol sample_placeholders
       sample_float_var sample_integer_var four_byte_encoded_variable_t
       ([Byte.x21; Byte.x01; Byte.x41; Byte.x31; Byte.x07]
        ++ [Byte.x00; Byte.x00])
     = (Success ([Byte.x41], 7), [Byte.x00; Byte.x00]).
Proof.
  assert (generic_decode_next_message sample_protocol sample_placeholders
            sample_float_var sample_integer_var four_byte_encoded_variable_t
            ([Byte.x21; Byte.x01; Byte.x41; Byte.x31; Byte.x07] ++ [])
          = (Success ([Byte.x41], 7), [])) as H
      by (vm_compute; reflexivity).
  split; [exact H|].
  apply (decode_next_message_local sample_protocol sample_placeholders
           sample_float_var sample_integer_var four_byte_encoded_variable_t
           [Byte.x21; Byte.x01; Byte.x41; Byte.x31; Byte.x07]
           [] [Byte.x00; Byte.x00] ([Byte.x41], 7) H).
Defined.

Lemma truncated_frame_is_incomplete_witness :
  generic_decode_next_message sample_protocol sample_placeholders
    sample_float_var sample_integer_var four_byte_encoded_variable_t
    ([Byte.x21; Byte.x01; Byte.x41; Byte.x31; Byte.x07] ++ [])
  = (Success ([Byte.x41], 7), [])
  /\ fst (generic_decode_next_message sample_protocol sample_placeholders
            sample_float_var sample_integer_var four_byte_encoded_variable_t
            [Byte.x21; Byte.x01; Byte.x41; Byte.x31])
     = Failure IRErrorCode_Incomplete_IR.
Proof.
  assert (generic_decode_next_message sample_protocol sample_placeholders
            sample_float_var sample_integer_var four_byte_encoded_variable_t
            ([Byte.x21; Byte.x01; Byte.x41; Byte.x31; Byte.x07] ++ [])
          = (Success ([Byte.x41], 7), [])) as H
      by (vm_compute; reflexivity).
  split; [exact H|].
  apply (truncated_frame_is_incomplete sample_protocol sample_placeholders
           sample_float_var sample_integer_var four_byte_encoded_variable_t
           [Byte.x21; Byte.x01; Byte.x41; Byte.x31; Byte.x07] []
           ([Byte.x41], 7)
           [Byte.x21; Byte.x01; Byte.x41; Byte.x31] [Byte.x07] H).
  - reflexivity.
  - discriminate.
Defined.

Lemma other_variant_is_corrupted_witness :
  tag_byte (VarEightByteEncoding (Payload sample_protocol)) = Byte.x19
  /\ generic_decode_next_message sample_protocol sample_placeholders
       sample_float_var sample_integer_var four_byte_encoded_variable_t
       (tag_byte (VarEightByteEncoding (Payload sample_protocol))
        :: [Byte.x00])
     = (Failure IRErrorCode_Corrupted_IR, [Byte.x00]).
Proof.
  split; [vm_compute; reflexivity|].
  apply (proj1 (other_variant_is_corrupted sample_protocol
                  sample_placeholders sample_float_var sample_integer_var
                  [Byte.x00] sample_tags_ok)).
Defined.

Lemma decode_preamble_copy_round_trip_witness :
  preamble_bytes sample_metadata Byte.x01 MetadataUByte [Byte.x7b; Byte.x7d]
  = [Byte.x01; Byte.x11; Byte.x02; Byte.x7b; Byte.x7d]
  /\ decode_preamble_copy sample_metadata
       (preamble_bytes sample_metadata Byte.x01 MetadataUByte
          [Byte.x7b; Byte.x7d] ++ [Byte.x21])
     = (Success (tag_of_byte Byte.x01, [Byte.x7b; Byte.x7d]), [Byte.x21]).
Proof.
  split; [vm_compute; reflexivity|].
  apply (proj1 (decode_preamble_copy_round_trip sample_metadata Byte.x01
                  MetadataUByte [Byte.x7b; Byte.x7d] [Byte.x21]
                  ltac:(cbn; lia) ltac:(cbn; lia) ltac:(cbn; lia))).
Defined.

Lemma decode_preamble_forms_agree_witness :
  preambles_agree
    {| buffer := [Byte.xfd; Byte.x2f; Byte.xb5; Byte.x29;
                  Byte.x01; Byte.x11; Byte.x02; Byte.x7b; Byte.x7d;
                  Byte.x21];
       position := 4 |}
    (decode_preamble_seek sample_metadata
       {| buffer := [Byte.xfd; Byte.x2f; Byte.xb5; Byte.x29;
                     Byte.x01; Byte.x11; Byte.x02; Byte.x7b; Byte.x7d;
                     Byte.x21];
          position := 4 |})
    (decode_preamble_copy sample_metadata
       (unread
          {| buffer := [Byte.xfd; Byte.x2f; Byte.xb5; Byte.x29;
                        Byte.x01; Byte.x11; Byte.x02; Byte.x7b; Byte.x7d;
                        Byte.x21];
             position := 4 |}))
  /\ decode_preamble_seek sample_metadata
       {| buffer := [Byte.xfd; Byte.x2f; Byte.xb5; Byte.x29;
                     Byte.x01; Byte.x11; Byte.x02; Byte.x7b; Byte.x7d;
                     Byte.x21];
          position := 4 |}
     = (Success (1, 7, 2),
        {| buffer := [Byte.xfd; Byte.x2f; Byte.xb5; Byte.x29;
                      Byte.x01; Byte.x11; Byte.x02; Byte.x7b; Byte.x7d;
                      Byte.x21];
           position := 9 |}).
Proof.
  split; [|vm_compute; reflexivity].
  apply (decode_preamble_forms_agree sample_metadata
           {| buffer := [Byte.xfd; Byte.x2f; Byte.xb5; Byte.x29;
                         Byte.x01; Byte.x11; Byte.x02; Byte.x7b; Byte.x7d;
                         Byte.x21];
              position := 4 |}).
  - cbn. lia.
  - cbn. lia.
Defined.

Lemma decode_preamble_error_codes_witness :
  unread {| buffer := [Byte.x01; Byte.x12; Byte.x00; Byte.x03; Byte.x7b];
            position := 0 |}
  = Byte.x01
    :: tag_byte (metadata_length_tag sample_metadata MetadataUShort)
    :: big_endian_bytes (sizeof (metadata_length_type MetadataUShort)) 3
    ++ [Byte.x7b]
  /\ decode_preamble_seek sample_metadata
       {| buffer := [Byte.x01; Byte.x12; Byte.x00; Byte.x03; Byte.x7b];
          position := 0 |}
     = (Failure IRErrorCode_Incomplete_IR,
        {| buffer := [Byte.x01; Byte.x12; Byte.x00; Byte.x03; Byte.x7b];
           position := 4 |}).
Proof.
  assert (unread {| buffer := [Byte.x01; Byte.x12; Byte.x00; Byte.x03;
                               Byte.x7b];
                    position := 0 |}
          = Byte.x01
            :: tag_byte (metadata_length_tag sample_metadata MetadataUShort)
            :: big_endian_bytes
                 (sizeof (metadata_length_type MetadataUShort)) 3
            ++ [Byte.x7b]) as H
      by (vm_compute; reflexivity).
  split; [exact H|].
  apply (proj2 (proj2 (proj2 (proj2
           (decode_preamble_error_codes sample_metadata))))
           {| buffer := [Byte.x01; Byte.x12; Byte.x00; Byte.x03; Byte.x7b];
              position := 0 |}
           Byte.x01 MetadataUShort 3 [Byte.x7b]).
  - cbn. lia.
  - cbn. lia.
  - cbn. lia.
  - cbn. lia.
  - exact H.
  - cbn. lia.
Defined.

Lemma timestamp_range_witness :
  four_byte_encoding.decode_next_message sample_protocol sample_placeholders
    sample_float_var sample_integer_var
    [Byte.x21; Byte.x00; Byte.x33; Byte.x80; Byte.x00; Byte.x00; Byte.x00]
  = (Success ([], - 2 ^ 31), [])
  /\ - 2 ^ 31 <= - 2 ^ 31 < 2 ^ 31.
Proof.
  assert (four_byte_encoding.decode_next_message sample_protocol
            sample_placeholders sample_float_var sample_integer_var
            [Byte.x21; Byte.x00; Byte.x33; Byte.x80; Byte.x00; Byte.x00;
             Byte.x00]
          = (Success ([], - 2 ^ 31), [])) as H
      by (vm_compute; reflexivity).
  split; [exact H|].
  apply (proj1 (timestamp_range sample_protocol sample_placeholders
                  sample_float_var sample_integer_var _ _ _ _) H).
Defined.

Lemma decode_message_by_character_witness :
  classify sample_placeholders Byte.x5c = KEscape
  /\ decode_message sample_placeholders sample_float_var sample_integer_var
       four_byte_encoded_variable_t
       (Byte.x5c :: Byte.x12 :: [Byte.x12]) [42] []
     = prepend [Byte.x12]
         (decode_message sample_placeholders sample_float_var
            sample_integer_var four_byte_encoded_variable_t
            [Byte.x12] [42] [])
  /\ decode_message sample_placeholders sample_float_var sample_integer_var
       four_byte_encoded_variable_t
       (Byte.x5c :: Byte.x12 :: [Byte.x12]) [42] []
     = Some [Byte.x12; Byte.x2a].
Proof.
  assert (classify sample_placeholders Byte.x5c = KEscape) as K
      by reflexivity.
  split; [exact K|]. split; [|vm_compute; reflexivity].
  apply (proj1 (proj2 (proj2
           (decode_message_by_character sample_placeholders sample_float_var
              sample_integer_var four_byte_encoded_variable_t)))
           Byte.x5c Byte.x12 [Byte.x12] [42] [] K).
Defined.

Lemma decode_message_app_witness :
  decode_message sample_placeholders sample_float_var sample_integer_var
    four_byte_encoded_variable_t
    ([Byte.x12; Byte.x3d] ++ [Byte.x13]) ([42] ++ []) ([] ++ [[Byte.x57]])
  = prepend [Byte.x2a; Byte.x3d]
      (decode_message sample_placeholders sample_float_var sample_integer_var
         four_byte_encoded_variable_t [Byte.x13] [] [[Byte.x57]])
  /\ decode_message sample_placeholders sample_float_var sample_integer_var
       four_byte_encoded_variable_t [Byte.x13] [] [[Byte.x57]]
     = Some [Byte.x57].
Proof.
  split; [|vm_compute; reflexivity].
  apply (decode_message_app sample_placeholders sample_float_var
           sample_integer_var four_byte_encoded_variable_t
           [Byte.x12; Byte.x3d] [Byte.x13] [42] [] [] [[Byte.x57]]
           [Byte.x2a; Byte.x3d]).
  - vm_compute. reflexivity.
  - reflexivity.
  - reflexivity.
Defined.

Lemma is_variable_tag_roles_witness :
  is_variable_tag sample_protocol four_byte_encoded_variable_t 0x19 = None
  /\ (is_variable_tag sample_protocol four_byte_encoded_variable_t 0x18
      = Some true
      <-> 0x18 = encoded_variable_tag sample_protocol
                   four_byte_encoded_variable_t).
Proof.
  split.
  - apply (proj1 (proj2 (proj2 (is_variable_tag_roles sample_protocol
                                   four_byte_encoded_variable_t 0x18)
                           sample_tags_ok))).
  - apply (proj1 (proj2 (is_variable_tag_roles sample_protocol
                           four_byte_encoded_variable_t 0x18)
                    sample_tags_ok)).
Defined.
